(** * PDF dark-mode converter: the colour mapper and the content-stream rewriter

    A shallow embedding of [backend/pdf_processor_pikepdf.py] (class
    [PDFVectorProcessorPikePDF], the processor behind [cli.py] and [main.py])
    and of [_transform_rgb] of [backend/pdf_processor.py] (class
    [PDFVectorProcessor]).

    Python floats are modelled as exact rationals ([Q]): every comparison,
    [max], [min], [abs] and [%] is the mathematical one, so the statements
    below are about the piecewise policy the code implements, not about
    binary64 rounding.  Equality on [Q] is [==] ([Qeq]). *)

From Stdlib Require Import QArith Qround Qabs Qminmax Lqa Lia ZArith.
From Stdlib Require Import Bool String Ascii List DecimalString Decimal DecimalN.
Import ListNotations.

Open Scope Q_scope.

(** ** Numeric helpers: Python's float operators on rationals *)

(** [a < b] on floats. *)
Definition Qltb (a b : Q) : bool := negb (Qle_bool b a).

(** Python's [max(a, b, c)] and [min(a, b, c)]: the first extremal argument. *)
Definition max3 (a b c : Q) : Q := Qmax (Qmax a b) c.
Definition min3 (a b c : Q) : Q := Qmin (Qmin a b) c.

(** Python's [a % b] on floats for a positive modulus: [a - b * floor (a / b)]. *)
Definition pymod (a b : Q) : Q := a - b * inject_Z (Qfloor (a / b)).

(** ** Themes ([__init__]) *)

Record rgb8 : Type := mk_rgb8 { bg_r : Z; bg_g : Z; bg_b : Z }.

Definition themes : list (string * rgb8) :=
  [ ("classic"%string,  mk_rgb8 0 0 0);
    ("claude"%string,   mk_rgb8 42 37 34);
    ("chatgpt"%string,  mk_rgb8 52 53 65);
    ("sepia"%string,    mk_rgb8 40 35 25);
    ("midnight"%string, mk_rgb8 25 30 45);
    ("forest"%string,   mk_rgb8 25 35 30) ].

Fixpoint dict_get (d : list (string * rgb8)) (k : string) (default : rgb8) : rgb8 :=
  match d with
  | [] => default
  | (k', v) :: d' => if String.eqb k' k then v else dict_get d' k default
  end.

(** [self.bg_color = self.themes.get(theme, self.themes["classic"])] *)
Definition bg_color (theme : string) : rgb8 :=
  dict_get themes theme (dict_get themes "classic" (mk_rgb8 0 0 0)).

Definition theme_names : list string := map fst themes.

(** The theme background normalised to [0,1]:
    [(bg["r"] / 255.0, bg["g"] / 255.0, bg["b"] / 255.0)]. *)
Definition bg_normalized (bg : rgb8) : Q * Q * Q :=
  (inject_Z (bg_r bg) / 255, inject_Z (bg_g bg) / 255, inject_Z (bg_b bg) / 255).

(** ** The colour mapper *)

(** [_rgb_to_hsv] *)
Definition _rgb_to_hsv (r g b : Q) : Q * Q * Q :=
  let max_val := max3 r g b in
  let min_val := min3 r g b in
  let diff := max_val - min_val in
  let h :=
    if Qeq_bool diff 0 then 0
    else if Qeq_bool max_val r then pymod (60 * ((g - b) / diff) + 360) 360
    else if Qeq_bool max_val g then pymod (60 * ((b - r) / diff) + 120) 360
    else pymod (60 * ((r - g) / diff) + 240) 360 in
  let s := if Qeq_bool max_val 0 then 0 else diff / max_val in
  let v := max_val in
  (h / 360, s, v).

(** [_hsv_to_rgb] *)
Definition _hsv_to_rgb (h s v : Q) : Q * Q * Q :=
  let h := h * 360 in
  let c := v * s in
  let x := c * (1 - Qabs (pymod (h / 60) 2 - 1)) in
  let m := v - c in
  let '(r, g, b) :=
    if Qle_bool 0 h && Qltb h 60 then (c, x, 0)
    else if Qle_bool 60 h && Qltb h 120 then (x, c, 0)
    else if Qle_bool 120 h && Qltb h 180 then (0, c, x)
    else if Qle_bool 180 h && Qltb h 240 then (0, x, c)
    else if Qle_bool 240 h && Qltb h 300 then (x, 0, c)
    else (c, 0, x) in
  (r + m, g + m, b + m).

(** The luminance [0.299 * r + 0.587 * g + 0.114 * b]. *)
Definition brightness (r g b : Q) : Q := 0.299 * r + 0.587 * g + 0.114 * b.

Section ColorMapper.

(** [self.bg_color] *)
Variable bg : rgb8.

(** [_transform_rgb] *)
Definition _transform_rgb (r g b : Q) : Q * Q * Q :=
  let brightness := brightness r g b in
  if Qltb 0.93 brightness then bg_normalized bg
  else
    let '(h, s, v) := _rgb_to_hsv r g b in
    if Qltb brightness 0.15 && Qltb s 0.3 then (0.98, 0.98, 0.98)
    else if Qltb brightness 0.15 then
      let v := 0.65 + (v / 0.15) * 0.2 in
      let s := Qmin (s * 1.1) 1 in
      let '(new_r, new_g, new_b) := _hsv_to_rgb h s v in
      (Qmin (Qmax new_r 0) 1, Qmin (Qmax new_g 0) 1, Qmin (Qmax new_b 0) 1)
    else if Qltb brightness 0.4 then
      let '(h, s, v) := _rgb_to_hsv r g b in
      let v := 0.75 + (v - 0.15) * 0.8 in
      let s := s * 0.85 in
      _hsv_to_rgb h s v
    else if Qltb brightness 0.6 then
      let '(h, s, v) := _rgb_to_hsv r g b in
      let v := 0.65 + (v - 0.4) * 1 in
      let s := s * 0.9 in
      _hsv_to_rgb h s v
    else
      let '(h, s, v) := _rgb_to_hsv r g b in
      let v := 0.5 + v * 0.5 in
      _hsv_to_rgb h s v.

(** [_transform_grayscale] *)
Definition _transform_grayscale (gray : Q) : Q :=
  if Qltb 0.93 gray then
    let bg_gray := (0.299 * inject_Z (bg_r bg) +
                    0.587 * inject_Z (bg_g bg) +
                    0.114 * inject_Z (bg_b bg)) / 255 in
    bg_gray
  else if Qltb gray 0.15 then 0.98
  else if Qltb gray 0.4 then 0.75 + (gray - 0.15) * 0.8
  else if Qltb gray 0.6 then 0.65 + (gray - 0.4) * 1
  else 0.5 + gray * 0.5.

(** The conversion both directions of the CMYK path use:
    [r = (1 - c) * (1 - k)], [g = (1 - m) * (1 - k)], [b = (1 - y) * (1 - k)]. *)
Definition cmyk_to_rgb (c m y k : Q) : Q * Q * Q :=
  ((1 - c) * (1 - k), (1 - m) * (1 - k), (1 - y) * (1 - k)).

(** [_transform_cmyk] *)
Definition _transform_cmyk (c m y k : Q) : Q * Q * Q * Q :=
  let '(r, g, b) := cmyk_to_rgb c m y k in
  let '(new_r, new_g, new_b) := _transform_rgb r g b in
  if Qeq_bool new_r 0 && Qeq_bool new_g 0 && Qeq_bool new_b 0 then (0, 0, 0, 1)
  else
    let new_k := 1 - max3 new_r new_g new_b in
    if Qltb new_k 1 then
      let new_c := (1 - new_r - new_k) / (1 - new_k) in
      let new_m := (1 - new_g - new_k) / (1 - new_k) in
      let new_y := (1 - new_b - new_k) / (1 - new_k) in
      (new_c, new_m, new_y, new_k)
    else (0, 0, 0, new_k).

End ColorMapper.

(** ** The mapper of [pdf_processor.py]

    [PDFVectorProcessor._transform_rgb], which no entry point of the
    repository calls: the same conversions with other thresholds. *)
Module PDFVectorProcessor.

Definition _transform_rgb (bg : rgb8) (r g b : Q) : Q * Q * Q :=
  let brightness := brightness r g b in
  if Qltb 0.95 brightness then bg_normalized bg
  else if Qltb brightness 0.2 then (0.95, 0.95, 0.95)
  else if Qltb brightness 0.5 then
    let '(h, s, v) := _rgb_to_hsv r g b in
    let v := 0.7 + (v - 0.2) * 0.667 in
    let s := s * 0.8 in
    _hsv_to_rgb h s v
  else
    let '(h, s, v) := _rgb_to_hsv r g b in
    let v := 0.6 + v * 0.4 in
    let s := s * 0.9 in
    _hsv_to_rgb h s v.

End PDFVectorProcessor.

(** ** Vocabulary of the statements about the mapper *)

(** Component-wise equality of colour triples. *)
Definition Qeq3 (p q : Q * Q * Q) : Prop :=
  let '(p1, p2, p3) := p in
  let '(q1, q2, q3) := q in
  p1 == q1 /\ p2 == q2 /\ p3 == q3.

(** Every component of [p] is within [eps] of the same component of [q]. *)
Definition within (eps : Q) (p q : Q * Q * Q) : Prop :=
  let '(p1, p2, p3) := p in
  let '(q1, q2, q3) := q in
  Qabs (p1 - q1) <= eps /\ Qabs (p2 - q2) <= eps /\ Qabs (p3 - q3) <= eps.

(** Every component of [p] exceeds the same component of [q] by more than [eps]. *)
Definition brightened_by (eps : Q) (p q : Q * Q * Q) : Prop :=
  let '(p1, p2, p3) := p in
  let '(q1, q2, q3) := q in
  q1 + eps < p1 /\ q2 + eps < p2 /\ q3 + eps < p3.

(** Every component lies in [0,1]. *)
Definition in_unit3 (p : Q * Q * Q) : Prop :=
  let '(p1, p2, p3) := p in
  (0 <= p1 /\ p1 <= 1) /\ (0 <= p2 /\ p2 <= 1) /\ (0 <= p3 /\ p3 <= 1).

(** The RGB mapper applied to a theme's own background. *)
Definition map_background (name : string) : Q * Q * Q :=
  let '(r, g, b) := bg_normalized (bg_color name) in
  _transform_rgb (bg_color name) r g b.

(** The colour [_hsv_to_rgb] builds in sextant [k] at fraction [t] of the sextant. *)
Definition sextant_rgb (k : Z) (t c m : Q) : Q * Q * Q :=
  let x := if Z.even k then c * t else c * (1 - t) in
  match k with
  | 0%Z => (c + m, x + m, m)
  | 1%Z => (x + m, c + m, m)
  | 2%Z => (m, c + m, x + m)
  | 3%Z => (m, x + m, c + m)
  | 4%Z => (x + m, m, c + m)
  | _ => (c + m, m, x + m)
  end.

(** * The content-stream rewriter *)

(** The content of a page is decoded with [latin-1], rewritten and encoded with
    [latin-1] again: a character is a byte, a content stream is a [string]. *)

(** ** Python's [re] on the six patterns of [_transform_content_stream]

    The patterns use three character classes, the greedy quantifiers [?], [*]
    and [+], capture groups and the assertion [\b].  On [str] patterns the
    classes are the Unicode ones; restricted to the code points 0..255 that
    [latin-1] yields they are the following. *)

Definition code (c : ascii) : N := N_of_ascii c.

Definition in_range (lo hi : N) (c : ascii) : bool :=
  ((lo <=? code c) && (code c <=? hi))%N.

(** [\d]: the decimal digits. *)
Definition is_digit (c : ascii) : bool := in_range 48 57 c.

(** [\s]: TAB LF VT FF CR, FS GS RS US, SPACE, NEL and NBSP. *)
Definition is_space (c : ascii) : bool :=
  in_range 9 13 c || in_range 28 32 c || (code c =? 133)%N || (code c =? 160)%N.

(** [\w]: the alphanumeric characters and the underscore. *)
Definition is_word (c : ascii) : bool :=
  in_range 48 57 c || in_range 65 90 c || in_range 97 122 c || (code c =? 95)%N
  || (code c =? 170)%N || in_range 178 179 c || (code c =? 181)%N
  || in_range 185 186 c || in_range 188 190 c
  || in_range 192 214 c || in_range 216 246 c || in_range 248 255 c.

Inductive cclass : Type :=
| Digit                 (* \d *)
| Space                 (* \s *)
| Lit (c : ascii).      (* a literal character *)

Definition in_class (cl : cclass) (c : ascii) : bool :=
  match cl with
  | Digit => is_digit c
  | Space => is_space c
  | Lit c' => Ascii.eqb c' c
  end.

Inductive quant : Type := One | Opt | Star | Plus.

Inductive item : Type :=
| Atom (cl : cclass) (q : quant)
| GroupOpen             (* ( *)
| GroupClose            (* ) *)
| WordBoundary.         (* \b *)

Definition regex : Type := list item.

(** The outcome of a match: the text each item consumed, in the order of the
    items, and the text after the match. *)
Definition outcome : Type := list string * string.

Definition consumed (seg : string) (r : option outcome) : option outcome :=
  match r with
  | Some (segs, rest) => Some (seg :: segs, rest)
  | None => None
  end.

Definition or_else (r : option outcome) (alt : option outcome) : option outcome :=
  match r with
  | Some _ => r
  | None => alt
  end.

Definition is_word_at (c : option ascii) : bool :=
  match c with
  | Some c => is_word c
  | None => false
  end.

Definition first_char (s : string) : option ascii :=
  match s with
  | String c _ => Some c
  | EmptyString => None
  end.

Definition snoc (s : string) (c : ascii) : string := (s ++ String c "")%string.

Section Backtracking.

Variable cl : cclass.

(** What follows the atom: the continuation gets the character before the
    position and the remaining text. *)
Variable k : option ascii -> string -> option outcome.

(** A greedy repetition that has consumed [acc]: take one more character
    when possible, and give it back when the rest of the pattern fails. *)
Fixpoint repeat_greedy (acc : string) (prev : option ascii) (s : string)
  : option outcome :=
  match s with
  | String c s' =>
      if in_class cl c
      then or_else (repeat_greedy (snoc acc c) (Some c) s')
                   (consumed acc (k prev s))
      else consumed acc (k prev s)
  | EmptyString => consumed acc (k prev s)
  end.

Definition match_atom (q : quant) (prev : option ascii) (s : string)
  : option outcome :=
  match q, s with
  | One, String c s' =>
      if in_class cl c then consumed (String c "") (k (Some c) s') else None
  | One, EmptyString => None
  | Opt, String c s' =>
      if in_class cl c
      then or_else (consumed (String c "") (k (Some c) s')) (consumed "" (k prev s))
      else consumed "" (k prev s)
  | Opt, EmptyString => consumed "" (k prev s)
  | Star, _ => repeat_greedy "" prev s
  | Plus, String c s' =>
      if in_class cl c then repeat_greedy (String c "") (Some c) s' else None
  | Plus, EmptyString => None
  end.

End Backtracking.

(** Match the pattern at the start of [s]; [prev] is the character before it. *)
Fixpoint match_items (p : regex) (prev : option ascii) (s : string) : option outcome :=
  match p with
  | [] => Some ([], s)
  | Atom cl q :: p' => match_atom cl (match_items p') q prev s
  | GroupOpen :: p' | GroupClose :: p' => consumed "" (match_items p' prev s)
  | WordBoundary :: p' =>
      if xorb (is_word_at prev) (is_word_at (first_char s))
      then consumed "" (match_items p' prev s)
      else None
  end.

(** [match.group(1)], [match.group(2)], ...: the text between each [(] and its [)]. *)
Fixpoint groups_from (p : regex) (segs : list string) (open : option string)
  : list string :=
  match p, segs with
  | GroupOpen :: p', _ :: segs' => groups_from p' segs' (Some ""%string)
  | GroupClose :: p', _ :: segs' =>
      match open with
      | Some g => g :: groups_from p' segs' None
      | None => groups_from p' segs' None
      end
  | _ :: p', seg :: segs' =>
      groups_from p' segs' (option_map (fun g => (g ++ seg)%string) open)
  | _, _ => []
  end.

Definition groups (p : regex) (segs : list string) : list string :=
  groups_from p segs None.

Definition matched_text (segs : list string) : string :=
  fold_right String.append ""%string segs.

(** [re.sub(p, repl, s)] with a function [repl]: scan [s] from the left; at each
    position not inside the previous match try the pattern, replace a match by
    [repl] of its groups and go on after it, copy the character otherwise.
    [skip] counts the characters of the current match still to pass. *)
Fixpoint sub_from (p : regex) (repl : list string -> string)
    (prev : option ascii) (skip : nat) (s : string) : string :=
  match s with
  | EmptyString =>
      match skip, match_items p prev s with
      | O, Some (segs, _) => repl (groups p segs)
      | _, _ => EmptyString
      end
  | String c s' =>
      match skip with
      | S n => sub_from p repl (Some c) n s'
      | O =>
          match match_items p prev s with
          | Some (segs, _) =>
              match String.length (matched_text segs) with
              | O => (repl (groups p segs) ++ String c (sub_from p repl (Some c) 0 s'))%string
              | S n => (repl (groups p segs) ++ sub_from p repl (Some c) n s')%string
              end
          | None => String c (sub_from p repl (Some c) 0 s')
          end
      end
  end.

Definition re_sub (p : regex) (repl : list string -> string) (s : string) : string :=
  sub_from p repl None 0 s.

(** *** The patterns

    Each pattern is written below its source text, which is shown with a
    blank between the items. *)

(** The operand [( \d* \.? \d+ )] of the RGB patterns. *)
Definition number_rg : regex :=
  [GroupOpen; Atom Digit Star; Atom (Lit ".") Opt; Atom Digit Plus; GroupClose].

(** The operand [( \d+ \.? \d* )] of the gray and CMYK patterns. *)
Definition number_gk : regex :=
  [GroupOpen; Atom Digit Plus; Atom (Lit ".") Opt; Atom Digit Star; GroupClose].

(** [\s+] *)
Definition spaces : regex := [Atom Space Plus].

(** [( \d* \.? \d+ ) \s+ ( \d* \.? \d+ ) \s+ ( \d* \.? \d+ ) \s+ r g] *)
Definition pattern_rg : regex :=
  number_rg ++ spaces ++ number_rg ++ spaces ++ number_rg ++ spaces
  ++ [Atom (Lit "r") One; Atom (Lit "g") One].

(** [( \d* \.? \d+ ) \s+ ( \d* \.? \d+ ) \s+ ( \d* \.? \d+ ) \s+ R G] *)
Definition pattern_RG : regex :=
  number_rg ++ spaces ++ number_rg ++ spaces ++ number_rg ++ spaces
  ++ [Atom (Lit "R") One; Atom (Lit "G") One].

(** [( \d+ \.? \d* ) \s+ g \b] and the same with [G] *)
Definition pattern_gray (operator : ascii) : regex :=
  number_gk ++ spaces ++ [Atom (Lit operator) One; WordBoundary].

(** [( \d+ \.? \d* ) \s+ ( \d+ \.? \d* ) \s+ ( \d+ \.? \d* ) \s+ ( \d+ \.? \d* ) \s+ k \b]
    and the same with [K] *)
Definition pattern_cmyk (operator : ascii) : regex :=
  number_gk ++ spaces ++ number_gk ++ spaces ++ number_gk ++ spaces
  ++ number_gk ++ spaces ++ [Atom (Lit operator) One; WordBoundary].

(** *** Numbers as text *)

Definition digit_value (c : ascii) : Z := Z.of_N (code c) - 48.

(** The integer a string of decimal digits denotes, after the digits [acc]. *)
Fixpoint digits_value (acc : Z) (s : string) : Z :=
  match s with
  | String c s' => digits_value (10 * acc + digit_value c) s'
  | EmptyString => acc
  end.

(** Split a lexeme at its first ["."]. *)
Fixpoint split_dot (s : string) : string * string :=
  match s with
  | String c s' =>
      if Ascii.eqb c "." then (EmptyString, s')
      else let '(i, f) := split_dot s' in (String c i, f)
  | EmptyString => (EmptyString, EmptyString)
  end.

(** [float(lexeme)] on the lexemes the patterns capture: digits with at most
    one ["."] among them.  ([float] raises [ValueError] on other text; no
    group of the six patterns holds any.) *)
Definition float (lexeme : string) : Q :=
  let '(i, f) := split_dot lexeme in
  inject_Z (digits_value 0 i)
  + inject_Z (digits_value 0 f) / inject_Z (10 ^ Z.of_nat (String.length f)).

(** Rounding to the nearest integer, ties to the even one. *)
Definition round_half_even (q : Q) : Z :=
  let f := Qfloor q in
  let r := q - inject_Z f in
  if Qltb r 0.5 then f
  else if Qltb 0.5 r then (f + 1)%Z
  else if Z.even f then f else (f + 1)%Z.

Definition digit_char (d : Z) : ascii := ascii_of_N (48 + Z.to_N d).

Definition string_of_nonneg (n : Z) : string :=
  NilZero.string_of_uint (N.to_uint (Z.to_N n)).

(** The format [:.4f]: sign, integer part, ["."] and four decimals, rounded
    to the nearest; a tie is decided on the exact rational. *)
Definition format_4f (q : Q) : string :=
  let n := round_half_even (Qabs q * 10000) in
  let frac := (n mod 10000)%Z in
  ((if Qltb q 0 then "-" else "")
   ++ string_of_nonneg (n / 10000) ++ "."
   ++ String (digit_char (frac / 1000)) (String (digit_char (frac / 100 mod 10))
        (String (digit_char (frac / 10 mod 10)) (String (digit_char (frac mod 10)) ""))))%string.

(** ** The rewriter *)

Section Rewriter.

Variable bg : rgb8.

Definition group (m : list string) (i : nat) : string := nth (i - 1) m ""%string.

(** [_replace_rgb]; the two [print] calls leave the result alone and are
    not modelled. *)
Definition _replace_rgb (m : list string) (operator : string) : string :=
  let r := float (group m 1) in
  let g := float (group m 2) in
  let b := float (group m 3) in
  let '(new_r, new_g, new_b) := _transform_rgb bg r g b in
  (format_4f new_r ++ " " ++ format_4f new_g ++ " " ++ format_4f new_b
   ++ " " ++ operator)%string.

(** [_replace_gray] *)
Definition _replace_gray (m : list string) (operator : string) : string :=
  let gray := float (group m 1) in
  let new_gray := _transform_grayscale bg gray in
  (format_4f new_gray ++ " " ++ operator ++ " ")%string.

(** [_replace_cmyk] *)
Definition _replace_cmyk (m : list string) (operator : string) : string :=
  let c := float (group m 1) in
  let m' := float (group m 2) in
  let y := float (group m 3) in
  let k := float (group m 4) in
  let '(new_c, new_m, new_y, new_k) := _transform_cmyk bg c m' y k in
  (format_4f new_c ++ " " ++ format_4f new_m ++ " " ++ format_4f new_y
   ++ " " ++ format_4f new_k ++ " " ++ operator ++ " ")%string.

(** [_transform_content_stream]: six substitutions, one after the other. *)
Definition _transform_content_stream (content : string) : string :=
  let content := re_sub pattern_rg (fun m => _replace_rgb m "rg") content in
  let content := re_sub pattern_RG (fun m => _replace_rgb m "RG") content in
  let content := re_sub (pattern_gray "g") (fun m => _replace_gray m "g") content in
  let content := re_sub (pattern_gray "G") (fun m => _replace_gray m "G") content in
  let content := re_sub (pattern_cmyk "k") (fun m => _replace_cmyk m "k") content in
  let content := re_sub (pattern_cmyk "K") (fun m => _replace_cmyk m "K") content in
  content.

End Rewriter.

(** * Pages

    [_process_page] mutates a page in place inside one [try]/[except].  The
    page is threaded as state; every call into pikepdf or reportlab either
    returns or raises, and what it does is a parameter of the model. *)

Inductive exn : Type := Exception (message : string).

Inductive result (A : Type) : Type :=
| Return (a : A)
| Raise (e : exn).

Arguments Return {A} a.
Arguments Raise {A} e.

(** An object found in [/Contents]: a stream, whose [read_bytes()] returns its
    data or raises, or an object without [read_bytes]. *)
Inductive pdf_object : Type :=
| Stream (read_bytes : result string)
| NotStream.

(** [page.Contents]: a [pikepdf.Array] or a single object. *)
Inductive contents : Type :=
| ContentsArray (streams : list pdf_object)
| ContentsObject (o : pdf_object).

(** What [_create_background_pdf] asks reportlab to draw. *)
Record background : Type := mk_background {
  pagesize : Q * Q;
  fill_color : Q * Q * Q;
  rect : Q * Q * Q * Q
}.

Record Rectangle : Type := mk_Rectangle { llx : Q; lly : Q; urx : Q; ury : Q }.

(** The page dictionary: [/MediaBox] and [/Contents] when present, and the
    other entries by key. *)
Record Page : Type := mk_Page {
  MediaBox : option (list Q);
  Contents : option contents;
  entries : list (string * string)
}.

(** The calls into reportlab and pikepdf.  Each returns or raises;
    [add_underlay] also changes the page it is called on. *)
Class PdfLibrary : Type := {
  (** the document reportlab draws and [Pdf.open] reads back *)
  bg_pdf : Type;
  bg_page : Type;
  render : background -> result bg_pdf;
  (** [bg_pdf.pages[0]] *)
  first_page : bg_pdf -> result bg_page;
  (** [bg_pdf.close()] *)
  close : bg_pdf -> result unit;
  (** [page.add_underlay(bg_page, bg_rect)] *)
  add_underlay : bg_page -> Rectangle -> Page -> Page * result unit;
  (** [pikepdf.Stream(self.pdf, data)] *)
  new_stream : string -> result pdf_object;
  (** [Pdf.open(io.BytesIO(input_bytes))]: the pages of the document *)
  pdf_open : string -> result (list Page);
  (** [self.pdf.save(output)] and [output.getvalue()] *)
  pdf_save : list Page -> result string;
  (** [self.pdf.close()] *)
  pdf_close : list Page -> result unit
}.

(** ** Computations over a page *)

(** The page being processed and the warnings printed so far. *)
Record state : Type := mk_state { page : Page; warnings : list exn }.

(** A computation that returns or raises, and may change the state. *)
Definition M (A : Type) : Type := state -> state * result A.

Definition ret {A : Type} (a : A) : M A := fun st => (st, Return a).

Definition bind {A B : Type} (m : M A) (f : A -> M B) : M B :=
  fun st =>
    match m st with
    | (st', Return a) => f a st'
    | (st', Raise e) => (st', Raise e)
    end.

Definition raise {A : Type} (message : string) : M A :=
  fun st => (st, Raise (Exception message)).

Definition lift {A : Type} (r : result A) : M A := fun st => (st, r).

Definition get_page : M Page := fun st => (st, Return (page st)).

(** A call that changes the page in place. *)
Definition on_page {A : Type} (f : Page -> Page * result A) : M A :=
  fun st => let '(page', r) := f (page st) in (mk_state page' (warnings st), r).

Declare Scope monad_scope.
Delimit Scope monad_scope with monad.
Notation "x <- m ;; f" := (bind m (fun x => f))
  (at level 61, m at next level, right associativity) : monad_scope.
Notation "m ;;; f" := (bind m (fun _ => f))
  (at level 61, right associativity) : monad_scope.

(** [try: body except Exception as e: print(f"Warning: ...")]: the exception
    is caught, the warning printed, and the page stays as the body left it. *)
Definition try_except (body : M unit) : M unit :=
  fun st =>
    match body st with
    | (st', Return _) => (st', Return tt)
    | (st', Raise e) => (mk_state (page st') (warnings st' ++ [e]), Return tt)
    end.

(** ** [_process_page] and [process_pdf] *)

Section Processor.

Context {L : PdfLibrary}.

(** [self.bg_color] *)
Variable bg : rgb8.

Local Open Scope monad_scope.

(** [_create_background_pdf], up to the first page of the result *)
Definition _create_background_pdf (width height : Q) : result bg_pdf :=
  let '(bg_r, bg_g, bg_b) := bg_normalized bg in
  render {| pagesize := (width, height);
            fill_color := (bg_r, bg_g, bg_b);
            rect := (0, 0, width, height) |}.

(** [page.MediaBox] *)
Definition get_MediaBox : M (list Q) :=
  fun st =>
    match MediaBox (page st) with
    | Some box => (st, Return box)
    | None => (st, Raise (Exception "AttributeError"))
    end.

(** [mediabox[i]] *)
Definition index (mediabox : list Q) (i : nat) : M Q :=
  match nth_error mediabox i with
  | Some x => ret x
  | None => raise "IndexError"
  end.

(** [page.Contents = new_stream] *)
Definition set_Contents (o : pdf_object) : M unit :=
  on_page (fun p => (mk_Page (MediaBox p) (Some (ContentsObject o)) (entries p),
                     Return tt)).

(** The loop over a content array: the text of every stream, in order;
    an object without [read_bytes] is passed over. *)
Fixpoint read_streams (streams : list pdf_object) : result (list string) :=
  match streams with
  | [] => Return []
  | Stream read_bytes :: streams' =>
      match read_bytes with
      | Raise e => Raise e
      | Return content_str =>
          match read_streams streams' with
          | Raise e => Raise e
          | Return all_content => Return (content_str :: all_content)
          end
      end
  | NotStream :: streams' => read_streams streams'
  end.

(** [all_content] after the [if isinstance ... elif hasattr ...] *)
Definition read_contents (c : contents) : result (list string) :=
  match c with
  | ContentsArray streams => read_streams streams
  | ContentsObject (Stream read_bytes) =>
      match read_bytes with
      | Raise e => Raise e
      | Return content_str => Return [content_str]
      end
  | ContentsObject NotStream => Return []
  end.

(** ['\n'.join(all_content)] *)
Fixpoint join_lines (all_content : list string) : string :=
  match all_content with
  | [] => ""
  | [s] => s
  | s :: rest => (s ++ String "010" (join_lines rest))%string
  end.

(** The body of the [try] in [_process_page]. *)
Definition process_page_body : M unit :=
  mediabox <- get_MediaBox ;;
  x1 <- index mediabox 2 ;;
  x0 <- index mediabox 0 ;;
  y1 <- index mediabox 3 ;;
  y0 <- index mediabox 1 ;;
  let width := x1 - x0 in
  let height := y1 - y0 in
  bg_doc <- lift (_create_background_pdf width height) ;;
  bg_page <- lift (first_page bg_doc) ;;
  let bg_rect := mk_Rectangle 0 0 width height in
  on_page (add_underlay bg_page bg_rect) ;;;
  lift (close bg_doc) ;;;
  p <- get_page ;;
  match Contents p with
  | None => ret tt
  | Some contents =>
      all_content <- lift (read_contents contents) ;;
      let combined_content := join_lines all_content in
      let modified_content := _transform_content_stream bg combined_content in
      stream <- lift (new_stream modified_content) ;;
      set_Contents stream
  end.

(** [_process_page] *)
Definition _process_page : M unit := try_except process_page_body.

(** The loop of [process_pdf] over [self.pdf.pages]: the pages afterwards
    and the warnings printed, unless a call raises. *)
Fixpoint process_pages (pages : list Page) (printed : list exn)
  : result (list Page * list exn) :=
  match pages with
  | [] => Return ([], printed)
  | p :: pages' =>
      match _process_page (mk_state p printed) with
      | (_, Raise e) => Raise e
      | (st, Return _) =>
          match process_pages pages' (warnings st) with
          | Raise e => Raise e
          | Return (done, printed') => Return (page st :: done, printed')
          end
      end
  end.

(** [process_pdf]; only the loop is guarded, [Pdf.open] and [save] raise
    to the caller. *)
Definition process_pdf (input_bytes : string) : result string :=
  match pdf_open input_bytes with
  | Raise e => Raise e
  | Return pages =>
      match process_pages pages [] with
      | Raise e => Raise e
      | Return (pages', _) =>
          match pdf_save pages' with
          | Raise e => Raise e
          | Return output =>
              match pdf_close pages' with
              | Raise e => Raise e
              | Return _ => Return output
              end
          end
      end
  end.

End Processor.

(** The page as [_process_page] leaves it. *)
Definition page_after {L : PdfLibrary} (bg : rgb8) (p : Page) : Page :=
  page (fst (_process_page bg (mk_state p []))).

(** The background steps of [_process_page] succeed on [p] and leave [p']:
    the page has a media box of four numbers, the background is drawn and
    read back, [add_underlay] returns with the page changed to [p'], and the
    background document is closed. *)
Definition underlaid {L : PdfLibrary} (bg : rgb8) (p p' : Page) : Prop :=
  exists x0 y0 x1 y1 more doc bgp,
    MediaBox p = Some (x0 :: y0 :: x1 :: y1 :: more) /\
    _create_background_pdf bg (x1 - x0) (y1 - y0) = Return doc /\
    first_page doc = Return bgp /\
    add_underlay bgp (mk_Rectangle 0 0 (x1 - x0) (y1 - y0)) p = (p', Return tt) /\
    close doc = Return tt.

(** Rewriting the content [c] of a page raises [e]: reading a stream raises,
    or creating the stream for the rewritten content does. *)
Definition rewriting_raises {L : PdfLibrary} (bg : rgb8) (c : contents) (e : exn) : Prop :=
  read_contents c = Raise e \/
  exists all_content,
    read_contents c = Return all_content /\
    new_stream (_transform_content_stream bg (join_lines all_content)) = Raise e.

(** A computation that neither reads nor changes the warnings. *)
Definition ignores_warnings {A : Type} (m : M A) : Prop :=
  forall (p : Page) (printed : list exn),
    m (mk_state p printed)
    = (mk_state (page (fst (m (mk_state p [])))) printed, snd (m (mk_state p []))).

(** A library in which every call returns: the background document is its
    description, [add_underlay] records the rectangle among the entries of
    the page, a new stream holds the data it is given, and opening, saving
    and closing a document return. *)
Definition recording_library : PdfLibrary := {|
  bg_pdf := background;
  bg_page := background;
  render := fun b => Return b;
  first_page := fun doc => Return doc;
  close := fun _ => Return tt;
  add_underlay := fun _ r p =>
    (mk_Page (MediaBox p) (Contents p)
       (("Underlay", format_4f (urx r) ++ " " ++ format_4f (ury r))%string :: entries p),
     Return tt);
  new_stream := fun data => Return (Stream (Return data));
  pdf_open := fun _ => Return [];
  pdf_save := fun _ => Return ""%string;
  pdf_close := fun _ => Return tt
|}.

(** A letter-size page without content, and one whose content stream cannot
    be read. *)
Definition empty_page : Page := mk_Page (Some [0; 0; 612; 792]) None [].

Definition unreadable_page : Page :=
  mk_Page (Some [0; 0; 612; 792])
          (Some (ContentsObject (Stream (Raise (Exception "PdfError"))))) [].

Definition text_page (content : string) : Page :=
  mk_Page (Some [0; 0; 612; 792])
          (Some (ContentsObject (Stream (Return content)))) [].

Definition with_underlay (p : Page) : Page :=
  mk_Page (MediaBox p) (Contents p) (("Underlay", "612.0000 792.0000")%string :: entries p).

(** * Vocabulary of the statements about the rewriter *)

Fixpoint string_forall (f : ascii -> bool) (s : string) : bool :=
  match s with
  | String c s' => f c && string_forall f s'
  | EmptyString => true
  end.

(** How many characters an atom with quantifier [q] may take. *)
Definition quant_ok (q : quant) (n : nat) : Prop :=
  match q with
  | One => n = 1%nat
  | Opt => (n <= 1)%nat
  | Star => True
  | Plus => (1 <= n)%nat
  end.

(** The text an item may take: characters of its class, as many as its
    quantifier allows; a group bracket or an assertion takes none. *)
Definition item_ok (it : item) (seg : string) : Prop :=
  match it with
  | Atom cl q => string_forall (in_class cl) seg = true /\ quant_ok q (String.length seg)
  | _ => seg = ""%string
  end.

(** [segs] is the text of a pattern, item by item. *)
Definition regex_match (p : regex) (segs : list string) : Prop := Forall2 item_ok p segs.

(** One substitution pass from the outside, loosely: the output is the input
    with some texts of the pattern replaced, each by [repl] of its groups,
    and every other character copied.  Which texts are replaced is left
    open here. *)
Inductive rewrites (p : regex) (repl : list string -> string) : string -> string -> Prop :=
| rewrites_nil : rewrites p repl "" ""
| rewrites_copy (c : ascii) (s t : string) :
    rewrites p repl s t -> rewrites p repl (String c s) (String c t)
| rewrites_match (segs : list string) (s t : string) :
    regex_match p segs -> rewrites p repl s t ->
    rewrites p repl (matched_text segs ++ s) (repl (groups p segs) ++ t).

(** The six passes of [_transform_content_stream], in order. *)
Definition passes (bg : rgb8) : list (regex * (list string -> string)) :=
  [ (pattern_rg, fun m => _replace_rgb bg m "rg");
    (pattern_RG, fun m => _replace_rgb bg m "RG");
    (pattern_gray "g", fun m => _replace_gray bg m "g");
    (pattern_gray "G", fun m => _replace_gray bg m "G");
    (pattern_cmyk "k", fun m => _replace_cmyk bg m "k");
    (pattern_cmyk "K", fun m => _replace_cmyk bg m "K") ].

(** The text starts with one of the operators the patterns end in. *)
Definition starts_with_color_op (s : string) : bool :=
  match s with
  | String c s' =>
      Ascii.eqb c "g" || Ascii.eqb c "G" || Ascii.eqb c "k" || Ascii.eqb c "K"
      || (Ascii.eqb c "r" && match s' with String c' _ => Ascii.eqb c' "g" | _ => false end)
      || (Ascii.eqb c "R" && match s' with String c' _ => Ascii.eqb c' "G" | _ => false end)
  | EmptyString => false
  end.

(** Somewhere in the text a white-space character is directly followed by
    [rg], [RG], [g], [G], [k] or [K]. *)
Fixpoint color_op_after_space (s : string) : bool :=
  match s with
  | String c s' => (is_space c && starts_with_color_op s') || color_op_after_space s'
  | EmptyString => false
  end.

(** The pattern has an item that takes at least one character. *)
Definition takes_a_character (p : regex) : bool :=
  existsb (fun it => match it with
                     | Atom _ One | Atom _ Plus => true
                     | _ => false
                     end) p.

(** What a match of the rest of a pattern guarantees: the segments are a
    text of the pattern, and the input is that text and the rest. *)
Definition sound_from (p : regex) (k : option ascii -> string -> option outcome) : Prop :=
  forall prev s segs rest,
    k prev s = Some (segs, rest) ->
    regex_match p segs /\ s = (matched_text segs ++ rest)%string.

(** Every text of the pattern, whatever follows it, has white space directly
    followed by a colour operator. *)
Definition ends_in_color_op (p : regex) : Prop :=
  forall segs s, regex_match p segs ->
                 color_op_after_space (matched_text segs ++ s) = true.

(** A numeric operand as it is written: digits and dots, at least one. *)
Definition numeric_lexeme (o : string) : bool :=
  string_forall (fun c => is_digit c || Ascii.eqb c ".") o && negb (String.eqb o "").

Definition no_space (s : string) : bool := string_forall (fun c => negb (is_space c)) s.

(** The operands of an operator, each after one blank. *)
Fixpoint operands_text (operands : list string) (rest : string) : string :=
  match operands with
  | [] => rest
  | o :: operands' => (" " ++ o ++ operands_text operands' rest)%string
  end.

(** A content stream that selects the colour space [space] with [cs] (or
    [CS] when [stroking]) and sets a colour in it with [sc] (or [SC]). *)
Definition set_color_stream (stroking : bool) (space : string) (operands : list string)
  : string :=
  ("/" ++ space ++ (if stroking then " CS" else " cs")
   ++ operands_text operands (if stroking then " SC" else " sc"))%string.

(** * Vocabulary of further statements *)

(** Every component is at least 0. *)
Definition nonneg3 (p : Q * Q * Q) : Prop :=
  let '(p1, p2, p3) := p in 0 <= p1 /\ 0 <= p2 /\ 0 <= p3.

(** The largest component of a colour. *)
Definition largest (p : Q * Q * Q) : Q := let '(p1, p2, p3) := p in max3 p1 p2 p3.

(** The differences between the components of [p] are those of [q] scaled
    by [kappa]: the two colours have their components in the same order and
    in the same proportions. *)
Definition scaled_differences (kappa : Q) (p q : Q * Q * Q) : Prop :=
  let '(p1, p2, p3) := p in
  let '(q1, q2, q3) := q in
  p1 - p2 == kappa * (q1 - q2) /\ p2 - p3 == kappa * (q2 - q3).

(** The same without division: the differences of [p], times [d], are those
    of [q], times [c]. *)
Definition proportional (c d : Q) (p q : Q * Q * Q) : Prop :=
  let '(p1, p2, p3) := p in
  let '(q1, q2, q3) := q in
  (p1 - p2) * d == c * (q1 - q2) /\ (p2 - p3) * d == c * (q2 - q3).

(** The characters the rewriter may take out or put in: digits, white space,
    the dot, the minus sign and the letters of the six operators. *)
Definition rewritable (c : ascii) : bool :=
  is_digit c || is_space c
  || Ascii.eqb c "." || Ascii.eqb c "-"
  || Ascii.eqb c "r" || Ascii.eqb c "g" || Ascii.eqb c "R" || Ascii.eqb c "G"
  || Ascii.eqb c "k" || Ascii.eqb c "K".

(** The characters of [s] that satisfy [f], in order. *)
Fixpoint string_filter (f : ascii -> bool) (s : string) : string :=
  match s with
  | String c s' => if f c then String c (string_filter f s') else string_filter f s'
  | EmptyString => EmptyString
  end.

(** What is left of a stream without the rewritable characters: its names,
    its strings without their digits, the letters of its other operators. *)
Definition fixed_text (s : string) : string :=
  string_filter (fun c => negb (rewritable c)) s.

Definition class_rewritable (cl : cclass) : bool :=
  match cl with
  | Digit | Space => true
  | Lit c => rewritable c
  end.

Definition pattern_rewritable (p : regex) : bool :=
  forallb (fun it => match it with Atom cl _ => class_rewritable cl | _ => true end) p.

(** The value [round(q, 4)] the format [:.4f] prints. *)
Definition rounded_4 (q : Q) : Q := inject_Z (round_half_even (q * 10000)) / 10000.

(** ** Well-formed operators *)

(** The character before a position, after the text [s] was passed. *)
Fixpoint last_char (prev : option ascii) (s : string) : option ascii :=
  match s with
  | String c s' => last_char (Some c) s'
  | EmptyString => prev
  end.

(** A repetition of the class cannot go on into [s]. *)
Definition stops (cl : cclass) (s : string) : bool :=
  match s with
  | String c _ => negb (in_class cl c)
  | EmptyString => true
  end.

(** A run of white space, at least one character. *)
Definition is_spaces (w : string) : bool :=
  string_forall is_space w && negb (String.eqb w "").

Definition is_digits (s : string) : bool := string_forall is_digit s.

Fixpoint has_dot (s : string) : bool :=
  match s with
  | String c s' => Ascii.eqb c "." || has_dot s'
  | EmptyString => false
  end.

(** An unsigned decimal the RGB patterns take as one operand: digits with a
    dot before the last one or more of them, or digits alone. *)
Definition rg_lexeme (a : string) : bool :=
  if has_dot a
  then let '(i, f) := split_dot a in
       is_digits i && is_digits f && negb (String.eqb f "")
  else is_digits a && negb (String.eqb a "").

(** An unsigned decimal the gray and CMYK patterns take as one operand: one
    or more digits, then possibly a dot and more digits. *)
Definition gk_lexeme (a : string) : bool :=
  if has_dot a
  then let '(i, f) := split_dot a in
       is_digits i && negb (String.eqb i "") && is_digits f
  else is_digits a && negb (String.eqb a "").

(** Somewhere in the text a white-space character is directly followed by a
    text on which [starts] holds. *)
Fixpoint follows_space (starts : string -> bool) (s : string) : bool :=
  match s with
  | String c s' => (is_space c && starts s') || follows_space starts s'
  | EmptyString => false
  end.

(** Every text of the pattern, whatever follows it, has white space directly
    followed by a text on which [starts] holds. *)
Definition ends_in (starts : string -> bool) (p : regex) : Prop :=
  forall segs s, regex_match p segs ->
                 follows_space starts (matched_text segs ++ s) = true.

(** [starts] holds on no text that begins with a digit, a dot, a minus sign
    or white space. *)
Definition starts_with_letter (starts : string -> bool) : Prop :=
  starts ""%string = false /\
  forall c s, is_digit c || is_space c || Ascii.eqb c "." || Ascii.eqb c "-" = true ->
              starts (String c s) = false.

(** A character of a written number: a digit or the dot. *)
Definition numeric (c : ascii) : bool := is_digit c || Ascii.eqb c ".".

(** The last character of the text is of the class [f]. *)
Definition ends_in_class (f : ascii -> bool) (s : string) : bool :=
  match last_char None s with
  | Some c => f c
  | None => false
  end.

(** A white-space character of [x] is directly followed by a text on which
    [starts] holds, in [x] followed by [tail]. *)
Fixpoint space_before (starts : string -> bool) (x tail : string) : bool :=
  match x with
  | String c x' => (is_space c && starts (x' ++ tail)%string) || space_before starts x' tail
  | EmptyString => false
  end.

(** [k] operands, each followed by white space, then [tail]. *)
Fixpoint operands (number : regex) (k : nat) (tail : regex) : regex :=
  match k with
  | O => tail
  | S k' => (number ++ spaces ++ operands number k' tail)%list
  end.

(** The text of operands, each with the white space after it, then [t]. *)
Fixpoint operands_run (l : list (string * string)) (t : string) : string :=
  match l with
  | [] => t
  | (a, w) :: l' => (a ++ w ++ operands_run l' t)%string
  end.

Definition operand_ok (aw : string * string) : bool :=
  numeric_lexeme (fst aw) && is_spaces (snd aw).

(** A character that none of the six operators has. *)
Definition no_op_letter (c : ascii) : bool :=
  negb (Ascii.eqb c "g" || Ascii.eqb c "G" || Ascii.eqb c "k" || Ascii.eqb c "K"
        || Ascii.eqb c "r" || Ascii.eqb c "R").

(** The text [s] starts with the operator [op]. *)
Fixpoint starts_with (op s : string) : bool :=
  match op with
  | EmptyString => true
  | String a op' =>
      match s with
      | String b s' => Ascii.eqb b a && starts_with op' s'
      | EmptyString => false
      end
  end.

(** ** Pages and documents *)

(** A page without [/MediaBox] of its own. *)
Definition boxless_page (content : string) : Page :=
  mk_Page None (Some (ContentsObject (Stream (Return content)))) [].

(** The data of the content stream of a page, when it is a single readable
    stream. *)
Definition page_text (p : Page) : string :=
  match Contents p with
  | Some (ContentsObject (Stream (Return content_str))) => content_str
  | _ => ""%string
  end.

(** The recording library for a document of the given pages: opening
    returns them, saving returns the content of the pages, one per line. *)
Definition document_library (pages : list Page) : PdfLibrary := {|
  bg_pdf := background;
  bg_page := background;
  render := fun b => Return b;
  first_page := fun doc => Return doc;
  close := fun _ => Return tt;
  add_underlay := fun _ r p =>
    (mk_Page (MediaBox p) (Contents p)
       (("Underlay", format_4f (urx r) ++ " " ++ format_4f (ury r))%string :: entries p),
     Return tt);
  new_stream := fun data => Return (Stream (Return data));
  pdf_open := fun _ => Return pages;
  pdf_save := fun pages' => Return (join_lines (map page_text pages'));
  pdf_close := fun _ => Return tt
|}.

(** [add_underlay] leaves the media box of the page alone. *)
Definition underlay_keeps_MediaBox (L : PdfLibrary) : Prop :=
  forall (b : bg_page) (r : Rectangle) (p : Page),
    MediaBox (fst (add_underlay b r p)) = MediaBox p.

(** ** The API ([main.py]) *)

(** [valid_themes] of [convert_pdf] *)
Definition valid_themes : list string :=
  ["classic"; "claude"; "chatgpt"; "sepia"; "midnight"; "forest"]%string.

(** [theme not in valid_themes] is false *)
Definition theme_is_valid (theme : string) : bool :=
  existsb (String.eqb theme) valid_themes.

(** An entry of the list [get_themes] returns: id, name and background. *)
Record theme_entry : Type := mk_theme_entry {
  theme_id : string;
  theme_name : string;
  theme_background : rgb8
}.

(** [get_themes] *)
Definition get_themes : list theme_entry :=
  [ mk_theme_entry "classic" "True Black (Classic Inversion)" (mk_rgb8 0 0 0);
    mk_theme_entry "claude" "Claude Warm" (mk_rgb8 42 37 34);
    mk_theme_entry "chatgpt" "ChatGPT Cool" (mk_rgb8 52 53 65);
    mk_theme_entry "sepia" "Sepia Dark" (mk_rgb8 40 35 25);
    mk_theme_entry "midnight" "Midnight Blue" (mk_rgb8 25 30 45);
    mk_theme_entry "forest" "Forest Green" (mk_rgb8 25 35 30) ].

(** ** Band tests away from their thresholds

    The band tests of the mappers compare a sum the code computes in
    binary64 with a threshold.  For components of ordinary size the computed
    sum is within 1e-15 of the exact one, so away from a threshold by
    [band_margin] both are on the same side of it. *)
Definition band_margin : Q := 0.000000001.

(** ** Texts of a pattern at a place *)

(** [segs] is the text of the pattern, item by item, after the character
    [prev] and before the text [rest]: every item takes what [item_ok]
    allows, and a word boundary stands only where exactly one of the
    characters before and after it is a word character. *)
Fixpoint matches_at (p : regex) (prev : option ascii) (segs : list string) (rest : string)
  : Prop :=
  match p, segs with
  | [], [] => True
  | it :: p', seg :: segs' =>
      item_ok it seg
      /\ match it with
         | WordBoundary =>
             xorb (is_word_at prev)
                  (is_word_at (first_char (matched_text segs' ++ rest)%string)) = true
         | _ => True
         end
      /\ matches_at p' (last_char prev seg) segs' rest
  | _, _ => False
  end.

(** The pattern has a text at the start of [s], after the character [prev]. *)
Definition matches_here (p : regex) (prev : option ascii) (s : string) : Prop :=
  exists segs rest, matches_at p prev segs rest /\ s = (matched_text segs ++ rest)%string.

(** One substitution pass, exactly: from the left, a character is copied
    only where the pattern has no text, and where it has one, a text of the
    pattern is replaced by [repl] of its groups and the pass goes on after
    it. *)
Inductive replaces (p : regex) (repl : list string -> string)
  : option ascii -> string -> string -> Prop :=
| replaces_nil (prev : option ascii) : replaces p repl prev "" ""
| replaces_copy (prev : option ascii) (c : ascii) (s t : string) :
    ~ matches_here p prev (String c s) ->
    replaces p repl (Some c) s t ->
    replaces p repl prev (String c s) (String c t)
| replaces_match (prev : option ascii) (segs : list string) (rest t : string) :
    matches_at p prev segs rest ->
    matched_text segs <> ""%string ->
    replaces p repl (last_char prev (matched_text segs)) rest t ->
    replaces p repl prev (matched_text segs ++ rest) (repl (groups p segs) ++ t).

Inductive replaces_in_turn
  : list (regex * (list string -> string)) -> string -> string -> Prop :=
| replaces_in_turn_nil (s : string) : replaces_in_turn [] s s
| replaces_in_turn_cons p repl ps (s s1 t : string) :
    replaces p repl None s s1 -> replaces_in_turn ps s1 t ->
    replaces_in_turn ((p, repl) :: ps) s t.

(** What a match of the rest of a pattern guarantees, with the place. *)
Definition sound_at (p : regex) (k : option ascii -> string -> option outcome) : Prop :=
  forall prev s segs rest,
    k prev s = Some (segs, rest) ->
    matches_at p prev segs rest /\ s = (matched_text segs ++ rest)%string.

(** The matcher finds a text of the pattern wherever there is one. *)
Definition complete_at (p : regex) (k : option ascii -> string -> option outcome) : Prop :=
  forall prev segs rest,
    matches_at p prev segs rest -> k prev (matched_text segs ++ rest)%string <> None.

(** The character [b] is in no class of the pattern and is no word
    character: before it the pattern matches as before the end of the text. *)
Definition barrier (p : regex) (b : ascii) : bool :=
  negb (is_word b)
  && forallb (fun it => match it with
                        | Atom cl _ => negb (in_class cl b)
                        | _ => true
                        end) p.

(** The pattern takes a character before any word boundary: its matches do
    not depend on the character before them. *)
Fixpoint prev_free (p : regex) : bool :=
  match p with
  | [] => true
  | Atom _ One :: _ | Atom _ Plus :: _ => true
  | Atom _ _ :: p' => prev_free p'
  | GroupOpen :: p' | GroupClose :: p' => prev_free p'
  | WordBoundary :: _ => false
  end.

(** The match with the text [X] added after what it left. *)
Definition with_rest (X : string) (o : option outcome) : option outcome :=
  match o with
  | Some (segs, rest) => Some (segs, (rest ++ X)%string)
  | None => None
  end.

(** [a] is [b] with some characters left out. *)
Inductive subsequence : string -> string -> Prop :=
| subsequence_nil : subsequence "" ""
| subsequence_skip (c : ascii) (a b : string) :
    subsequence a b -> subsequence a (String c b)
| subsequence_take (c : ascii) (a b : string) :
    subsequence a b -> subsequence (String c a) (String c b).

(** ** Libraries *)

(** The data of the content streams of a page, when they can be read. *)
Definition page_texts (p : Page) : result (list string) :=
  match Contents p with
  | None => Return []
  | Some c => read_contents c
  end.

(** No page has a content stream that cannot be read. *)
Definition all_readable (pages : list Page) : bool :=
  forallb (fun p => match page_texts p with Return _ => true | Raise _ => false end) pages.

(** A library that writes the underlay into the content of the page, as
    pikepdf does: [add_underlay] reads the content streams of the page and
    leaves one stream, [fragment] (the commands that draw the background)
    and the data of the streams after it, one per line; it raises when a
    stream cannot be read.  Opening returns the given pages; saving returns
    the content of the pages, one per line, and raises when a stream cannot
    be read. *)
Definition coalescing_library (fragment : string) (pages : list Page) : PdfLibrary := {|
  bg_pdf := background;
  bg_page := background;
  render := fun b => Return b;
  first_page := fun doc => Return doc;
  close := fun _ => Return tt;
  add_underlay := fun _ r p =>
    match page_texts p with
    | Return texts =>
        (mk_Page (MediaBox p)
           (Some (ContentsObject (Stream (Return (join_lines (fragment :: texts))))))
           (("Underlay", format_4f (urx r) ++ " " ++ format_4f (ury r))%string :: entries p),
         Return tt)
    | Raise e => (p, Raise e)
    end;
  new_stream := fun data => Return (Stream (Return data));
  pdf_open := fun _ => Return pages;
  pdf_save := fun pages' =>
    if all_readable pages' then Return (join_lines (map page_text pages'))
    else Raise (Exception "PdfError");
  pdf_close := fun _ => Return tt
|}.

(** A library that leaves the content of the page alone in [add_underlay],
    as [recording_library] does, and whose [save] raises when a content
    stream cannot be read. *)
Definition strict_library (pages : list Page) : PdfLibrary := {|
  bg_pdf := background;
  bg_page := background;
  render := fun b => Return b;
  first_page := fun doc => Return doc;
  close := fun _ => Return tt;
  add_underlay := fun _ r p =>
    (mk_Page (MediaBox p) (Contents p)
       (("Underlay", format_4f (urx r) ++ " " ++ format_4f (ury r))%string :: entries p),
     Return tt);
  new_stream := fun data => Return (Stream (Return data));
  pdf_open := fun _ => Return pages;
  pdf_save := fun pages' =>
    if all_readable pages' then Return (join_lines (map page_text pages'))
    else Raise (Exception "PdfError");
  pdf_close := fun _ => Return tt
|}.

(** What [add_underlay] left in [/Contents] of a page that had none, and
    the page [q] this makes: either nothing, and [q] is the page as it is;
    or one stream with the commands of the underlay, which hold no colour
    operator, and [q] is the page with these commands in a new stream. *)
Definition only_underlay {L : PdfLibrary} (p' q : Page) : Prop :=
  (Contents p' = None /\ q = p') \/
  (exists fragment stream,
     Contents p' = Some (ContentsObject (Stream (Return fragment))) /\
     color_op_after_space fragment = false /\
     new_stream fragment = Return stream /\
     q = mk_Page (MediaBox p') (Some (ContentsObject stream)) (entries p')).

(** What [process_pdf] does with the pages the loop leaves: it returns what
    saving them returns, unless saving or closing raises. *)
Definition save_and_close {L : PdfLibrary} (pages' : list Page) : result string :=
  match pdf_save pages' with
  | Raise e => Raise e
  | Return output =>
      match pdf_close pages' with
      | Raise e => Raise e
      | Return _ => Return output
      end
  end.

(** The pattern has no text at any place of [s]. *)
Fixpoint quiet (p : regex) (s : string) : bool :=
  match match_items p None s with
  | Some _ => false
  | None =>
      match s with
      | String _ s' => quiet p s'
      | EmptyString => true
      end
  end.

(** * Properties of the colour mapper *)

(** ** Boolean tests and the floor *)

Lemma Qltb_lt a b : Qltb a b = true <-> a < b.
Proof.
  unfold Qltb. rewrite negb_true_iff, <- not_true_iff_false, Qle_bool_iff.
  split; [apply Qnot_le_lt | apply Qlt_not_le].
Qed.

Lemma Qltb_ge a b : Qltb a b = false <-> b <= a.
Proof.
  unfold Qltb. rewrite negb_false_iff. apply Qle_bool_iff.
Qed.

Lemma Qle_bool_gt a b : Qle_bool a b = false <-> b < a.
Proof.
  rewrite <- not_true_iff_false, Qle_bool_iff.
  split; [apply Qnot_le_lt | apply Qlt_not_le].
Qed.

Lemma Qeq_bool_false a b : Qeq_bool a b = false <-> ~ a == b.
Proof.
  rewrite <- not_true_iff_false, Qeq_bool_iff. tauto.
Qed.

(** Turn every boolean comparison in the context into its proposition. *)
Ltac reflect_tests :=
  repeat match goal with
  | H : _ && _ = true |- _ => apply andb_true_iff in H; destruct H
  | H : _ && _ = false |- _ => apply andb_false_iff in H
  | H : Qltb _ _ = true |- _ => apply Qltb_lt in H
  | H : Qltb _ _ = false |- _ => apply Qltb_ge in H
  | H : Qle_bool _ _ = true |- _ => apply Qle_bool_iff in H
  | H : Qle_bool _ _ = false |- _ => apply Qle_bool_gt in H
  | H : Qeq_bool _ _ = true |- _ => apply Qeq_bool_iff in H
  | H : Qeq_bool _ _ = false |- _ => apply Qeq_bool_false in H
  end.

Lemma Qfloor_unique (x : Q) (k : Z) :
  inject_Z k <= x -> x < inject_Z k + 1 -> Qfloor x = k.
Proof.
  intros Hlo Hhi.
  pose proof (Qfloor_le x) as Hf1. pose proof (Qlt_floor x) as Hf2.
  rewrite inject_Z_plus in Hf2. change (inject_Z 1) with 1 in Hf2.
  assert (H1 : inject_Z k < inject_Z (Qfloor x + 1)).
  { rewrite inject_Z_plus. change (inject_Z 1) with 1. lra. }
  assert (H2 : inject_Z (Qfloor x) < inject_Z (k + 1)).
  { rewrite inject_Z_plus. change (inject_Z 1) with 1. lra. }
  rewrite <- Zlt_Qlt in H1, H2. lia.
Qed.

Lemma pymod_shift (a b : Q) (k : Z) :
  0 < b -> inject_Z k * b <= a -> a < (inject_Z k + 1) * b ->
  pymod a b == a - inject_Z k * b.
Proof.
  intros Hb Hlo Hhi. unfold pymod.
  assert (Hk : Qfloor (a / b) = k).
  { apply Qfloor_unique.
    - apply Qle_shift_div_l; assumption.
    - apply Qlt_shift_div_r; assumption. }
  rewrite Hk. ring.
Qed.

Lemma pymod_range (a b : Q) : 0 < b -> 0 <= pymod a b /\ pymod a b < b.
Proof.
  intros Hb.
  assert (Hk : pymod a b == a - inject_Z (Qfloor (a / b)) * b).
  { unfold pymod. ring. }
  pose proof (Qfloor_le (a / b)) as Hlo. pose proof (Qlt_floor (a / b)) as Hhi.
  rewrite inject_Z_plus in Hhi. change (inject_Z 1) with 1 in Hhi.
  assert (Ha : a == (a / b) * b) by (field; lra).
  set (q := a / b) in *. set (f := inject_Z (Qfloor q)) in *.
  split; nra.
Qed.

(** ** The sextants of [_hsv_to_rgb] *)

Lemma hsv_to_rgb_sextant (h s v : Q) (k : Z) (t : Q) :
  (0 <= k <= 5)%Z -> h * 360 == 60 * (inject_Z k + t) -> 0 <= t -> t < 1 ->
  Qeq3 (_hsv_to_rgb h s v) (sextant_rgb k t (v * s) (v - v * s)).
Proof.
  intros Hk Hh Ht0 Ht1.
  assert (Hx : pymod (h * 360 / 60) 2 == inject_Z (k mod 2) + t).
  { assert (Ha : h * 360 / 60 == inject_Z k + t) by (rewrite Hh; field).
    rewrite (pymod_shift _ 2 (k / 2)).
    - rewrite Ha.
      assert (Hd : inject_Z k == inject_Z (2 * (k / 2) + k mod 2))
        by (rewrite <- Z.div_mod by lia; reflexivity).
      rewrite Hd, inject_Z_plus, inject_Z_mult. change (inject_Z 2) with 2. ring.
    - lra.
    - rewrite Ha. assert (k = 0 \/ k = 1 \/ k = 2 \/ k = 3 \/ k = 4 \/ k = 5)%Z as Hc by lia.
      destruct Hc as [-> | [-> | [-> | [-> | [-> | ->]]]]]; vm_compute (inject_Z _); lra.
    - rewrite Ha. assert (k = 0 \/ k = 1 \/ k = 2 \/ k = 3 \/ k = 4 \/ k = 5)%Z as Hc by lia.
      destruct Hc as [-> | [-> | [-> | [-> | [-> | ->]]]]]; vm_compute (inject_Z _); lra. }
  unfold _hsv_to_rgb.
  set (X := pymod (h * 360 / 60) 2) in *.
  assert (k = 0 \/ k = 1 \/ k = 2 \/ k = 3 \/ k = 4 \/ k = 5)%Z as Hc by lia.
  destruct Hc as [-> | [-> | [-> | [-> | [-> | ->]]]]];
    vm_compute (inject_Z _) in Hh, Hx;
    repeat match goal with
    | |- context [if ?c then _ else _] => destruct c eqn:?; reflect_tests; try lra
    | H : _ \/ _ |- _ => destruct H; reflect_tests; try lra
    end;
    unfold sextant_rgb, Qeq3; cbn [Z.even].
  all: try (assert (HA : Qabs (X - 1) == 1 - X) by (rewrite Qabs_neg; lra)).
  all: try (assert (HA : Qabs (X - 1) == X - 1) by (rewrite Qabs_pos; lra)).
  all: repeat split; rewrite ?HA, ?Hx; ring.
Qed.

(** Whatever the hue, a saturation in [0,1] and a value [v >= 0] give
    components between [v * (1 - s)] and [v]. *)
Lemma hsv_to_rgb_bounds (h s v : Q) :
  0 <= s -> s <= 1 -> 0 <= v ->
  let '(r, g, b) := _hsv_to_rgb h s v in
  (0 <= r /\ r <= v) /\ (0 <= g /\ g <= v) /\ (0 <= b /\ b <= v).
Proof.
  intros Hs0 Hs1 Hv. unfold _hsv_to_rgb.
  destruct (pymod_range (h * 360 / 60) 2) as [HX0 HX2]; [lra|].
  set (X := pymod (h * 360 / 60) 2) in *.
  assert (HA : 0 <= Qabs (X - 1) /\ Qabs (X - 1) <= 1).
  { split; [apply Qabs_nonneg | apply Qabs_Qle_condition; lra]. }
  set (A := Qabs (X - 1)) in *.
  assert (Hc : 0 <= v * s) by nra.
  assert (Hm : 0 <= v - v * s) by nra.
  assert (Hx : 0 <= v * s * (1 - A) /\ v * s * (1 - A) <= v * s) by (split; nra).
  set (c := v * s) in *. set (x := c * (1 - A)) in *.
  repeat match goal with
  | |- context [if ?c then _ else _] => destruct c
  end; repeat split; lra.
Qed.

(** ** [max] and [min] of three *)

Lemma max3_spec (r g b : Q) :
  (r <= max3 r g b /\ g <= max3 r g b /\ b <= max3 r g b) /\
  (max3 r g b == r \/ max3 r g b == g \/ max3 r g b == b).
Proof.
  unfold max3.
  destruct (Q.max_spec r g) as [[H1 H2] | [H1 H2]];
    destruct (Q.max_spec (Qmax r g) b) as [[H3 H4] | [H3 H4]];
    rewrite H4; rewrite ?H2 in *; split; try (repeat split; lra); tauto.
Qed.

Lemma min3_spec (r g b : Q) :
  (min3 r g b <= r /\ min3 r g b <= g /\ min3 r g b <= b) /\
  (min3 r g b == r \/ min3 r g b == g \/ min3 r g b == b).
Proof.
  unfold min3.
  destruct (Q.min_spec r g) as [[H1 H2] | [H1 H2]];
    destruct (Q.min_spec (Qmin r g) b) as [[H3 H4] | [H3 H4]];
    rewrite H4; rewrite ?H2 in *; split; try (repeat split; lra); tauto.
Qed.

(** ** Hue, saturation and value of a colour *)

Lemma hue_sextant (a s v : Q) (k j : Z) (t : Q) :
  (0 <= k <= 5)%Z -> 0 <= t -> t < 1 ->
  a == 60 * (inject_Z k + t) + 360 * inject_Z j ->
  Qeq3 (_hsv_to_rgb (pymod a 360 / 360) s v) (sextant_rgb k t (v * s) (v - v * s)).
Proof.
  intros Hk Ht0 Ht1 Ha.
  assert (Hk' : 0 <= inject_Z k /\ inject_Z k <= 5).
  { split; [change 0 with (inject_Z 0) | change 5 with (inject_Z 5)];
      rewrite <- Zle_Qle; lia. }
  apply hsv_to_rgb_sextant; try assumption.
  rewrite (pymod_shift a 360 j); [rewrite Ha; field | lra | lra | lra].
Qed.

(** The saturation and value [_rgb_to_hsv] returns: [v] is the largest
    component and [v * s] the spread between the largest and the smallest. *)
Lemma rgb_to_hsv_sv (r g b : Q) :
  0 <= min3 r g b ->
  let '(_, s, v) := _rgb_to_hsv r g b in
  v = max3 r g b /\ v * s == max3 r g b - min3 r g b /\ 0 <= s /\ s <= 1.
Proof.
  intros Hmin. unfold _rgb_to_hsv. cbv zeta.
  destruct (max3_spec r g b) as [(Hr & Hg & Hb) _].
  destruct (min3_spec r g b) as [(Hr' & Hg' & Hb') _].
  set (M := max3 r g b) in *. set (mn := min3 r g b) in *.
  split; [reflexivity|].
  destruct (Qeq_bool M 0) eqn:HM; reflect_tests.
  - repeat split; lra.
  - assert (HMpos : 0 < M) by (apply Qnot_le_lt; intros Hle; apply HM; lra).
    split; [field; assumption|].
    split; [apply Qle_shift_div_l | apply Qle_shift_div_r]; lra.
Qed.

(** Discharge the first premise of [H] with [tac]. *)
Tactic Notation "forward" hyp(H) tactic3(tac) :=
  match type of H with
  | ?A -> _ => let X := fresh in assert (X : A) by tac; specialize (H X); clear X
  end.

(** Replace the colour a sextant lemma describes by its three components. *)
Ltac use_sextant H :=
  match type of H with
  | Qeq3 ?p _ =>
      let r' := fresh "r'" in let g' := fresh "g'" in let b' := fresh "b'" in
      destruct p as [[r' g'] b']; unfold Qeq3, sextant_rgb in H; cbn [Z.even] in H;
      let H1 := fresh in let H2 := fresh in let H3 := fresh in
      destruct H as (H1 & H2 & H3); unfold Qeq3; rewrite H1, H2, H3; clear H1 H2 H3
  end.

Ltac hue_case H :=
  forward H ltac:(lia); forward H ltac:(nra); forward H ltac:(nra);
  forward H ltac:(vm_compute (inject_Z _); nra);
  use_sextant H.

(** ** Claim C9: HSV round trip

    For every RGB triple in [0,1]^3, [_rgb_to_hsv] followed by [_hsv_to_rgb]
    gives the triple back, component by component (exactly, in rational
    arithmetic): a band that left [s] and [v] alone would leave the colour
    alone. *)
Theorem hsv_round_trip (r g b : Q) :
  0 <= r <= 1 -> 0 <= g <= 1 -> 0 <= b <= 1 ->
  let '(h, s, v) := _rgb_to_hsv r g b in
  Qeq3 (_hsv_to_rgb h s v) (r, g, b).
Proof.
  intros Hr Hg Hb.
  destruct (max3_spec r g b) as [(HMr & HMg & HMb) HMc].
  destruct (min3_spec r g b) as [(Hmr & Hmg & Hmb) Hmc].
  assert (Hmin : 0 <= min3 r g b) by (destruct Hmc as [-> | [-> | ->]]; tauto).
  pose proof (rgb_to_hsv_sv r g b Hmin) as Hsv.
  unfold _rgb_to_hsv in *. cbv zeta in *. cbv beta iota.
  set (M := max3 r g b) in *. set (mn := min3 r g b) in *.
  set (s := if Qeq_bool M 0 then 0 else (M - mn) / M) in *.
  destruct Hsv as (_ & Hc & _).
  destruct (Qeq_bool (M - mn) 0) eqn:Hd; reflect_tests.
  - (* achromatic: hue 0 *)
    pose proof (hsv_to_rgb_sextant (0 / 360) s M 0 0) as HS.
    forward HS ltac:(lia); forward HS ltac:(field); forward HS ltac:(lra); forward HS ltac:(lra).
    use_sextant HS. rewrite Hc. repeat split; lra.
  - assert (Hdpos : 0 < M - mn) by (apply Qnot_le_lt; intros Hle; apply Hd; lra).
    destruct (Qeq_bool M r) eqn:HMr'; [| destruct (Qeq_bool M g) eqn:HMg']; reflect_tests.
    + (* red is the largest component *)
      set (t := (g - b) / (M - mn)).
      assert (Ht : t * (M - mn) == g - b) by (unfold t; field; lra).
      destruct (Qlt_le_dec g b) as [Hgb | Hgb].
      * pose proof (hue_sextant (60 * t + 360) s M 5 0 (t + 1)) as HS.
        hue_case HS.
        rewrite Hc. repeat split; destruct Hmc as [Hm | [Hm | Hm]]; nra.
      * destruct (Qlt_le_dec (g - b) (M - mn)) as [Hlt | Hge].
        -- pose proof (hue_sextant (60 * t + 360) s M 0 1 t) as HS.
           hue_case HS.
           rewrite Hc. repeat split; destruct Hmc as [Hm | [Hm | Hm]]; nra.
        -- pose proof (hue_sextant (60 * t + 360) s M 1 1 0) as HS.
           hue_case HS.
           rewrite Hc. repeat split; lra.
    + (* green is the largest component *)
      set (t := (b - r) / (M - mn)).
      assert (Ht : t * (M - mn) == b - r) by (unfold t; field; lra).
      assert (Hrlt : r < M) by (apply Qnot_le_lt; intros Hle; apply HMr'; lra).
      destruct (Qlt_le_dec b r) as [Hbr | Hbr].
      * pose proof (hue_sextant (60 * t + 120) s M 1 0 (t + 1)) as HS.
        hue_case HS.
        rewrite Hc. repeat split; destruct Hmc as [Hm | [Hm | Hm]]; nra.
      * destruct (Qlt_le_dec (b - r) (M - mn)) as [Hlt | Hge].
        -- pose proof (hue_sextant (60 * t + 120) s M 2 0 t) as HS.
           hue_case HS.
           rewrite Hc. repeat split; destruct Hmc as [Hm | [Hm | Hm]]; nra.
        -- pose proof (hue_sextant (60 * t + 120) s M 3 0 0) as HS.
           hue_case HS.
           rewrite Hc. repeat split; lra.
    + (* blue is the largest component *)
      set (t := (r - g) / (M - mn)).
      assert (Ht : t * (M - mn) == r - g) by (unfold t; field; lra).
      assert (Hrlt : r < M) by (apply Qnot_le_lt; intros Hle; apply HMr'; lra).
      assert (Hglt : g < M) by (apply Qnot_le_lt; intros Hle; apply HMg'; lra).
      assert (HMb' : M == b) by (destruct HMc as [Hm | [Hm | Hm]]; lra).
      destruct (Qlt_le_dec r g) as [Hrg | Hrg].
      * pose proof (hue_sextant (60 * t + 240) s M 3 0 (t + 1)) as HS.
        hue_case HS.
        rewrite Hc. repeat split; destruct Hmc as [Hm | [Hm | Hm]]; nra.
      * pose proof (hue_sextant (60 * t + 240) s M 4 0 t) as HS.
        hue_case HS.
        rewrite Hc. repeat split; destruct Hmc as [Hm | [Hm | Hm]]; nra.
Qed.

(** ** The theme table *)

Lemma dict_get_cases (d : list (string * rgb8)) (k : string) (default : rgb8) :
  dict_get d k default = default \/ In (dict_get d k default) (map snd d).
Proof.
  induction d as [| [k' v] d IH]; cbn; [left; reflexivity|].
  destruct (String.eqb k' k); [right; left; reflexivity|].
  destruct IH as [IH | IH]; [left | right; right]; assumption.
Qed.

Lemma bg_color_cases (theme : string) : In (bg_color theme) (map snd themes).
Proof.
  unfold bg_color. destruct (dict_get_cases themes theme (dict_get themes "classic" (mk_rgb8 0 0 0))) as [H | H].
  - rewrite H. cbn. left. reflexivity.
  - exact H.
Qed.

Lemma bg_normalized_unit (theme : string) : in_unit3 (bg_normalized (bg_color theme)).
Proof.
  pose proof (bg_color_cases theme) as H.
  set (bg := bg_color theme) in *. clearbody bg. cbn in H.
  repeat (destruct H as [<- | H]; [cbn; repeat split; apply Qle_bool_iff; reflexivity|]).
  destruct H.
Qed.

(** ** Sign of the mapper's output *)

Lemma Qeq3_within (eps : Q) (p q : Q * Q * Q) :
  0 <= eps -> Qeq3 p q -> within eps p q.
Proof.
  destruct p as [[p1 p2] p3], q as [[q1 q2] q3]. intros He (H1 & H2 & H3).
  unfold within. rewrite H1, H2, H3.
  repeat split; apply Qabs_Qle_condition; lra.
Qed.

Lemma transform_rgb_nonneg (theme : string) (r g b : Q) :
  0 <= r <= 1 -> 0 <= g <= 1 -> 0 <= b <= 1 ->
  let '(r', g', b') := _transform_rgb (bg_color theme) r g b in
  0 <= r' /\ 0 <= g' /\ 0 <= b'.
Proof.
  intros Hr Hg Hb. unfold _transform_rgb.
  destruct (Qltb 0.93 (brightness r g b)).
  { pose proof (bg_normalized_unit theme) as H.
    destruct (bg_normalized (bg_color theme)) as [[r' g'] b']. cbn in H. tauto. }
  destruct (min3_spec r g b) as [_ Hmc].
  assert (Hmin : 0 <= min3 r g b) by (destruct Hmc as [-> | [-> | ->]]; tauto).
  destruct (max3_spec r g b) as [(HMr & _) _].
  pose proof (rgb_to_hsv_sv r g b Hmin) as Hsv.
  destruct (_rgb_to_hsv r g b) as [[h s] v]. destruct Hsv as (-> & _ & Hs0 & Hs1).
  set (M := max3 r g b) in *.
  destruct (Qltb (brightness r g b) 0.15 && Qltb s 0.3); [repeat split; lra|].
  destruct (Qltb (brightness r g b) 0.15).
  { destruct (_hsv_to_rgb _ _ _) as [[r' g'] b'].
    repeat split; (apply Q.min_glb; [apply Q.le_max_r | lra]). }
  repeat match goal with
  | |- context [if ?c then _ else _] => destruct c
  end;
  match goal with
  | |- context [_hsv_to_rgb ?h ?s' ?v'] =>
      let H := fresh in
      assert (H : 0 <= s' /\ s' <= 1 /\ 0 <= v') by (repeat split; lra);
      destruct H as (H1 & H2 & H3);
      pose proof (hsv_to_rgb_bounds h s' v' H1 H2 H3) as HB;
      destruct (_hsv_to_rgb h s' v') as [[r' g'] b']; tauto
  end.
Qed.

(** ** CMYK *)

Lemma cmyk_to_rgb_unit (c m y k : Q) :
  0 <= c <= 1 -> 0 <= m <= 1 -> 0 <= y <= 1 -> 0 <= k <= 1 ->
  in_unit3 (cmyk_to_rgb c m y k).
Proof.
  intros Hc Hm Hy Hk. unfold cmyk_to_rgb, in_unit3. repeat split; nra.
Qed.

(** ** Claim C4: CMYK round trip

    For every CMYK input in [0,1]^4 and every theme, converting the output of
    [_transform_cmyk] back to RGB with R = (1-C)(1-K), G = (1-M)(1-K),
    B = (1-Y)(1-K) gives what [_transform_rgb] returns on the RGB conversion
    of the input, within 1e-6 in every component; and when the mapped RGB is
    black, (0,0,0), the output is the CMYK colour (0,0,0,1). *)
Theorem cmyk_round_trip (theme : string) (c m y k : Q) :
  0 <= c <= 1 -> 0 <= m <= 1 -> 0 <= y <= 1 -> 0 <= k <= 1 ->
  let '(c', m', y', k') := _transform_cmyk (bg_color theme) c m y k in
  let '(r, g, b) := cmyk_to_rgb c m y k in
  within 0.000001 (cmyk_to_rgb c' m' y' k') (_transform_rgb (bg_color theme) r g b) /\
  (Qeq3 (_transform_rgb (bg_color theme) r g b) (0, 0, 0) ->
   (c', m', y', k') = (0, 0, 0, 1)).
Proof.
  intros Hc Hm Hy Hk.
  pose proof (cmyk_to_rgb_unit c m y k Hc Hm Hy Hk) as Hu.
  unfold _transform_cmyk.
  destruct (cmyk_to_rgb c m y k) as [[r g] b]. unfold in_unit3 in Hu.
  destruct Hu as (Hr & Hg & Hb).
  pose proof (transform_rgb_nonneg theme r g b Hr Hg Hb) as Hn.
  destruct (_transform_rgb (bg_color theme) r g b) as [[R G] B].
  cbv beta iota in Hn. destruct Hn as (HR & HG & HB).
  destruct (Qeq_bool R 0 && Qeq_bool G 0 && Qeq_bool B 0) eqn:Hz.
  - reflect_tests. split; [|reflexivity].
    apply Qeq3_within; [lra|]. unfold cmyk_to_rgb, Qeq3. repeat split; lra.
  - assert (Hnz : ~ (R == 0 /\ G == 0 /\ B == 0)).
    { intros (H1 & H2 & H3). rewrite <- Qeq_bool_iff in H1, H2, H3.
      rewrite H1, H2, H3 in Hz. discriminate. }
    destruct (max3_spec R G B) as [(HMR & HMG & HMB) HMc].
    set (M := max3 R G B) in *.
    assert (HM : 0 < M).
    { apply Qnot_le_lt. intros Hle. apply Hnz. repeat split; lra. }
    destruct (Qltb (1 - M) 1) eqn:Hk'; reflect_tests; [|lra].
    split.
    + apply Qeq3_within; [lra|]. unfold cmyk_to_rgb, Qeq3. repeat split; field; lra.
    + intros H. exfalso. apply Hnz. exact H.
Qed.

(** * Properties of the rewriter *)

Section Strings.

Local Open Scope string_scope.

Lemma append_nil_r (s : string) : s ++ "" = s.
Proof. induction s as [| c s IH]; cbn; [reflexivity | rewrite IH; reflexivity]. Qed.

Lemma append_assoc (a b c : string) : (a ++ b) ++ c = a ++ (b ++ c).
Proof. induction a as [| x a IH]; cbn; [reflexivity | rewrite IH; reflexivity]. Qed.

Lemma length_append (a b : string) :
  String.length (a ++ b) = (String.length a + String.length b)%nat.
Proof. induction a as [| x a IH]; cbn; [reflexivity | rewrite IH; reflexivity]. Qed.

Lemma string_forall_append (f : ascii -> bool) (a b : string) :
  string_forall f (a ++ b) = string_forall f a && string_forall f b.
Proof.
  induction a as [| x a IH]; cbn; [reflexivity|].
  rewrite IH, andb_assoc. reflexivity.
Qed.

Lemma snoc_append (acc : string) (c : ascii) (s : string) :
  snoc acc c ++ s = acc ++ String c s.
Proof. unfold snoc. rewrite append_assoc. reflexivity. Qed.

End Strings.

(** ** The matcher only returns texts of the pattern *)

Section Soundness.

Local Open Scope string_scope.

Lemma consumed_some (seg : string) (r : option outcome) segs rest :
  consumed seg r = Some (segs, rest) ->
  exists segs', segs = seg :: segs' /\ r = Some (segs', rest).
Proof.
  destruct r as [[segs' rest'] |]; cbn; [|discriminate].
  intros H. injection H as <- <-. exists segs'. split; reflexivity.
Qed.

Lemma or_else_some (r alt : option outcome) (o : outcome) :
  or_else r alt = Some o -> r = Some o \/ alt = Some o.
Proof. destruct r; cbn; intros H; [left | right]; exact H. Qed.

Variable cl : cclass.
Variable p : regex.
Variable k : option ascii -> string -> option outcome.
Hypothesis k_sound : sound_from p k.

Lemma repeat_greedy_sound (s acc : string) prev segs rest :
  repeat_greedy cl k acc prev s = Some (segs, rest) ->
  exists more segs',
    segs = (acc ++ more) :: segs' /\
    string_forall (in_class cl) more = true /\
    regex_match p segs' /\ s = more ++ matched_text segs' ++ rest.
Proof.
  revert acc prev. induction s as [| c s IH]; intros acc prev H; cbn in H.
  - apply consumed_some in H. destruct H as (segs' & -> & Hk).
    apply k_sound in Hk. destruct Hk as [Hm Hs].
    exists "", segs'. rewrite append_nil_r. auto.
  - assert (Hstop : consumed acc (k prev (String c s)) = Some (segs, rest) ->
                    exists more segs',
                      segs = (acc ++ more) :: segs' /\
                      string_forall (in_class cl) more = true /\
                      regex_match p segs' /\
                      String c s = more ++ matched_text segs' ++ rest).
    { intros Hc. apply consumed_some in Hc. destruct Hc as (segs' & -> & Hk).
      apply k_sound in Hk. destruct Hk as [Hm Hs].
      exists "", segs'. rewrite append_nil_r. auto. }
    destruct (in_class cl c) eqn:Hcl; [|auto].
    apply or_else_some in H. destruct H as [H | H]; [|auto].
    apply IH in H. destruct H as (more & segs' & -> & Hall & Hm & ->).
    exists (String c more), segs'. rewrite snoc_append. cbn. rewrite Hcl, Hall. auto.
Qed.

Lemma match_atom_sound (q : quant) : sound_from (Atom cl q :: p) (match_atom cl k q).
Proof.
  intros prev s segs rest H.
  assert (Hone : forall c s',
    in_class cl c = true ->
    consumed (String c "") (k (Some c) s') = Some (segs, rest) ->
    quant_ok q 1 ->
    regex_match (Atom cl q :: p) segs /\ String c s' = matched_text segs ++ rest).
  { intros c s' Hcl Hc Hq. apply consumed_some in Hc. destruct Hc as (segs' & -> & Hk).
    apply k_sound in Hk. destruct Hk as [Hm ->].
    split; [|reflexivity]. constructor; [|exact Hm].
    cbn. rewrite Hcl. auto. }
  assert (Hnone : consumed "" (k prev s) = Some (segs, rest) ->
    quant_ok q 0 ->
    regex_match (Atom cl q :: p) segs /\ s = matched_text segs ++ rest).
  { intros Hc Hq. apply consumed_some in Hc. destruct Hc as (segs' & -> & Hk).
    apply k_sound in Hk. destruct Hk as [Hm ->].
    split; [|reflexivity]. constructor; [|exact Hm]. cbn. auto. }
  destruct q; cbn in H.
  - destruct s as [| c s']; [discriminate|].
    destruct (in_class cl c) eqn:Hcl; [|discriminate].
    apply (Hone c s'); cbn; auto.
  - destruct s as [| c s']; [apply Hnone; cbn; auto|].
    destruct (in_class cl c) eqn:Hcl; [|apply Hnone; cbn; auto].
    apply or_else_some in H. destruct H as [H | H];
      [apply (Hone c s') | apply Hnone]; cbn; auto.
  - apply repeat_greedy_sound in H.
    destruct H as (more & segs' & -> & Hall & Hm & ->).
    split; [|cbn; rewrite append_assoc; reflexivity].
    constructor; [|exact Hm]. cbn. auto.
  - destruct s as [| c s']; [discriminate|].
    destruct (in_class cl c) eqn:Hcl; [|discriminate].
    apply repeat_greedy_sound in H.
    destruct H as (more & segs' & -> & Hall & Hm & ->).
    split; [|cbn; rewrite append_assoc; reflexivity].
    constructor; [|exact Hm].
    cbn. rewrite Hcl, Hall. split; [reflexivity | lia].
Qed.

End Soundness.

Lemma match_items_sound (p : regex) : sound_from p (match_items p).
Proof.
  induction p as [| it p IH]; intros prev s segs rest H; cbn in H.
  - injection H as <- <-. split; [constructor | reflexivity].
  - destruct it as [cl q | | |].
    + exact (match_atom_sound cl p (match_items p) IH q prev s segs rest H).
    + apply consumed_some in H. destruct H as (segs' & -> & Hk).
      apply IH in Hk. destruct Hk as [Hm ->].
      split; [constructor; [reflexivity | exact Hm] | reflexivity].
    + apply consumed_some in H. destruct H as (segs' & -> & Hk).
      apply IH in Hk. destruct Hk as [Hm ->].
      split; [constructor; [reflexivity | exact Hm] | reflexivity].
    + destruct (xorb _ _); [|discriminate].
      apply consumed_some in H. destruct H as (segs' & -> & Hk).
      apply IH in Hk. destruct Hk as [Hm ->].
      split; [constructor; [reflexivity | exact Hm] | reflexivity].
Qed.

(** ** The matcher on some texts *)

Section MatcherExamples.

Local Open Scope string_scope.

Example rg_groups :
  option_map (fun o => groups pattern_rg (fst o))
             (match_items pattern_rg None "1 .5  0.25 rg rest")
  = Some ["1"; ".5"; "0.25"].
Proof. vm_compute. reflexivity. Qed.

(** The scan is not anchored: a match may start inside a number, or after
    a sign. *)
Example rg_inside_a_number :
  re_sub pattern_rg (fun m => "<>") "1.2.3 4 5 rg" = "1.<>".
Proof. vm_compute. reflexivity. Qed.

Example rg_after_a_sign :
  re_sub pattern_rg (fun m => "<>") "-1 0 0 rg" = "-<>".
Proof. vm_compute. reflexivity. Qed.

(** The RGB operand needs a digit after the dot, the gray operand one before. *)
Example rg_dot_without_digits :
  re_sub pattern_rg (fun m => "<>") "1. 2 3 rg" = "1. 2 3 rg".
Proof. vm_compute. reflexivity. Qed.

Example gray_dot_without_digits :
  re_sub (pattern_gray "g") (fun m => "<>") "1. g" = "<>".
Proof. vm_compute. reflexivity. Qed.

(** [\b] keeps [gs] apart from [g]; the RGB patterns have no [\b]. *)
Example gray_word_boundary :
  re_sub (pattern_gray "g") (fun m => "<>") "0.9 gs" = "0.9 gs".
Proof. vm_compute. reflexivity. Qed.

Example rg_without_word_boundary :
  re_sub pattern_rg (fun m => "<>") "1 1 1 rgb" = "<>b".
Proof. vm_compute. reflexivity. Qed.

Example float_lexemes : (float "12.5", float ".5", float "1.", float "007") = (12.5, 0.5, 1, 7).
Proof. vm_compute. reflexivity. Qed.

Example format_4f_values :
  (format_4f 0.98, format_4f (38153 # 255000), format_4f 1.43, format_4f 123456.789)
  = ("0.9800", "0.1496", "1.4300", "123456.7890").
Proof. vm_compute. reflexivity. Qed.

(** The scenarios of the specification the code agrees with. *)
Example white_text_classic :
  _transform_content_stream (bg_color "classic") "1 1 1 rg 72 720 Td (Hello) Tj"
  = "0.0000 0.0000 0.0000 rg 72 720 Td (Hello) Tj".
Proof. vm_compute. reflexivity. Qed.

Example black_text_classic :
  _transform_content_stream (bg_color "classic") "0 0 0 rg (Body) Tj"
  = "0.9800 0.9800 0.9800 rg (Body) Tj".
Proof. vm_compute. reflexivity. Qed.

Example white_cmyk_midnight :
  _transform_content_stream (bg_color "midnight") "0 0 0 0 k"
  = "0.4444 0.3333 0.0000 0.8235 k ".
Proof. vm_compute. reflexivity. Qed.

End MatcherExamples.

(** ** A substitution pass copies what it does not match *)

Section Passes.

Local Open Scope string_scope.

Lemma matched_text_nonempty (p : regex) (segs : list string) :
  takes_a_character p = true -> regex_match p segs ->
  (1 <= String.length (matched_text segs))%nat.
Proof.
  intros Hp Hm. induction Hm as [| it seg p segs Hit Hm IH]; [discriminate|].
  cbn [matched_text fold_right]. rewrite length_append.
  cbn in Hp. apply orb_true_iff in Hp. destruct Hp as [Hp | Hp].
  - destruct it as [cl [| | |] | | |]; try discriminate; cbn in Hit; lia.
  - specialize (IH Hp). unfold matched_text in IH. lia.
Qed.

Variable p : regex.
Variable repl : list string -> string.
Hypothesis p_takes : takes_a_character p = true.

(** Passing over the rest of a match. *)
Lemma sub_from_skip (m rest : string) (prev : option ascii) :
  exists prev',
    sub_from p repl prev (String.length m) (m ++ rest) = sub_from p repl prev' 0 rest.
Proof.
  revert prev. induction m as [| c m IH]; intros prev; cbn.
  - exists prev. reflexivity.
  - apply IH.
Qed.

Lemma sub_from_rewrites (n : nat) :
  forall (s : string) (prev : option ascii),
    (String.length s <= n)%nat -> rewrites p repl s (sub_from p repl prev 0 s).
Proof.
  induction n as [| n IH]; intros s prev Hn.
  - destruct s; [|cbn in Hn; lia]. cbn.
    destruct (match_items p prev "") as [[segs rest] |] eqn:Hm; [|constructor].
    apply match_items_sound in Hm. destruct Hm as [Hm Hs].
    apply (matched_text_nonempty p segs p_takes) in Hm.
    apply (f_equal String.length) in Hs. rewrite length_append in Hs. cbn in Hs. lia.
  - destruct s as [| c s].
    { apply (IH "" prev). cbn. lia. }
    cbn [sub_from].
    destruct (match_items p prev (String c s)) as [[segs rest] |] eqn:Hm.
    + apply match_items_sound in Hm. destruct Hm as [Hm Hs].
      pose proof (matched_text_nonempty p segs p_takes Hm) as Hlen.
      destruct (matched_text segs) as [| c' m] eqn:Htext; [cbn in Hlen; lia|].
      cbn [String.length]. cbn in Hs. injection Hs as -> ->.
      destruct (sub_from_skip m rest (Some c')) as [prev' ->].
      change (String c' (m ++ rest)) with (String c' m ++ rest).
      rewrite <- Htext. apply rewrites_match; [exact Hm|].
      apply IH. cbn in Hn. rewrite length_append in Hn. lia.
    + apply rewrites_copy. apply IH. cbn in Hn. lia.
Qed.

Lemma re_sub_rewrites (s : string) : rewrites p repl s (re_sub p repl s).
Proof. apply (sub_from_rewrites (String.length s)). lia. Qed.

End Passes.

(** ** Every match ends in white space and an operator *)

Section Operators.

Local Open Scope string_scope.

Lemma matched_text_app (l1 l2 : list string) :
  matched_text (l1 ++ l2) = matched_text l1 ++ matched_text l2.
Proof.
  induction l1 as [| seg l1 IH]; cbn; [reflexivity|].
  fold (matched_text (l1 ++ l2)). fold (matched_text l1).
  rewrite IH, append_assoc. reflexivity.
Qed.

Lemma color_op_after_space_append_r (a b : string) :
  color_op_after_space b = true -> color_op_after_space (a ++ b) = true.
Proof.
  intros Hb. induction a as [| c a IH]; cbn; [exact Hb|].
  rewrite IH. apply orb_true_r.
Qed.

Lemma color_op_after_space_suffix (a b : string) :
  color_op_after_space (a ++ b) = false -> color_op_after_space b = false.
Proof.
  intros H. destruct (color_op_after_space b) eqn:Hb; [|reflexivity].
  rewrite (color_op_after_space_append_r a b Hb) in H. discriminate.
Qed.

Lemma spaces_then_op (w t : string) :
  string_forall is_space w = true -> (1 <= String.length w)%nat ->
  starts_with_color_op t = true -> color_op_after_space (w ++ t) = true.
Proof.
  intros Hw Hlen Ht. induction w as [| c w IH]; [cbn in Hlen; lia|].
  cbn in Hw. apply andb_true_iff in Hw. destruct Hw as [Hc Hw].
  change (color_op_after_space (String c w ++ t))
    with ((is_space c && starts_with_color_op (w ++ t)) || color_op_after_space (w ++ t)).
  destruct w as [| c' w'].
  - cbn [append]. rewrite Hc, Ht. reflexivity.
  - rewrite IH; [apply orb_true_r | exact Hw | cbn; lia].
Qed.

(** A pattern that ends in [\s+] and an operator. *)
Lemma match_ends_in_op (front tail : regex) (segs : list string) (s : string) :
  regex_match (front ++ Atom Space Plus :: tail)%list segs ->
  (forall segs', regex_match tail segs' ->
                 starts_with_color_op (matched_text segs' ++ s) = true) ->
  color_op_after_space (matched_text segs ++ s) = true.
Proof.
  intros Hm Htail. apply Forall2_app_inv_l in Hm.
  destruct Hm as (l1 & l2 & _ & Hl2 & ->).
  inversion Hl2 as [| it w p' segs' Hw Hm']; subst.
  rewrite matched_text_app, append_assoc. apply color_op_after_space_append_r.
  cbn [matched_text fold_right]. fold (matched_text segs'). rewrite append_assoc.
  destruct Hw as [Hall Hlen].
  apply spaces_then_op; [exact Hall | exact Hlen | apply Htail; exact Hm'].
Qed.

Lemma literal_text (c : ascii) (seg : string) :
  item_ok (Atom (Lit c) One) seg -> seg = String c "".
Proof.
  intros [Hall Hlen]. destruct seg as [| c' [| c'' seg]]; try discriminate.
  cbn in Hall. rewrite andb_true_r in Hall. apply Ascii.eqb_eq in Hall.
  subst. reflexivity.
Qed.

Lemma two_letters_op (c1 c2 : ascii) (s : string) :
  starts_with_color_op (String c1 (String c2 s)) = true ->
  forall segs, regex_match [Atom (Lit c1) One; Atom (Lit c2) One] segs ->
               starts_with_color_op (matched_text segs ++ s) = true.
Proof.
  intros Hop segs Hm.
  inversion Hm as [| ? seg1 ? ? H1 Hm1]; subst.
  inversion Hm1 as [| ? seg2 ? ? H2 Hm2]; subst.
  inversion Hm2; subst.
  apply literal_text in H1, H2. subst. exact Hop.
Qed.

Lemma one_letter_op (c : ascii) (s : string) :
  starts_with_color_op (String c s) = true ->
  forall segs, regex_match [Atom (Lit c) One; WordBoundary] segs ->
               starts_with_color_op (matched_text segs ++ s) = true.
Proof.
  intros Hop segs Hm.
  inversion Hm as [| ? seg1 ? ? H1 Hm1]; subst.
  inversion Hm1 as [| ? seg2 ? ? H2 Hm2]; subst.
  inversion Hm2; subst.
  apply literal_text in H1. cbn in H2. subst. exact Hop.
Qed.

(** The six patterns. *)

Lemma pattern_rg_ends_in_op : ends_in_color_op pattern_rg.
Proof.
  intros segs s Hm.
  apply (match_ends_in_op (number_rg ++ spaces ++ number_rg ++ spaces ++ number_rg)%list
           [Atom (Lit "r") One; Atom (Lit "g") One]); [exact Hm|].
  apply two_letters_op. reflexivity.
Qed.

Lemma pattern_RG_ends_in_op : ends_in_color_op pattern_RG.
Proof.
  intros segs s Hm.
  apply (match_ends_in_op (number_rg ++ spaces ++ number_rg ++ spaces ++ number_rg)%list
           [Atom (Lit "R") One; Atom (Lit "G") One]); [exact Hm|].
  apply two_letters_op. reflexivity.
Qed.

Lemma pattern_gray_ends_in_op (operator : ascii) :
  (forall s, starts_with_color_op (String operator s) = true) ->
  ends_in_color_op (pattern_gray operator).
Proof.
  intros Hop segs s Hm.
  apply (match_ends_in_op number_gk [Atom (Lit operator) One; WordBoundary]);
    [exact Hm|].
  apply one_letter_op. apply Hop.
Qed.

Lemma pattern_cmyk_ends_in_op (operator : ascii) :
  (forall s, starts_with_color_op (String operator s) = true) ->
  ends_in_color_op (pattern_cmyk operator).
Proof.
  intros Hop segs s Hm.
  apply (match_ends_in_op
           (number_gk ++ spaces ++ number_gk ++ spaces ++ number_gk ++ spaces ++ number_gk)%list
           [Atom (Lit operator) One; WordBoundary]); [exact Hm|].
  apply one_letter_op. apply Hop.
Qed.

(** Without such an ending in the text a pass finds nothing to replace. *)
Lemma rewrites_nothing (p : regex) (repl : list string -> string) (s t : string) :
  ends_in_color_op p -> rewrites p repl s t ->
  color_op_after_space s = false -> t = s.
Proof.
  intros Hp Hr. induction Hr as [| c s t Hr IH | segs s t Hm Hr IH]; intros Hs.
  - reflexivity.
  - cbn in Hs. apply orb_false_iff in Hs. destruct Hs as [_ Hs].
    rewrite (IH Hs). reflexivity.
  - rewrite (Hp segs s Hm) in Hs. discriminate.
Qed.

Lemma re_sub_nothing (p : regex) (repl : list string -> string) (s : string) :
  takes_a_character p = true -> ends_in_color_op p ->
  color_op_after_space s = false -> re_sub p repl s = s.
Proof.
  intros Hp He Hs.
  apply (rewrites_nothing p repl s _ He (re_sub_rewrites p repl Hp s) Hs).
Qed.

Lemma transform_content_stream_nothing (bg : rgb8) (content : string) :
  color_op_after_space content = false ->
  _transform_content_stream bg content = content.
Proof.
  intros Hs. unfold _transform_content_stream.
  rewrite (re_sub_nothing pattern_rg); [| reflexivity | apply pattern_rg_ends_in_op | exact Hs].
  rewrite (re_sub_nothing pattern_RG); [| reflexivity | apply pattern_RG_ends_in_op | exact Hs].
  rewrite (re_sub_nothing (pattern_gray "g"));
    [| reflexivity | apply pattern_gray_ends_in_op; reflexivity | exact Hs].
  rewrite (re_sub_nothing (pattern_gray "G"));
    [| reflexivity | apply pattern_gray_ends_in_op; reflexivity | exact Hs].
  rewrite (re_sub_nothing (pattern_cmyk "k"));
    [| reflexivity | apply pattern_cmyk_ends_in_op; reflexivity | exact Hs].
  rewrite (re_sub_nothing (pattern_cmyk "K"));
    [| reflexivity | apply pattern_cmyk_ends_in_op; reflexivity | exact Hs].
  reflexivity.
Qed.

End Operators.

(** * Properties of the page loop *)

Section PageLoop.

Context {L : PdfLibrary}.
Variable bg : rgb8.

(** ** The warnings are only written by the [except] clause *)

Lemma ignores_ret {A : Type} (a : A) : ignores_warnings (ret a).
Proof. intros p printed. reflexivity. Qed.

Lemma ignores_raise {A : Type} (message : string) : ignores_warnings (@raise A message).
Proof. intros p printed. reflexivity. Qed.

Lemma ignores_lift {A : Type} (r : result A) : ignores_warnings (lift r).
Proof. intros p printed. reflexivity. Qed.

Lemma ignores_get_page : ignores_warnings get_page.
Proof. intros p printed. reflexivity. Qed.

Lemma ignores_on_page {A : Type} (f : Page -> Page * result A) :
  ignores_warnings (on_page f).
Proof. intros p printed. unfold on_page. cbn. destruct (f p). reflexivity. Qed.

Lemma ignores_get_MediaBox : ignores_warnings get_MediaBox.
Proof. intros p printed. unfold get_MediaBox. cbn. destruct (MediaBox p); reflexivity. Qed.

Lemma ignores_index (mediabox : list Q) (i : nat) : ignores_warnings (index mediabox i).
Proof. unfold index. destruct (nth_error mediabox i); [apply ignores_ret | apply ignores_raise]. Qed.

Lemma ignores_bind {A B : Type} (m : M A) (f : A -> M B) :
  ignores_warnings m -> (forall a, ignores_warnings (f a)) ->
  ignores_warnings (bind m f).
Proof.
  intros Hm Hf p printed. unfold bind.
  rewrite (Hm p printed). pose proof (Hm p []) as H0.
  destruct (m (mk_state p [])) as [[p1 w1] r]. cbn in H0 |- *.
  injection H0 as ->.
  destruct r as [a | e]; [apply Hf | reflexivity].
Qed.

Lemma ignores_set_Contents (o : pdf_object) : ignores_warnings (set_Contents o).
Proof. apply ignores_on_page. Qed.

Lemma ignores_process_page_body : ignores_warnings (process_page_body bg).
Proof.
  unfold process_page_body.
  repeat first
    [ apply ignores_bind; [|intros ?]
    | apply ignores_get_MediaBox | apply ignores_index | apply ignores_lift
    | apply ignores_on_page | apply ignores_get_page | apply ignores_ret
    | apply ignores_set_Contents
    | match goal with |- ignores_warnings (match ?x with _ => _ end) => destruct x end ].
Qed.

(** ** [_process_page] always returns *)

Lemma process_page_returns (st : state) : snd (_process_page bg st) = Return tt.
Proof.
  unfold _process_page, try_except.
  destruct (process_page_body bg st) as [st' [u | e]]; reflexivity.
Qed.

Lemma process_page_page (p : Page) (printed : list exn) :
  page (fst (_process_page bg (mk_state p printed))) = page_after bg p.
Proof.
  unfold page_after, _process_page, try_except.
  rewrite (ignores_process_page_body p printed).
  destruct (process_page_body bg (mk_state p [])) as [st' [u | e]]; reflexivity.
Qed.

(** ** The background steps *)

Lemma body_after_underlay (p p' : Page) (printed : list exn) :
  underlaid bg p p' ->
  process_page_body bg (mk_state p printed)
  = match Contents p' with
    | None => (mk_state p' printed, Return tt)
    | Some c =>
        match read_contents c with
        | Raise e => (mk_state p' printed, Raise e)
        | Return all_content =>
            match new_stream (_transform_content_stream bg (join_lines all_content)) with
            | Raise e => (mk_state p' printed, Raise e)
            | Return stream =>
                (mk_state (mk_Page (MediaBox p') (Some (ContentsObject stream)) (entries p'))
                          printed, Return tt)
            end
        end
    end.
Proof.
  intros (x0 & y0 & x1 & y1 & more & doc & bgp & Hbox & Hdoc & Hfirst & Hadd & Hclose).
  unfold process_page_body, bind, get_MediaBox, index, lift, on_page, get_page,
    set_Contents, ret.
  cbn -[_create_background_pdf _transform_content_stream]. rewrite Hbox.
  cbn -[_create_background_pdf _transform_content_stream]. rewrite Hdoc, Hfirst.
  cbn -[_create_background_pdf _transform_content_stream]. rewrite Hadd, Hclose.
  cbn -[_create_background_pdf _transform_content_stream].
  destruct (Contents p') as [c |]; [|reflexivity].
  destruct (read_contents c) as [all_content | e]; [|reflexivity].
  destruct (new_stream _) as [stream | e]; reflexivity.
Qed.

Lemma process_page_rewriting_raises (p p' : Page) (c : contents) (e : exn)
    (printed : list exn) :
  underlaid bg p p' -> Contents p' = Some c -> rewriting_raises bg c e ->
  _process_page bg (mk_state p printed) = (mk_state p' (printed ++ [e]), Return tt).
Proof.
  intros Hu Hc Hr. unfold _process_page, try_except.
  rewrite (body_after_underlay p p' printed Hu), Hc.
  destruct Hr as [Hr | (all_content & Hr & Hn)]; rewrite Hr; [reflexivity|].
  rewrite Hn. reflexivity.
Qed.

(** ** The loop *)

Lemma process_pages_all (pages : list Page) (printed : list exn) :
  exists printed',
    process_pages bg pages printed = Return (map (page_after bg) pages, printed').
Proof.
  revert printed. induction pages as [| p pages IH]; intros printed; cbn.
  - exists printed. reflexivity.
  - pose proof (process_page_returns (mk_state p printed)) as Hret.
    pose proof (process_page_page p printed) as Hpage.
    destruct (_process_page bg (mk_state p printed)) as [st r]. cbn in Hret, Hpage.
    subst r. destruct (IH (warnings st)) as [printed' ->].
    exists printed'. rewrite Hpage. reflexivity.
Qed.

End PageLoop.

(** ** Streams that set colours with [cs] and [sc] *)

Section SetColor.

Local Open Scope string_scope.

Lemma color_op_after_space_skip (t s : string) :
  no_space t = true -> color_op_after_space (t ++ s) = color_op_after_space s.
Proof.
  intros Ht. induction t as [| c t IH]; [reflexivity|].
  cbn in Ht. apply andb_true_iff in Ht. destruct Ht as [Hc Ht].
  cbn [append color_op_after_space].
  apply negb_true_iff in Hc. rewrite Hc, (IH Ht). reflexivity.
Qed.

Lemma digit_or_dot_facts (c : ascii) :
  is_digit c || Ascii.eqb c "." = true ->
  is_space c = false /\ forall s, starts_with_color_op (String c s) = false.
Proof.
  destruct c as [[] [] [] [] [] [] [] []]; cbn; intros H; try discriminate H;
    split; reflexivity.
Qed.

Lemma numeric_lexeme_facts (o : string) :
  numeric_lexeme o = true ->
  no_space o = true /\ forall s, starts_with_color_op (o ++ s) = false.
Proof.
  unfold numeric_lexeme. intros H. apply andb_true_iff in H. destruct H as [Hall Hne].
  split.
  - clear Hne. induction o as [| c o IH]; [reflexivity|].
    cbn in Hall. apply andb_true_iff in Hall. destruct Hall as [Hc Hall].
    unfold no_space. cbn. destruct (digit_or_dot_facts c Hc) as [-> _].
    exact (IH Hall).
  - destruct o as [| c o]; [discriminate|].
    cbn in Hall. apply andb_true_iff in Hall. destruct Hall as [Hc _].
    intros s. apply (digit_or_dot_facts c Hc).
Qed.

Lemma operands_text_no_op (operands : list string) (rest : string) :
  forallb numeric_lexeme operands = true ->
  color_op_after_space rest = false ->
  color_op_after_space (operands_text operands rest) = false.
Proof.
  intros Hops Hrest. induction operands as [| o operands IH]; [exact Hrest|].
  cbn in Hops. apply andb_true_iff in Hops. destruct Hops as [Ho Hops].
  destruct (numeric_lexeme_facts o Ho) as [Hns Hstart].
  cbn [operands_text].
  change (" " ++ o ++ operands_text operands rest)
    with (String " " (o ++ operands_text operands rest)).
  cbn [color_op_after_space]. rewrite Hstart, andb_false_r.
  rewrite (color_op_after_space_skip o _ Hns). exact (IH Hops).
Qed.

Lemma set_color_stream_no_op (stroking : bool) (space : string) (operands : list string) :
  no_space space = true -> forallb numeric_lexeme operands = true ->
  color_op_after_space (set_color_stream stroking space operands) = false.
Proof.
  intros Hspace Hops. unfold set_color_stream.
  change ("/" ++ space ++ ?x) with (String "/" (space ++ x)).
  cbn [color_op_after_space]. change (is_space "/") with false. cbn [andb orb].
  rewrite (color_op_after_space_skip space _ Hspace).
  destruct stroking.
  - change (" CS" ++ ?x) with (String " " ("CS" ++ x)).
    cbn [color_op_after_space]. rewrite (color_op_after_space_skip "CS" _ eq_refl).
    cbn [append starts_with_color_op]. change (Ascii.eqb "C" _) with false.
    cbn [andb orb]. rewrite andb_false_r. cbn [orb].
    apply operands_text_no_op; [exact Hops | reflexivity].
  - change (" cs" ++ ?x) with (String " " ("cs" ++ x)).
    cbn [color_op_after_space]. rewrite (color_op_after_space_skip "cs" _ eq_refl).
    cbn [append starts_with_color_op]. change (Ascii.eqb "c" _) with false.
    cbn [andb orb]. rewrite andb_false_r. cbn [orb].
    apply operands_text_no_op; [exact Hops | reflexivity].
Qed.

End SetColor.

(** * The claims *)

(** ** Claim C1: the theme background under the mapper *)

(** Claim C1 fails: under the classic theme the background (0,0,0) is not
    mapped to within 1/255 of itself; it is mapped to (0.98, 0.98, 0.98). *)
Lemma classic_background_not_fixed :
  ~ within (1 / 255) (map_background "classic") (bg_normalized (bg_color "classic")).
Proof.
  vm_compute. intros [H _]. apply H. reflexivity.
Qed.

(** Claim C1, amended: for every built-in theme, mapping the theme's own
    background through [_transform_rgb] brightens it: every component of
    the result exceeds the same component of the background by more than
    1/255. *)
Theorem background_is_brightened (name : string) :
  In name theme_names ->
  brightened_by (1 / 255) (map_background name) (bg_normalized (bg_color name)).
Proof.
  intros H. cbn in H.
  repeat (destruct H as [<- | H]; [vm_compute; repeat split; reflexivity|]).
  destruct H.
Qed.

Lemma background_is_brightened_claude :
  In "claude"%string theme_names /\
  brightened_by (1 / 255) (map_background "claude") (bg_normalized (bg_color "claude")).
Proof.
  split; [cbn; tauto | apply (background_is_brightened "claude"); cbn; tauto].
Defined.

(** ** Claim C2: near-white collapse *)

(** Claim C2: for every theme of the table, with background (R, G, B), and
    every RGB input in [0,1]^3 whose luminance 0.299 r + 0.587 g + 0.114 b
    is above 0.93, [_transform_rgb] returns exactly (R / 255, G / 255,
    B / 255), the background of the theme normalised to [0,1]: each of the
    three components lies in [0,1]. *)
Theorem near_white_collapse (theme : string) (R G B : Z) (r g b : Q) :
  In (theme, mk_rgb8 R G B) themes ->
  0 <= r <= 1 -> 0 <= g <= 1 -> 0 <= b <= 1 ->
  0.93 < 0.299 * r + 0.587 * g + 0.114 * b ->
  (_transform_rgb (bg_color theme) r g b
   = (inject_Z R / 255, inject_Z G / 255, inject_Z B / 255))
  /\ in_unit3 (inject_Z R / 255, inject_Z G / 255, inject_Z B / 255).
Proof.
  intros Hin _ _ _ HY.
  assert (Hbg : bg_color theme = mk_rgb8 R G B).
  { cbn in Hin.
    repeat (destruct Hin as [Hin | Hin]; [injection Hin as <- <- <- <-; reflexivity|]).
    destruct Hin. }
  split.
  - unfold _transform_rgb. apply Qltb_lt in HY. unfold brightness. rewrite HY, Hbg.
    reflexivity.
  - pose proof (bg_normalized_unit theme) as H. rewrite Hbg in H. exact H.
Qed.

Lemma near_white_collapse_white :
  (In ("midnight"%string, mk_rgb8 25 30 45) themes) /\
  (0 <= 1 <= 1) /\ (0.93 < 0.299 * 1 + 0.587 * 1 + 0.114 * 1) /\
  (_transform_rgb (bg_color "midnight") 1 1 1
   = (inject_Z 25 / 255, inject_Z 30 / 255, inject_Z 45 / 255)) /\
  in_unit3 (inject_Z 25 / 255, inject_Z 30 / 255, inject_Z 45 / 255).
Proof.
  split; [cbn; tauto|]. split; [split; lra|]. split; [reflexivity|].
  apply (near_white_collapse "midnight" 25 30 45 1 1 1);
    [cbn; tauto | split; lra | split; lra | split; lra | reflexivity].
Defined.

(** The mapper of [pdf_processor.py] collapses above 0.95 only. *)
Lemma sibling_near_white_collapse (bg : rgb8) (r g b : Q) :
  0.95 < 0.299 * r + 0.587 * g + 0.114 * b ->
  PDFVectorProcessor._transform_rgb bg r g b = bg_normalized bg.
Proof.
  intros HY. unfold PDFVectorProcessor._transform_rgb.
  apply Qltb_lt in HY. unfold brightness. rewrite HY. reflexivity.
Qed.

Lemma sibling_keeps_light_gray :
  0.93 < brightness 0.94 0.94 0.94 /\
  Qeq3 (PDFVectorProcessor._transform_rgb (bg_color "classic") 0.94 0.94 0.94)
       (0.976, 0.976, 0.976).
Proof.
  split; [reflexivity | vm_compute; repeat split; reflexivity].
Qed.

(** ** Claim C5: range of the mapper's output *)

(** Claim C5 fails at pure red: (1, 0, 0) has luminance 0.299, the band
    [brightness < 0.4] returns [_hsv_to_rgb] of its remap without the clamp
    of the band before it, and the red component is 1.43. *)
Theorem dark_band_exceeds_one :
  Qeq3 (_transform_rgb (bg_color "classic") 1 0 0) (1.43, 0.2145, 0.2145) /\
  ~ in_unit3 (_transform_rgb (bg_color "classic") 1 0 0).
Proof.
  split; [vm_compute; repeat split; reflexivity|].
  vm_compute. intros [[_ H] _]. apply H. reflexivity.
Qed.

(** The band [brightness < 0.6] does the same: (1, 0.3, 0) gives 1.25. *)
Lemma medium_band_exceeds_one :
  Qeq3 (_transform_rgb (bg_color "classic") 1 0.3 0) (1.25, 0.4625, 0.125).
Proof.
  vm_compute. repeat split; reflexivity.
Qed.

(** ** Claim C8: the gray 0.9 under the claude theme *)

(** Claim C8 fails: 0.9 is not above 0.93, and the gray mapper does not
    return the luminance of the theme background for it. *)
Lemma gray_09_is_not_near_white :
  ~ _transform_grayscale (bg_color "claude") 0.9
    == (0.299 * 42 + 0.587 * 37 + 0.114 * 34) / 255.
Proof.
  vm_compute. discriminate.
Qed.

(** Claim C8, amended: for the gray input 0.9 under the claude theme the gray
    mapper returns 0.95 = 0.5 + 0.9 * 0.5, the last band, and the stream
    [0.9 g 0 0 100 100 re f] becomes [0.9500 g  0 0 100 100 re f]; the
    near-white band starts above 0.93, and there, as at 0.95, the mapper
    returns the luminance 38.153 / 255 of the background (42,37,34), which
    is printed as 0.1496. *)
Theorem gray_09_claude :
  _transform_grayscale (bg_color "claude") 0.9 == 0.95 /\
  _transform_content_stream (bg_color "claude") "0.9 g 0 0 100 100 re f"
  = "0.9500 g  0 0 100 100 re f"%string /\
  _transform_grayscale (bg_color "claude") 0.95
  == (0.299 * 42 + 0.587 * 37 + 0.114 * 34) / 255 /\
  format_4f (_transform_grayscale (bg_color "claude") 0.95) = "0.1496"%string.
Proof.
  repeat split; vm_compute; reflexivity.
Qed.

(** ** Claim C9 at a green *)

Lemma hsv_round_trip_green :
  (0 <= 0.2 <= 1) /\ (0 <= 0.7 <= 1) /\ (0 <= 0.4 <= 1) /\
  (let '(h, s, v) := _rgb_to_hsv 0.2 0.7 0.4 in
   Qeq3 (_hsv_to_rgb h s v) (0.2, 0.7, 0.4)).
Proof.
  split; [split; lra|]. split; [split; lra|]. split; [split; lra|].
  apply (hsv_round_trip 0.2 0.7 0.4); split; lra.
Defined.

(** ** Claim C4 at white paper *)

Lemma cmyk_round_trip_paper :
  (0 <= 0 <= 1) /\
  (let '(c', m', y', k') := _transform_cmyk (bg_color "midnight") 0 0 0 0 in
   let '(r, g, b) := cmyk_to_rgb 0 0 0 0 in
   within 0.000001 (cmyk_to_rgb c' m' y' k') (_transform_rgb (bg_color "midnight") r g b) /\
   (Qeq3 (_transform_rgb (bg_color "midnight") r g b) (0, 0, 0) ->
    (c', m', y', k') = (0, 0, 0, 1))).
Proof.
  split; [split; lra|].
  apply (cmyk_round_trip "midnight" 0 0 0 0); split; lra.
Defined.

(** ** Claim C3: a string literal *)

(** Claim C3 fails: the stream [(0 0 0 rg) Tj] holds one string literal and
    the operator [Tj], no colour operator, and the rewriter changes the text
    of the literal. *)
Lemma string_literal_is_rewritten :
  _transform_content_stream (bg_color "classic") "(0 0 0 rg) Tj"
  = "(0.9800 0.9800 0.9800 rg) Tj"%string /\
  _transform_content_stream (bg_color "classic") "(0 0 0 rg) Tj"
  <> "(0 0 0 rg) Tj"%string.
Proof.
  split; [vm_compute; reflexivity|].
  apply String.eqb_neq. vm_compute. reflexivity.
Qed.

(** ** Claim C6: [sc] and [SC] *)


(** * Further properties of the colour mapper *)

(** ** Themes *)

Lemma dict_get_missing (d : list (string * rgb8)) (k : string) (default : rgb8) :
  ~ In k (map fst d) -> dict_get d k default = default.
Proof.
  induction d as [| [k' v] d IH]; cbn; intros H; [reflexivity|].
  destruct (String.eqb_spec k' k) as [-> | Hne]; [exfalso; apply H; left; reflexivity|].
  apply IH. intros Hin. apply H. right. exact Hin.
Qed.

(** A theme name that is not in the table, whatever it is, selects the
    classic background (0, 0, 0); no error is raised. *)
Theorem unknown_theme_is_classic (theme : string) :
  ~ In theme theme_names -> bg_color theme = mk_rgb8 0 0 0.
Proof.
  intros H. unfold bg_color. rewrite (dict_get_missing themes theme _ H). reflexivity.
Qed.

Lemma unknown_theme_is_classic_capitalised :
  ~ In "Claude"%string theme_names /\ bg_color "Claude" = mk_rgb8 0 0 0.
Proof.
  assert (H : ~ In "Claude"%string theme_names).
  { cbn. intros H. repeat (destruct H as [H | H]; [discriminate H|]). exact H. }
  split; [exact H | apply (unknown_theme_is_classic "Claude" H)].
Defined.

(** ** The gray mapper *)

Lemma bg_gray_dark (theme : string) :
  let bg := bg_color theme in
  0 <= (0.299 * inject_Z (bg_r bg) + 0.587 * inject_Z (bg_g bg)
        + 0.114 * inject_Z (bg_b bg)) / 255
  /\ (0.299 * inject_Z (bg_r bg) + 0.587 * inject_Z (bg_g bg)
      + 0.114 * inject_Z (bg_b bg)) / 255 < 0.22.
Proof.
  pose proof (bg_color_cases theme) as H.
  set (bg := bg_color theme) in *. clearbody bg. cbn in H.
  repeat (destruct H as [<- | H]; [cbn; split; [apply Qle_bool_iff | ]; reflexivity|]).
  destruct H.
Qed.

(** For every theme and every gray level whatsoever, the gray mapper returns
    a level in [0,1]. *)
Theorem transform_grayscale_in_unit (theme : string) (gray : Q) :
  0 <= _transform_grayscale (bg_color theme) gray /\
  _transform_grayscale (bg_color theme) gray <= 1.
Proof.
  pose proof (bg_gray_dark theme) as Hbg. cbv zeta in Hbg.
  unfold _transform_grayscale.
  repeat match goal with
  | |- context [if ?c then _ else _] => destruct c eqn:?
  end; reflect_tests; split; lra.
Qed.

(** The gray mapper inverts the polarity of a page: for every theme, a
    near-white level (above 0.93) comes out darker than 0.22, every other
    level comes out at 0.65 or brighter. *)
Theorem transform_grayscale_polarity (theme : string) (light dark : Q) :
  0.93 < light -> dark <= 0.93 ->
  _transform_grayscale (bg_color theme) light < 0.22 /\
  0.65 <= _transform_grayscale (bg_color theme) dark.
Proof.
  intros Hl Hd. pose proof (bg_gray_dark theme) as Hbg. cbv zeta in Hbg.
  unfold _transform_grayscale.
  apply Qltb_lt in Hl. rewrite Hl.
  split; [tauto|].
  repeat match goal with
  | |- context [if ?c then _ else _] => destruct c eqn:?
  end; reflect_tests; lra.
Qed.

Lemma transform_grayscale_polarity_paper_and_ink :
  0.93 < 1 /\ 0 <= 0.93 /\
  _transform_grayscale (bg_color "sepia") 1 < 0.22 /\
  0.65 <= _transform_grayscale (bg_color "sepia") 0.
Proof.
  split; [reflexivity|]. split; [discriminate|].
  apply (transform_grayscale_polarity "sepia" 1 0); [reflexivity | discriminate].
Defined.

(** ** The RGB mapper, band by band *)

Lemma brightness_le_max (r g b : Q) : brightness r g b <= max3 r g b.
Proof.
  destruct (max3_spec r g b) as [(Hr & Hg & Hb) _]. unfold brightness. lra.
Qed.

Lemma max3_unique (a b c v : Q) :
  a <= v -> b <= v -> c <= v -> (a == v \/ b == v \/ c == v) -> max3 a b c == v.
Proof.
  intros Ha Hb Hc Hv.
  destruct (max3_spec a b c) as [(Ha' & Hb' & Hc') Hm].
  destruct Hm as [Hm | [Hm | Hm]]; destruct Hv as [Hv | [Hv | Hv]]; lra.
Qed.

(** One component of [_hsv_to_rgb h s v] is [v], and none is larger. *)
Lemma hsv_to_rgb_largest (h s v : Q) :
  0 <= s -> s <= 1 -> 0 <= v -> largest (_hsv_to_rgb h s v) == v.
Proof.
  intros Hs0 Hs1 Hv.
  pose proof (hsv_to_rgb_bounds h s v Hs0 Hs1 Hv) as Hb.
  assert (Hone : let '(r, g, b) := _hsv_to_rgb h s v in r == v \/ g == v \/ b == v).
  { unfold _hsv_to_rgb.
    repeat match goal with
    | |- context [if ?c then _ else _] => destruct c
    end; cbv beta iota; first [left; ring | right; left; ring | right; right; ring]. }
  destruct (_hsv_to_rgb h s v) as [[r g] b]. cbn [largest].
  apply max3_unique; tauto.
Qed.

(** What [_rgb_to_hsv] returns for a colour without negative component. *)
Lemma rgb_to_hsv_range (r g b : Q) :
  0 <= r -> 0 <= g -> 0 <= b ->
  let '(_, s, v) := _rgb_to_hsv r g b in
  v = max3 r g b /\ 0 <= s /\ s <= 1 /\ 0 <= v /\ brightness r g b <= v.
Proof.
  intros Hr Hg Hb.
  destruct (min3_spec r g b) as [_ Hmc].
  assert (Hmin : 0 <= min3 r g b) by (destruct Hmc as [-> | [-> | ->]]; assumption).
  pose proof (rgb_to_hsv_sv r g b Hmin) as Hsv.
  pose proof (brightness_le_max r g b) as HY.
  destruct (max3_spec r g b) as [(HMr & _) _].
  destruct (_rgb_to_hsv r g b) as [[h s] v].
  destruct Hsv as (-> & _ & Hs0 & Hs1). repeat split; try assumption. lra.
Qed.

Lemma clamp_unit (x : Q) : 0 <= Qmin (Qmax x 0) 1 /\ Qmin (Qmax x 0) 1 <= 1.
Proof.
  split; [apply Q.min_glb; [apply Q.le_max_r | lra] | apply Q.le_min_r].
Qed.

Lemma clamp_keeps (x lo : Q) : lo <= x -> 0 <= lo -> lo <= 1 -> lo <= Qmin (Qmax x 0) 1.
Proof.
  intros Hx H0 H1. apply Q.min_glb; [|exact H1].
  apply Qle_trans with x; [exact Hx | apply Q.le_max_l].
Qed.

(** With the brightness as the exact sum: for every colour without negative
    component, so for every operand the
    patterns can capture, no component of the mapped colour is negative; and
    outside the two bands [0.15 <= brightness < 0.6], which return an HSV
    remap as it is, every component lies in [0,1]. *)
Lemma transform_rgb_range_exact (theme : string) (r g b : Q) :
  0 <= r -> 0 <= g -> 0 <= b ->
  nonneg3 (_transform_rgb (bg_color theme) r g b) /\
  (r <= 1 -> g <= 1 -> b <= 1 ->
   brightness r g b < 0.15 \/ 0.6 <= brightness r g b ->
   in_unit3 (_transform_rgb (bg_color theme) r g b)).
Proof.
  intros Hr Hg Hb. unfold _transform_rgb.
  destruct (Qltb 0.93 (brightness r g b)) eqn:Hw.
  { pose proof (bg_normalized_unit theme) as H.
    destruct (bg_normalized (bg_color theme)) as [[r' g'] b'].
    cbn [nonneg3 in_unit3] in H |- *. tauto. }
  pose proof (rgb_to_hsv_range r g b Hr Hg Hb) as Hsv.
  destruct (max3_spec r g b) as [_ HMc].
  destruct (_rgb_to_hsv r g b) as [[h s] v].
  destruct Hsv as (HvM & Hs0 & Hs1 & Hv & HY).
  assert (Hv1 : r <= 1 -> g <= 1 -> b <= 1 -> v <= 1).
  { intros. rewrite HvM. destruct HMc as [-> | [-> | ->]]; assumption. }
  clear HvM HMc.
  destruct (Qltb (brightness r g b) 0.15 && Qltb s 0.3) eqn:H1.
  { cbn [nonneg3 in_unit3]. repeat split; lra. }
  destruct (Qltb (brightness r g b) 0.15) eqn:H2.
  { destruct (_hsv_to_rgb _ _ _) as [[r' g'] b']. cbn [nonneg3 in_unit3].
    pose proof (clamp_unit r'). pose proof (clamp_unit g'). pose proof (clamp_unit b').
    tauto. }
  reflect_tests.
  repeat match goal with
  | |- context [if ?c then _ else _] => destruct c eqn:?
  end; reflect_tests;
  match goal with
  | |- context [_hsv_to_rgb ?h ?s' ?v'] =>
      let H := fresh in
      assert (H : 0 <= s' /\ s' <= 1 /\ 0 <= v') by (repeat split; lra);
      destruct H as (Hs0' & Hs1' & Hv');
      pose proof (hsv_to_rgb_bounds h s' v' Hs0' Hs1' Hv') as HB;
      destruct (_hsv_to_rgb h s' v') as [[r' g'] b']; cbn [nonneg3 in_unit3]
  end.
  - split; [tauto | intros _ _ _ [Hc | Hc]; exfalso; clear H1; lra].
  - split; [tauto | intros _ _ _ [Hc | Hc]; exfalso; clear H1; lra].
  - split; [tauto|]. intros H1r H1g H1b _. specialize (Hv1 H1r H1g H1b).
    repeat split; lra.
Qed.

(** With the brightness as the exact sum, every colour that is not
    near-white is brightened: when the brightness
    is at most 0.93, the largest component of the mapped colour is 0.65 or
    more. *)
Lemma transform_rgb_brightens_exact (bg : rgb8) (r g b : Q) :
  0 <= r -> 0 <= g -> 0 <= b -> brightness r g b <= 0.93 ->
  0.65 <= largest (_transform_rgb bg r g b).
Proof.
  intros Hr Hg Hb HY93. unfold _transform_rgb.
  apply Qltb_ge in HY93. rewrite HY93. apply Qltb_ge in HY93.
  pose proof (rgb_to_hsv_range r g b Hr Hg Hb) as Hsv.
  destruct (_rgb_to_hsv r g b) as [[h s] v].
  destruct Hsv as (_ & Hs0 & Hs1 & Hv & HY).
  destruct (Qltb (brightness r g b) 0.15 && Qltb s 0.3) eqn:H1.
  { vm_compute. discriminate. }
  destruct (Qltb (brightness r g b) 0.15) eqn:H2.
  { set (v' := 0.65 + v / 0.15 * 0.2). set (s' := Qmin (s * 1.1) 1).
    assert (Hs' : 0 <= s' /\ s' <= 1).
    { split; [apply Q.min_glb; lra | apply Q.le_min_r]. }
    assert (Hd : 0 <= v / 0.15) by (apply Qle_shift_div_l; [reflexivity | lra]).
    assert (Hv' : 0.65 <= v') by (unfold v'; lra).
    pose proof (hsv_to_rgb_largest h s' v' (proj1 Hs') (proj2 Hs')) as HL.
    destruct (_hsv_to_rgb h s' v') as [[r' g'] b']. cbn [largest] in HL |- *.
    assert (HL' : max3 r' g' b' == v') by (apply HL; lra).
    destruct (max3_spec r' g' b') as [_ Hc].
    destruct (max3_spec (Qmin (Qmax r' 0) 1) (Qmin (Qmax g' 0) 1) (Qmin (Qmax b' 0) 1))
      as [(Hcr & Hcg & Hcb) _].
    destruct Hc as [Hc | [Hc | Hc]].
    - apply Qle_trans with (Qmin (Qmax r' 0) 1); [apply clamp_keeps; lra | exact Hcr].
    - apply Qle_trans with (Qmin (Qmax g' 0) 1); [apply clamp_keeps; lra | exact Hcg].
    - apply Qle_trans with (Qmin (Qmax b' 0) 1); [apply clamp_keeps; lra | exact Hcb]. }
  reflect_tests.
  repeat match goal with
  | |- context [if ?c then _ else _] => destruct c eqn:?
  end; reflect_tests;
  match goal with
  | |- context [_hsv_to_rgb ?h ?s' ?v'] =>
      rewrite (hsv_to_rgb_largest h s' v'); lra
  end.
Qed.

(** ** Grays under the RGB mapper *)

Lemma rgb_to_hsv_gray (x : Q) :
  let '(h, s, v) := _rgb_to_hsv x x x in h = 0 / 360 /\ s == 0 /\ v == x.
Proof.
  unfold _rgb_to_hsv. cbv zeta.
  assert (HM : max3 x x x == x) by (apply max3_unique; try lra; left; lra).
  assert (Hm : min3 x x x == x).
  { destruct (min3_spec x x x) as [_ [H | [H | H]]]; exact H. }
  set (M := max3 x x x) in *. set (mn := min3 x x x) in *.
  destruct (Qeq_bool (M - mn) 0) eqn:Hd; reflect_tests; [|exfalso; apply Hd; lra].
  split; [reflexivity|]. split; [|exact HM].
  destruct (Qeq_bool M 0) eqn:H0; [reflexivity|].
  unfold Qdiv. rewrite Hd. ring.
Qed.

Lemma hsv_to_rgb_unsaturated (s v : Q) :
  s == 0 -> Qeq3 (_hsv_to_rgb (0 / 360) s v) (v, v, v).
Proof.
  intros Hs.
  pose proof (hsv_to_rgb_sextant (0 / 360) s v 0 0) as HS.
  forward HS ltac:(lia). forward HS ltac:(reflexivity).
  forward HS ltac:(lra). forward HS ltac:(lra).
  destruct (_hsv_to_rgb (0 / 360) s v) as [[r g] b].
  unfold Qeq3, sextant_rgb in *. cbn [Z.even] in HS.
  destruct HS as (H1 & H2 & H3). rewrite H1, H2, H3, Hs. repeat split; ring.
Qed.

(** The gray policy mirrors the RGB bands: for every level [x] that is not
    near-white, the RGB mapper sends the gray colour (x, x, x) to the gray
    colour of the level the gray mapper gives for [x], whatever the theme. *)
Theorem transform_rgb_on_grays (bg : rgb8) (x : Q) :
  x <= 0.93 ->
  Qeq3 (_transform_rgb bg x x x)
       (_transform_grayscale bg x, _transform_grayscale bg x, _transform_grayscale bg x).
Proof.
  intros Hx. unfold _transform_rgb, _transform_grayscale.
  assert (HY : brightness x x x == x) by (unfold brightness; ring).
  destruct (Qltb 0.93 (brightness x x x)) eqn:E1; reflect_tests; [lra|].
  destruct (Qltb 0.93 x) eqn:E2; reflect_tests; [lra|].
  pose proof (rgb_to_hsv_gray x) as Hsv.
  destruct (_rgb_to_hsv x x x) as [[h s] v]. destruct Hsv as (-> & Hs & Hv).
  assert (Hs3 : Qltb s 0.3 = true) by (apply Qltb_lt; lra).
  rewrite Hs3, andb_true_r.
  destruct (Qltb (brightness x x x) 0.15) eqn:B1; destruct (Qltb x 0.15) eqn:G1;
    reflect_tests; try lra; [repeat split; reflexivity|].
  destruct (Qltb (brightness x x x) 0.4) eqn:B2; destruct (Qltb x 0.4) eqn:G2;
    reflect_tests; try lra.
  { pose proof (hsv_to_rgb_unsaturated (s * 0.85) (0.75 + (v - 0.15) * 0.8)) as HS.
    forward HS ltac:(rewrite Hs; ring).
    destruct (_hsv_to_rgb _ _ _) as [[r' g'] b']. unfold Qeq3 in *.
    destruct HS as (H1 & H2 & H3). rewrite H1, H2, H3, Hv. repeat split; reflexivity. }
  destruct (Qltb (brightness x x x) 0.6) eqn:B3; destruct (Qltb x 0.6) eqn:G3;
    reflect_tests; try lra.
  { pose proof (hsv_to_rgb_unsaturated (s * 0.9) (0.65 + (v - 0.4) * 1)) as HS.
    forward HS ltac:(rewrite Hs; ring).
    destruct (_hsv_to_rgb _ _ _) as [[r' g'] b']. unfold Qeq3 in *.
    destruct HS as (H1 & H2 & H3). rewrite H1, H2, H3, Hv. repeat split; reflexivity. }
  pose proof (hsv_to_rgb_unsaturated s (0.5 + v * 0.5) Hs) as HS.
  destruct (_hsv_to_rgb _ _ _) as [[r' g'] b']. unfold Qeq3 in *.
  destruct HS as (H1 & H2 & H3). rewrite H1, H2, H3, Hv. repeat split; reflexivity.
Qed.

Lemma transform_rgb_on_grays_half :
  0.5 <= 0.93 /\
  Qeq3 (_transform_rgb (bg_color "midnight") 0.5 0.5 0.5)
       (_transform_grayscale (bg_color "midnight") 0.5,
        _transform_grayscale (bg_color "midnight") 0.5,
        _transform_grayscale (bg_color "midnight") 0.5).
Proof.
  split; [discriminate|].
  apply (transform_rgb_on_grays (bg_color "midnight") 0.5). discriminate.
Defined.

(** ** The CMYK the mapper returns *)

(** For every CMYK input in [0,1]^4, the cyan, magenta and yellow the CMYK
    mapper returns lie in [0,1] and one of them is 0: all the black that can
    be taken out of the mapped colour is in K', which is never above 1. *)
Theorem transform_cmyk_channels (theme : string) (c m y k : Q) :
  0 <= c <= 1 -> 0 <= m <= 1 -> 0 <= y <= 1 -> 0 <= k <= 1 ->
  let '(c', m', y', k') := _transform_cmyk (bg_color theme) c m y k in
  in_unit3 (c', m', y') /\ (c' == 0 \/ m' == 0 \/ y' == 0) /\ k' <= 1.
Proof.
  intros Hc Hm Hy Hk.
  pose proof (cmyk_to_rgb_unit c m y k Hc Hm Hy Hk) as Hu.
  unfold _transform_cmyk.
  destruct (cmyk_to_rgb c m y k) as [[r g] b]. unfold in_unit3 in Hu.
  destruct Hu as (Hr & Hg & Hb).
  pose proof (transform_rgb_nonneg theme r g b Hr Hg Hb) as Hn.
  destruct (_transform_rgb (bg_color theme) r g b) as [[R G] B].
  cbv beta iota in Hn. destruct Hn as (HR & HG & HB).
  destruct (Qeq_bool R 0 && Qeq_bool G 0 && Qeq_bool B 0).
  { cbn [in_unit3]. repeat split; first [lra | left; reflexivity]. }
  destruct (max3_spec R G B) as [(HMR & HMG & HMB) HMc].
  set (M := max3 R G B) in *.
  destruct (Qltb (1 - M) 1) eqn:Hk'; reflect_tests.
  - assert (HM : 0 < M) by lra.
    assert (E : forall ch, (1 - ch - (1 - M)) / (1 - (1 - M)) == (M - ch) / M)
      by (intros ch; field; lra).
    cbn [in_unit3]. rewrite !E.
    split; [|split; [|lra]].
    + repeat split;
        first [apply Qle_shift_div_l; lra | apply Qle_shift_div_r; lra].
    + destruct HMc as [H | [H | H]]; [left | right; left | right; right];
        unfold Qdiv; rewrite H; ring.
  - cbn [in_unit3]. repeat split; first [lra | left; reflexivity].
Qed.

Lemma transform_cmyk_channels_red :
  (0 <= 0 <= 1) /\ (0 <= 1 <= 1) /\
  (let '(c', m', y', k') := _transform_cmyk (bg_color "classic") 0 1 1 0 in
   in_unit3 (c', m', y') /\ (c' == 0 \/ m' == 0 \/ y' == 0) /\ k' <= 1).
Proof.
  split; [split; discriminate|]. split; [split; discriminate|].
  apply (transform_cmyk_channels "classic" 0 1 1 0); split; discriminate.
Defined.

(** ** The hue under a remap *)

Ltac remap_sextant H :=
  forward H ltac:(lia); forward H ltac:(nra); forward H ltac:(nra);
  forward H ltac:(vm_compute (inject_Z _); nra);
  match type of H with
  | Qeq3 ?p _ =>
      let r' := fresh "r'" in let g' := fresh "g'" in let b' := fresh "b'" in
      destruct p as [[r' g'] b']; unfold Qeq3, sextant_rgb in H; cbn [Z.even] in H;
      let H1 := fresh in let H2 := fresh in let H3 := fresh in
      destruct H as (H1 & H2 & H3); unfold proportional; rewrite H1, H2, H3;
      clear H1 H2 H3
  end.

(** A colour rebuilt from the hue of (r, g, b) with any saturation [s'] and
    value [v'] has the differences of (r, g, b), scaled: the chroma [v' * s']
    takes the place of the spread [max - min]. *)
Lemma hue_remap (r g b s' v' : Q) :
  0 <= r -> 0 <= g -> 0 <= b ->
  let '(h, _, _) := _rgb_to_hsv r g b in
  proportional (v' * s') (max3 r g b - min3 r g b) (_hsv_to_rgb h s' v') (r, g, b).
Proof.
  intros Hr Hg Hb.
  destruct (max3_spec r g b) as [(HMr & HMg & HMb) HMc].
  destruct (min3_spec r g b) as [(Hmr & Hmg & Hmb) Hmc].
  unfold _rgb_to_hsv. cbv zeta. cbv beta iota.
  set (M := max3 r g b) in *. set (mn := min3 r g b) in *.
  clearbody M mn.
  destruct (Qeq_bool (M - mn) 0) eqn:Hd; reflect_tests.
  - assert (Hrg : r == g /\ g == b) by (split; lra). destruct Hrg as [Hrg Hgb].
    destruct (_hsv_to_rgb (0 / 360) s' v') as [[r' g'] b'].
    unfold proportional. rewrite Hd, Hrg, Hgb. split; ring.
  - assert (Hdpos : 0 < M - mn) by (apply Qnot_le_lt; intros Hle; apply Hd; lra).
    destruct (Qeq_bool M r) eqn:HMr'; [| destruct (Qeq_bool M g) eqn:HMg']; reflect_tests.
    + set (t := (g - b) / (M - mn)).
      assert (Ht : t * (M - mn) == g - b) by (unfold t; field; lra).
      destruct (Qlt_le_dec g b) as [Hgb | Hgb].
      * assert (Hmn : mn == g) by (destruct Hmc as [H | [H | H]]; lra).
        pose proof (hue_sextant (60 * t + 360) s' v' 5 0 (t + 1)) as HS.
        remap_sextant HS.
        split; unfold t; rewrite HMr', Hmn; field; lra.
      * destruct (Qlt_le_dec (g - b) (M - mn)) as [Hlt | Hge].
        -- assert (Hmn : mn == b) by (destruct Hmc as [H | [H | H]]; lra).
           pose proof (hue_sextant (60 * t + 360) s' v' 0 1 t) as HS.
           remap_sextant HS.
           split; unfold t; rewrite HMr', Hmn; field; lra.
        -- assert (Hmn : mn == b) by (destruct Hmc as [H | [H | H]]; lra).
           assert (Hrg : r == g) by lra.
           pose proof (hue_sextant (60 * t + 360) s' v' 1 1 0) as HS.
           remap_sextant HS. rewrite HMr', Hmn, Hrg. split; ring.
    + assert (Hrlt : r < M) by (apply Qnot_le_lt; intros Hle; apply HMr'; lra).
      set (t := (b - r) / (M - mn)).
      assert (Ht : t * (M - mn) == b - r) by (unfold t; field; lra).
      destruct (Qlt_le_dec b r) as [Hbr | Hbr].
      * assert (Hmn : mn == b) by (destruct Hmc as [H | [H | H]]; lra).
        pose proof (hue_sextant (60 * t + 120) s' v' 1 0 (t + 1)) as HS.
        remap_sextant HS.
        split; unfold t; rewrite HMg', Hmn; field; lra.
      * destruct (Qlt_le_dec (b - r) (M - mn)) as [Hlt | Hge].
        -- assert (Hmn : mn == r) by (destruct Hmc as [H | [H | H]]; lra).
           pose proof (hue_sextant (60 * t + 120) s' v' 2 0 t) as HS.
           remap_sextant HS.
           split; unfold t; rewrite HMg', Hmn; field; lra.
        -- assert (Hmn : mn == r) by (destruct Hmc as [H | [H | H]]; lra).
           assert (Hgb : g == b) by lra.
           pose proof (hue_sextant (60 * t + 120) s' v' 3 0 0) as HS.
           remap_sextant HS. rewrite HMg', Hmn, Hgb. split; ring.
    + assert (Hrlt : r < M) by (apply Qnot_le_lt; intros Hle; apply HMr'; lra).
      assert (Hglt : g < M) by (apply Qnot_le_lt; intros Hle; apply HMg'; lra).
      assert (HMb' : M == b) by (destruct HMc as [Hm | [Hm | Hm]]; lra).
      set (t := (r - g) / (M - mn)).
      assert (Ht : t * (M - mn) == r - g) by (unfold t; field; lra).
      destruct (Qlt_le_dec r g) as [Hrg | Hrg].
      * assert (Hmn : mn == r) by (destruct Hmc as [H | [H | H]]; lra).
        pose proof (hue_sextant (60 * t + 240) s' v' 3 0 (t + 1)) as HS.
        remap_sextant HS.
        split; unfold t; rewrite HMb', Hmn; field; lra.
      * assert (Hmn : mn == g) by (destruct Hmc as [H | [H | H]]; lra).
        pose proof (hue_sextant (60 * t + 240) s' v' 4 0 t) as HS.
        remap_sextant HS.
        split; unfold t; rewrite HMb', Hmn; field; lra.
Qed.

Lemma rgb_to_hsv_hue_gray (r g b : Q) :
  max3 r g b - min3 r g b == 0 ->
  let '(h, _, _) := _rgb_to_hsv r g b in h = 0 / 360.
Proof.
  intros Hd. unfold _rgb_to_hsv. cbv zeta. cbv beta iota.
  apply Qeq_bool_iff in Hd. rewrite Hd. reflexivity.
Qed.

Lemma hue_remap_scaled (r g b h s v s' sigma v' : Q) :
  0 <= r -> 0 <= g -> 0 <= b -> 0 < max3 r g b ->
  _rgb_to_hsv r g b = (h, s, v) -> s' == s * sigma ->
  scaled_differences (v' * sigma / v) (_hsv_to_rgb h s' v') (r, g, b).
Proof.
  intros Hr Hg Hb HM E Hs'.
  destruct (min3_spec r g b) as [(Hmr & Hmg & Hmb) Hmc].
  assert (Hmin : 0 <= min3 r g b) by (destruct Hmc as [-> | [-> | ->]]; assumption).
  pose proof (rgb_to_hsv_sv r g b Hmin) as Hsv.
  pose proof (hue_remap r g b s' v' Hr Hg Hb) as Hp.
  pose proof (rgb_to_hsv_hue_gray r g b) as Hgray.
  destruct (max3_spec r g b) as [(HMr & HMg & HMb) _].
  rewrite E in Hsv, Hp, Hgray. destruct Hsv as (Hv & Hc & _).
  set (M := max3 r g b) in *. set (mn := min3 r g b) in *. clearbody M mn. subst v.
  destruct (Qeq_dec (M - mn) 0) as [Hd | Hd].
  - specialize (Hgray Hd). subst h.
    assert (Hs0 : s' == 0).
    { rewrite Hs'. assert (Hs : s == 0) by (apply (Qmult_integral_l M); [lra | lra]).
      rewrite Hs. ring. }
    pose proof (hsv_to_rgb_unsaturated s' v' Hs0) as HS.
    destruct (_hsv_to_rgb (0 / 360) s' v') as [[r' g'] b'].
    unfold Qeq3 in HS. destruct HS as (H1 & H2 & H3).
    unfold scaled_differences. rewrite H1, H2, H3.
    assert (Hrg : r == g /\ g == b) by (split; lra). destruct Hrg as [-> ->].
    split; ring.
  - assert (Hdpos : 0 < M - mn) by (apply Qnot_le_lt; intros Hle; apply Hd; lra).
    assert (Hs : s == (M - mn) / M) by (rewrite <- Hc; field; lra).
    destruct (_hsv_to_rgb h s' v') as [[r' g'] b'].
    unfold proportional in Hp. unfold scaled_differences.
    destruct Hp as [H1 H2]. rewrite Hs', Hs in H1, H2.
    split.
    + setoid_replace (r' - g') with ((r' - g') * (M - mn) / (M - mn)) by (field; lra).
      rewrite H1. field. lra.
    + setoid_replace (g' - b') with ((g' - b') * (M - mn) / (M - mn)) by (field; lra).
      rewrite H2. field. lra.
Qed.

(** With the brightness as the exact sum, between the near-black and the
    near-white band the mapper keeps the hue:
    for every colour without negative component and with brightness from
    0.15 to 0.93, the differences between the components of the mapped
    colour are those of the input times one positive factor, so the
    components keep their order and their proportions. *)
Lemma transform_rgb_keeps_hue_exact (bg : rgb8) (r g b : Q) :
  0 <= r -> 0 <= g -> 0 <= b ->
  0.15 <= brightness r g b -> brightness r g b <= 0.93 ->
  exists kappa : Q,
    0 < kappa /\ scaled_differences kappa (_transform_rgb bg r g b) (r, g, b).
Proof.
  intros Hr Hg Hb Hlo Hhi. unfold _transform_rgb.
  apply Qltb_ge in Hhi. rewrite Hhi.
  pose proof (brightness_le_max r g b) as HYM.
  assert (HM : 0 < max3 r g b) by lra.
  pose proof (rgb_to_hsv_range r g b Hr Hg Hb) as Hsv.
  destruct (_rgb_to_hsv r g b) as [[h s] v] eqn:E.
  destruct Hsv as (Hv & _ & _ & _ & HYv).
  apply Qltb_ge in Hlo. rewrite Hlo, andb_false_l. apply Qltb_ge in Hlo.
  assert (Hvpos : 0 < v) by lra.
  destruct (Qltb (brightness r g b) 0.4) eqn:B2; [|destruct (Qltb (brightness r g b) 0.6) eqn:B3].
  - exists ((0.75 + (v - 0.15) * 0.8) * 0.85 / v). split.
    + apply Qlt_shift_div_l; lra.
    + apply (hue_remap_scaled r g b h s v); try assumption. reflexivity.
  - exists ((0.65 + (v - 0.4) * 1) * 0.9 / v). reflect_tests. split.
    + apply Qlt_shift_div_l; lra.
    + apply (hue_remap_scaled r g b h s v); try assumption. reflexivity.
  - exists ((0.5 + v * 0.5) * 1 / v). split.
    + apply Qlt_shift_div_l; lra.
    + apply (hue_remap_scaled r g b h s v); try assumption. ring.
Qed.

(** * Further properties of the rewriter *)

(** ** Numbers as text *)

Section NumberText.

Local Open Scope string_scope.

Lemma uint_digits (d : uint) : string_forall is_digit (NilEmpty.string_of_uint d) = true.
Proof. induction d; cbn; try rewrite IHd; reflexivity. Qed.

Lemma string_of_nonneg_digits (n : Z) :
  string_forall is_digit (string_of_nonneg n) = true /\ string_of_nonneg n <> "".
Proof.
  unfold string_of_nonneg, NilZero.string_of_uint.
  destruct (N.to_uint (Z.to_N n)) as [| d | d | d | d | d | d | d | d | d | d] eqn:E;
    (split; [| cbn; discriminate]);
    first [reflexivity | apply (uint_digits (D0 d)) | apply (uint_digits (D1 d))
          | apply (uint_digits (D2 d)) | apply (uint_digits (D3 d))
          | apply (uint_digits (D4 d)) | apply (uint_digits (D5 d))
          | apply (uint_digits (D6 d)) | apply (uint_digits (D7 d))
          | apply (uint_digits (D8 d)) | apply (uint_digits (D9 d))].
Qed.

Lemma digit_char_digit (d : Z) :
  (0 <= d <= 9)%Z -> is_digit (digit_char d) = true /\ digit_value (digit_char d) = d.
Proof.
  intros H.
  assert (Hc : (d = 0 \/ d = 1 \/ d = 2 \/ d = 3 \/ d = 4 \/ d = 5 \/ d = 6 \/ d = 7
                \/ d = 8 \/ d = 9)%Z) by lia.
  repeat (destruct Hc as [-> | Hc]; [split; reflexivity|]). subst. split; reflexivity.
Qed.

Lemma digits_value_acc (d : uint) (acc : positive) :
  digits_value (Z.pos acc) (NilEmpty.string_of_uint d) = Z.pos (Pos.of_uint_acc d acc).
Proof.
  revert acc. induction d; intros acc; cbn [NilEmpty.string_of_uint digits_value Pos.of_uint_acc];
    [reflexivity | ..];
    match goal with
    | |- digits_value ?z _ = Z.pos (Pos.of_uint_acc _ ?a) =>
        replace z with (Z.pos a)
          by (match goal with
              | |- context [digit_value ?c] =>
                  let v := eval vm_compute in (digit_value c) in
                  change (digit_value c) with v
              end; lia)
    end; apply IHd.
Qed.

Lemma digits_value_uint (d : uint) :
  digits_value 0 (NilEmpty.string_of_uint d) = Z.of_N (Pos.of_uint d).
Proof.
  induction d; cbn [NilEmpty.string_of_uint digits_value Pos.of_uint];
    [reflexivity | exact IHd | ..];
    match goal with
    | |- digits_value ?z _ = Z.of_N (N.pos (Pos.of_uint_acc _ ?a)) =>
        replace z with (Z.pos a)
          by (match goal with
              | |- context [digit_value ?c] =>
                  let v := eval vm_compute in (digit_value c) in
                  change (digit_value c) with v
              end; lia)
    end; apply digits_value_acc.
Qed.

Lemma digits_value_string_of_nonneg (n : Z) :
  (0 <= n)%Z -> digits_value 0 (string_of_nonneg n) = n.
Proof.
  intros Hn. unfold string_of_nonneg.
  assert (H : digits_value 0 (NilZero.string_of_uint (N.to_uint (Z.to_N n)))
              = Z.of_N (N.of_uint (N.to_uint (Z.to_N n)))).
  { unfold NilZero.string_of_uint, N.of_uint.
    destruct (N.to_uint (Z.to_N n)) eqn:E;
      first [rewrite <- digits_value_uint; reflexivity | reflexivity]. }
  rewrite H, DecimalN.Unsigned.of_to. lia.
Qed.

Lemma split_dot_digits (i f : string) :
  string_forall is_digit i = true -> split_dot (i ++ String "." f) = (i, f).
Proof.
  intros Hi. induction i as [| c i IH]; [reflexivity|].
  cbn in Hi. apply andb_true_iff in Hi. destruct Hi as [Hc Hi].
  cbn [append split_dot].
  destruct (Ascii.eqb_spec c ".") as [-> | _]; [discriminate Hc|].
  rewrite (IH Hi). reflexivity.
Qed.

End NumberText.

(** ** Printing an operand and reading it back *)

Lemma Qltb_comp (a a' b b' : Q) : a == a' -> b == b' -> Qltb a b = Qltb a' b'.
Proof. intros Ha Hb. unfold Qltb. rewrite Ha, Hb. reflexivity. Qed.

Lemma round_half_even_comp (x y : Q) : x == y -> round_half_even x = round_half_even y.
Proof.
  intros H. unfold round_half_even. rewrite (Qfloor_comp x y H).
  rewrite (Qltb_comp (x - inject_Z (Qfloor y)) (y - inject_Z (Qfloor y)) 0.5 0.5);
    [| rewrite H; reflexivity | reflexivity].
  rewrite (Qltb_comp 0.5 0.5 (x - inject_Z (Qfloor y)) (y - inject_Z (Qfloor y)));
    [| reflexivity | rewrite H; reflexivity].
  reflexivity.
Qed.

Lemma round_half_even_near (x : Q) :
  Qabs (inject_Z (round_half_even x) - x) <= 0.5.
Proof.
  unfold round_half_even.
  pose proof (Qfloor_le x) as Hlo. pose proof (Qlt_floor x) as Hhi.
  rewrite inject_Z_plus in Hhi. change (inject_Z 1) with 1 in Hhi.
  apply Qabs_Qle_condition.
  destruct (Qltb (x - inject_Z (Qfloor x)) 0.5) eqn:H1; reflect_tests; [split; lra|].
  destruct (Qltb 0.5 (x - inject_Z (Qfloor x))) eqn:H2; reflect_tests.
  - rewrite inject_Z_plus. change (inject_Z 1) with 1. split; lra.
  - destruct (Z.even (Qfloor x)); [split; lra|].
    rewrite inject_Z_plus. change (inject_Z 1) with 1. split; lra.
Qed.

Lemma round_half_even_nonneg (x : Q) : 0 <= x -> (0 <= round_half_even x)%Z.
Proof.
  intros Hx. unfold round_half_even.
  assert (Hf : (0 <= Qfloor x)%Z).
  { change 0%Z with (Qfloor 0). apply Qfloor_resp_le. exact Hx. }
  repeat match goal with
  | |- context [if ?c then _ else _] => destruct c
  end; lia.
Qed.

Section FormatRoundTrip.

Local Open Scope string_scope.

Lemma format_4f_nonneg (q : Q) :
  0 <= q ->
  let n := round_half_even (q * 10000) in
  let frac := (n mod 10000)%Z in
  format_4f q
  = string_of_nonneg (n / 10000) ++
    String "." (String (digit_char (frac / 1000)) (String (digit_char (frac / 100 mod 10))
      (String (digit_char (frac / 10 mod 10)) (String (digit_char (frac mod 10)) "")))).
Proof.
  intros Hq. cbv zeta. unfold format_4f.
  assert (Hs : Qltb q 0 = false) by (apply Qltb_ge; exact Hq).
  rewrite Hs. cbv zeta.
  assert (Ha : round_half_even (Qabs q * 10000) = round_half_even (q * 10000)).
  { apply round_half_even_comp. rewrite (Qabs_pos q Hq). reflexivity. }
  rewrite Ha. reflexivity.
Qed.

Lemma float_of_format (q : Q) :
  0 <= q -> float (format_4f q) == rounded_4 q.
Proof.
  intros Hq. rewrite (format_4f_nonneg q Hq). cbv zeta.
  pose proof (round_half_even_nonneg (q * 10000)) as Hn.
  assert (Hn' : (0 <= round_half_even (q * 10000))%Z) by (apply Hn; lra).
  unfold rounded_4. set (n := round_half_even (q * 10000)) in *. clearbody n.
  destruct (string_of_nonneg_digits (n / 10000)) as [Hdig _].
  unfold float. rewrite (split_dot_digits _ _ Hdig).
  rewrite digits_value_string_of_nonneg by (apply Z.div_pos; lia).
  assert (Hf : (0 <= n mod 10000 < 10000)%Z) by (apply Z.mod_pos_bound; lia).
  set (frac := (n mod 10000)%Z) in *.
  assert (Hd1 : (0 <= frac / 1000 <= 9)%Z)
    by (split; [apply Z.div_pos; lia | apply Z.lt_succ_r, Z.div_lt_upper_bound; lia]).
  assert (Hd2 : (0 <= frac / 100 mod 10 <= 9)%Z)
    by (pose proof (Z.mod_pos_bound (frac / 100) 10); lia).
  assert (Hd3 : (0 <= frac / 10 mod 10 <= 9)%Z)
    by (pose proof (Z.mod_pos_bound (frac / 10) 10); lia).
  assert (Hd4 : (0 <= frac mod 10 <= 9)%Z)
    by (pose proof (Z.mod_pos_bound frac 10); lia).
  cbn [digits_value String.length].
  rewrite (proj2 (digit_char_digit _ Hd1)), (proj2 (digit_char_digit _ Hd2)),
    (proj2 (digit_char_digit _ Hd3)), (proj2 (digit_char_digit _ Hd4)).
  assert (Hfrac : (10 * (10 * (10 * (10 * 0 + frac / 1000) + frac / 100 mod 10)
                         + frac / 10 mod 10) + frac mod 10 = frac)%Z).
  { pose proof (Z.div_mod frac 10). pose proof (Z.div_mod (frac / 10) 10).
    pose proof (Z.div_mod (frac / 100) 10).
    assert (frac / 10 / 10 = frac / 100)%Z by (rewrite Z.div_div by lia; reflexivity).
    assert (frac / 100 / 10 = frac / 1000)%Z by (rewrite Z.div_div by lia; reflexivity).
    lia. }
  rewrite Hfrac.
  assert (Hn10 : n = (10000 * (n / 10000) + frac)%Z) by (apply Z.div_mod; lia).
  assert (HnQ : inject_Z n == 10000 * inject_Z (n / 10000) + inject_Z frac).
  { rewrite Hn10 at 1. rewrite inject_Z_plus, inject_Z_mult. reflexivity. }
  rewrite HnQ. change (inject_Z (10 ^ Z.of_nat 4)) with 10000. field.
Qed.

End FormatRoundTrip.

(** An operand printed with [:.4f] and parsed again with [float]: for every
    value that is not negative the result is the value rounded to four
    decimals, within 0.00005 of the value. *)
Theorem format_then_float (q : Q) :
  0 <= q ->
  float (format_4f q) == rounded_4 q /\ Qabs (float (format_4f q) - q) <= 0.00005.
Proof.
  intros Hq. pose proof (float_of_format q Hq) as H. split; [exact H|].
  rewrite H. unfold rounded_4.
  pose proof (round_half_even_near (q * 10000)) as Hn.
  apply Qabs_Qle_condition in Hn. apply Qabs_Qle_condition.
  set (n := inject_Z (round_half_even (q * 10000))) in *.
  unfold Qdiv. change (/ 10000) with (1 # 10000). split; lra.
Qed.

Lemma format_then_float_third :
  0 <= 1 / 3 /\
  float (format_4f (1 / 3)) == rounded_4 (1 / 3) /\
  Qabs (float (format_4f (1 / 3)) - 1 / 3) <= 0.00005.
Proof.
  split; [discriminate|]. apply (format_then_float (1 / 3)). discriminate.
Defined.

(** ** What the rewriter never touches *)

Section FixedText.

Local Open Scope string_scope.

Lemma string_forall_impl (f g : ascii -> bool) (s : string) :
  (forall c, f c = true -> g c = true) ->
  string_forall f s = true -> string_forall g s = true.
Proof.
  intros Hfg. induction s as [| c s IH]; cbn; [reflexivity|].
  intros H. apply andb_true_iff in H. destruct H as [Hc Hs].
  rewrite (Hfg c Hc), (IH Hs). reflexivity.
Qed.

Lemma digit_rewritable (c : ascii) : is_digit c = true -> rewritable c = true.
Proof. intros H. unfold rewritable. rewrite H. reflexivity. Qed.

Lemma class_rewritable_sound (cl : cclass) (c : ascii) :
  class_rewritable cl = true -> in_class cl c = true -> rewritable c = true.
Proof.
  destruct cl as [| | c']; cbn; intros Hcl Hc.
  - apply digit_rewritable. exact Hc.
  - unfold rewritable. rewrite Hc, orb_true_r. reflexivity.
  - apply Ascii.eqb_eq in Hc. subst. exact Hcl.
Qed.

Lemma matched_text_rewritable (p : regex) (segs : list string) :
  pattern_rewritable p = true -> regex_match p segs ->
  string_forall rewritable (matched_text segs) = true.
Proof.
  intros Hp Hm. induction Hm as [| it seg p segs Hit Hm IH]; [reflexivity|].
  cbn in Hp. apply andb_true_iff in Hp. destruct Hp as [Hcl Hp].
  cbn [matched_text fold_right]. fold (matched_text segs).
  rewrite string_forall_append, (IH Hp), andb_true_r.
  destruct it as [cl q | | |]; cbn in Hit; try (subst; reflexivity).
  destruct Hit as [Hall _].
  apply (string_forall_impl (in_class cl)); [|exact Hall].
  intros c. apply class_rewritable_sound. exact Hcl.
Qed.

Lemma fixed_text_skip (m s : string) :
  string_forall rewritable m = true -> fixed_text (m ++ s) = fixed_text s.
Proof.
  intros Hm. induction m as [| c m IH]; [reflexivity|].
  cbn in Hm. apply andb_true_iff in Hm. destruct Hm as [Hc Hm].
  unfold fixed_text in *. cbn [append string_filter]. rewrite Hc. cbn [negb].
  exact (IH Hm).
Qed.

End FixedText.

(** A content stream in which no white-space character is directly followed
    by [rg], [RG], [g], [G], [k] or [K] comes back byte for byte: the empty
    stream, text, paths, images. *)
Theorem stream_without_color_operator (bg : rgb8) (content : string) :
  color_op_after_space content = false ->
  _transform_content_stream bg content = content.
Proof.
  intros H. apply transform_content_stream_nothing. exact H.
Qed.

Lemma stream_without_color_operator_text :
  color_op_after_space "BT /F1 12 Tf 72 720 Td (Hello) Tj ET" = false /\
  _transform_content_stream (bg_color "sepia") "BT /F1 12 Tf 72 720 Td (Hello) Tj ET"
  = "BT /F1 12 Tf 72 720 Td (Hello) Tj ET"%string.
Proof.
  split; [reflexivity|].
  apply (stream_without_color_operator (bg_color "sepia")). reflexivity.
Defined.

(** ** The matcher on a well-formed operator *)

Section MatcherSteps.

Local Open Scope string_scope.

Variable p : regex.

Lemma step_open prev s segs rest :
  match_items p prev s = Some (segs, rest) ->
  match_items (GroupOpen :: p) prev s = Some ("" :: segs, rest).
Proof. intros H. cbn. rewrite H. reflexivity. Qed.

Lemma step_close prev s segs rest :
  match_items p prev s = Some (segs, rest) ->
  match_items (GroupClose :: p) prev s = Some ("" :: segs, rest).
Proof. intros H. cbn. rewrite H. reflexivity. Qed.

Lemma step_boundary prev s segs rest :
  xorb (is_word_at prev) (is_word_at (first_char s)) = true ->
  match_items p prev s = Some (segs, rest) ->
  match_items (WordBoundary :: p) prev s = Some ("" :: segs, rest).
Proof. intros Hb H. cbn. rewrite Hb, H. reflexivity. Qed.

Lemma step_one c prev s segs rest :
  match_items p (Some c) s = Some (segs, rest) ->
  match_items (Atom (Lit c) One :: p) prev (String c s)
  = Some (String c "" :: segs, rest).
Proof. intros H. cbn. rewrite Ascii.eqb_refl, H. reflexivity. Qed.

Lemma step_opt_take c prev s segs rest :
  match_items p (Some c) s = Some (segs, rest) ->
  match_items (Atom (Lit c) Opt :: p) prev (String c s)
  = Some (String c "" :: segs, rest).
Proof. intros H. cbn. rewrite Ascii.eqb_refl, H. reflexivity. Qed.

Lemma step_opt_skip cl prev s segs rest :
  stops cl s = true ->
  match_items p prev s = Some (segs, rest) ->
  match_items (Atom cl Opt :: p) prev s = Some ("" :: segs, rest).
Proof.
  intros Hs H. destruct s as [| c s']; cbn.
  - rewrite H. reflexivity.
  - cbn in Hs. apply negb_true_iff in Hs. rewrite Hs, H. reflexivity.
Qed.

Lemma repeat_greedy_stop cl acc prev s :
  stops cl s = true ->
  repeat_greedy cl (match_items p) acc prev s = consumed acc (match_items p prev s).
Proof.
  intros Hs. destruct s as [| c s']; cbn; [reflexivity|].
  cbn in Hs. apply negb_true_iff in Hs. rewrite Hs. reflexivity.
Qed.

Lemma repeat_greedy_all cl run : forall acc prev s segs rest,
  string_forall (in_class cl) run = true -> stops cl s = true ->
  match_items p (last_char prev run) s = Some (segs, rest) ->
  repeat_greedy cl (match_items p) acc prev (run ++ s) = Some ((acc ++ run) :: segs, rest).
Proof.
  induction run as [| c run IH]; intros acc prev s segs rest Hall Hs H.
  - cbn [append]. rewrite (repeat_greedy_stop cl acc prev s Hs).
    cbn in H. rewrite H, append_nil_r. reflexivity.
  - cbn in Hall. apply andb_true_iff in Hall. destruct Hall as [Hc Hall].
    cbn [append repeat_greedy]. rewrite Hc.
    rewrite (IH (snoc acc c) (Some c) s segs rest Hall Hs H).
    rewrite snoc_append. reflexivity.
Qed.

Lemma repeat_greedy_give_back cl run : forall acc prev x s segs rest,
  string_forall (in_class cl) run = true -> in_class cl x = true ->
  stops cl s = true ->
  match_items p (Some x) s = None ->
  match_items p (last_char prev run) (String x s) = Some (segs, rest) ->
  repeat_greedy cl (match_items p) acc prev (run ++ String x s)
  = Some ((acc ++ run) :: segs, rest).
Proof.
  induction run as [| c run IH]; intros acc prev x s segs rest Hall Hx Hs Hfail H.
  - cbn [append repeat_greedy]. rewrite Hx.
    rewrite (repeat_greedy_stop cl (snoc acc x) (Some x) s Hs), Hfail.
    cbn in H |- *. rewrite H, append_nil_r. reflexivity.
  - cbn in Hall. apply andb_true_iff in Hall. destruct Hall as [Hc Hall].
    cbn [append repeat_greedy]. rewrite Hc.
    rewrite (IH (snoc acc c) (Some c) x s segs rest Hall Hx Hs Hfail H).
    rewrite snoc_append. reflexivity.
Qed.

Lemma step_star cl prev run s segs rest :
  string_forall (in_class cl) run = true -> stops cl s = true ->
  match_items p (last_char prev run) s = Some (segs, rest) ->
  match_items (Atom cl Star :: p) prev (run ++ s) = Some (run :: segs, rest).
Proof.
  intros Hall Hs H. cbn [match_items match_atom].
  exact (repeat_greedy_all cl run "" prev s segs rest Hall Hs H).
Qed.

Lemma step_star_give_back cl prev run x s segs rest :
  string_forall (in_class cl) run = true -> in_class cl x = true ->
  stops cl s = true ->
  match_items p (Some x) s = None ->
  match_items p (last_char prev run) (String x s) = Some (segs, rest) ->
  match_items (Atom cl Star :: p) prev (run ++ String x s) = Some (run :: segs, rest).
Proof.
  intros Hall Hx Hs Hfail H. cbn [match_items match_atom].
  exact (repeat_greedy_give_back cl run "" prev x s segs rest Hall Hx Hs Hfail H).
Qed.

Lemma step_plus cl prev c run s segs rest :
  in_class cl c = true -> string_forall (in_class cl) run = true ->
  stops cl s = true ->
  match_items p (last_char (Some c) run) s = Some (segs, rest) ->
  match_items (Atom cl Plus :: p) prev (String c (run ++ s))
  = Some (String c run :: segs, rest).
Proof.
  intros Hc Hall Hs H. cbn [match_items match_atom]. rewrite Hc.
  exact (repeat_greedy_all cl run (String c "") (Some c) s segs rest Hall Hs H).
Qed.

Lemma fail_plus cl prev s :
  stops cl s = true -> match_items (Atom cl Plus :: p) prev s = None.
Proof.
  intros Hs. destruct s as [| c s']; cbn; [reflexivity|].
  cbn in Hs. apply negb_true_iff in Hs. rewrite Hs. reflexivity.
Qed.

Lemma fail_opt cl prev s :
  stops cl s = true -> match_items p prev s = None ->
  match_items (Atom cl Opt :: p) prev s = None.
Proof.
  intros Hs H. destruct s as [| c s']; cbn.
  - rewrite H. reflexivity.
  - cbn in Hs. apply negb_true_iff in Hs. rewrite Hs, H. reflexivity.
Qed.

End MatcherSteps.

Section Operands.

Local Open Scope string_scope.

Lemma space_facts (c : ascii) :
  is_space c = true -> is_digit c = false /\ Ascii.eqb "." c = false.
Proof.
  destruct c as [[] [] [] [] [] [] [] []]; cbn; intros H; try discriminate H;
    split; reflexivity.
Qed.

Lemma digit_facts (c : ascii) :
  is_digit c = true -> is_space c = false /\ Ascii.eqb "." c = false.
Proof.
  destruct c as [[] [] [] [] [] [] [] []]; cbn; intros H; try discriminate H;
    split; reflexivity.
Qed.

Lemma is_spaces_cons (w : string) :
  is_spaces w = true ->
  exists y w', w = String y w' /\ is_space y = true /\ string_forall is_space w' = true.
Proof.
  unfold is_spaces. intros H. apply andb_true_iff in H. destruct H as [Hall Hne].
  destruct w as [| y w']; [discriminate Hne|].
  cbn in Hall. apply andb_true_iff in Hall. destruct Hall as [Hy Hw'].
  exists y, w'. auto.
Qed.

(** White space, then the rest of the pattern. *)
Lemma spaces_then (p : regex) prev w s segs rest :
  is_spaces w = true -> stops Space s = true ->
  (forall prev', match_items p prev' s = Some (segs, rest)) ->
  match_items (GroupClose :: Atom Space Plus :: p) prev (w ++ s)
  = Some ("" :: w :: segs, rest).
Proof.
  intros Hw Hs Hp. destruct (is_spaces_cons w Hw) as (y & w' & -> & Hy & Hw').
  apply step_close. cbn [append]. apply step_plus; auto.
Qed.

Lemma spaces_stop_digits (w s : string) :
  is_spaces w = true -> stops Digit (w ++ s) = true /\ stops (Lit ".") (w ++ s) = true.
Proof.
  intros Hw. destruct (is_spaces_cons w Hw) as (y & w' & -> & Hy & _).
  destruct (space_facts y Hy) as [Hd Hdot].
  cbn [append]. unfold stops, in_class. rewrite Hd, Hdot. split; reflexivity.
Qed.

(** One operand of the RGB patterns, the white space after it, and the
    rest of the pattern. *)
Lemma operand_rg (p : regex) prev i dot f w s segs rest :
  is_digits i = true -> is_digits f = true -> f <> "" ->
  (dot = "." \/ (dot = "" /\ String.length f = 1%nat)) ->
  is_spaces w = true -> stops Space s = true ->
  (forall prev', match_items p prev' s = Some (segs, rest)) ->
  match_items (number_rg ++ spaces ++ p)%list prev (i ++ dot ++ f ++ w ++ s)
  = Some ("" :: i :: dot :: f :: "" :: w :: segs, rest).
Proof.
  intros Hi Hf Hne Hdot Hw Hs Hp.
  destruct (spaces_stop_digits w s Hw) as [Hwd Hwdot].
  destruct f as [| x f']; [contradiction Hne; reflexivity|].
  cbn in Hf. apply andb_true_iff in Hf. destruct Hf as [Hx Hf'].
  change (number_rg ++ spaces ++ p)%list
    with (GroupOpen :: Atom Digit Star :: Atom (Lit ".") Opt :: Atom Digit Plus
            :: GroupClose :: Atom Space Plus :: p).
  apply step_open.
  destruct Hdot as [-> | [-> Hlen]].
  - apply step_star; [exact Hi | reflexivity|].
    cbn [append]. apply step_opt_take.
    apply step_plus; [exact Hx | exact Hf' | exact Hwd|].
    apply spaces_then; assumption.
  - destruct f' as [| ? ?]; [|discriminate Hlen].
    cbn [append].
    destruct (digit_facts x Hx) as [_ Hxdot].
    apply step_star_give_back; [exact Hi | exact Hx | exact Hwd | |].
    + apply fail_opt; [exact Hwdot | apply fail_plus; exact Hwd].
    + apply step_opt_skip; [unfold stops, in_class; rewrite Hxdot; reflexivity|].
      change (String x (w ++ s)) with (String x ("" ++ (w ++ s))).
      apply step_plus; [exact Hx | reflexivity | exact Hwd|].
      apply spaces_then; assumption.
Qed.

(** One operand of the gray and CMYK patterns, the white space after it,
    and the rest of the pattern. *)
Lemma operand_gk (p : regex) prev i dot f w s segs rest :
  is_digits i = true -> i <> "" -> is_digits f = true ->
  (dot = "." \/ (dot = "" /\ f = "")) ->
  is_spaces w = true -> stops Space s = true ->
  (forall prev', match_items p prev' s = Some (segs, rest)) ->
  match_items (number_gk ++ spaces ++ p)%list prev (i ++ dot ++ f ++ w ++ s)
  = Some ("" :: i :: dot :: f :: "" :: w :: segs, rest).
Proof.
  intros Hi Hne Hf Hdot Hw Hs Hp.
  destruct (spaces_stop_digits w s Hw) as [Hwd Hwdot].
  destruct i as [| x i']; [contradiction Hne; reflexivity|].
  cbn in Hi. apply andb_true_iff in Hi. destruct Hi as [Hx Hi'].
  change (number_gk ++ spaces ++ p)%list
    with (GroupOpen :: Atom Digit Plus :: Atom (Lit ".") Opt :: Atom Digit Star
            :: GroupClose :: Atom Space Plus :: p).
  apply step_open. cbn [append].
  destruct Hdot as [-> | [-> ->]].
  - apply step_plus; [exact Hx | exact Hi' | reflexivity|].
    cbn [append]. apply step_opt_take.
    apply step_star; [exact Hf | exact Hwd|].
    apply spaces_then; assumption.
  - cbn [append].
    apply step_plus; [exact Hx | exact Hi' | exact Hwd|].
    apply step_opt_skip; [exact Hwdot|].
    change (w ++ s) with ("" ++ (w ++ s)).
    apply step_star; [reflexivity | exact Hwd|].
    apply spaces_then; assumption.
Qed.

(** *** The shapes of the lexemes *)

Lemma split_dot_spec (a : string) :
  has_dot a = true -> let '(i, f) := split_dot a in a = i ++ String "." f.
Proof.
  induction a as [| c a IH]; cbn; [discriminate|].
  destruct (Ascii.eqb_spec c ".") as [-> | Hne]; cbn; [reflexivity|].
  intros H. specialize (IH H). destruct (split_dot a) as [i f].
  cbn. rewrite <- IH. reflexivity.
Qed.

Lemma last_digit (a : string) :
  is_digits a = true -> a <> "" ->
  exists d x, a = d ++ String x "" /\ is_digits d = true /\ is_digit x = true.
Proof.
  induction a as [| c a IH]; intros Hd Hne; [contradiction Hne; reflexivity|].
  cbn in Hd. apply andb_true_iff in Hd. destruct Hd as [Hc Ha].
  destruct a as [| c' a'].
  - exists "", c. auto.
  - destruct (IH Ha) as (d & x & E & Hd & Hx); [discriminate|].
    exists (String c d), x. rewrite E. cbn. unfold is_digits in *. cbn.
    rewrite Hc, Hd. auto.
Qed.

Lemma eqb_empty_false (s : string) : negb (String.eqb s "") = true -> s <> "".
Proof. intros H ->. discriminate H. Qed.

Lemma rg_lexeme_shape (a : string) :
  rg_lexeme a = true ->
  exists i dot f,
    a = i ++ dot ++ f /\ is_digits i = true /\ is_digits f = true /\ f <> "" /\
    (dot = "." \/ (dot = "" /\ String.length f = 1%nat)).
Proof.
  unfold rg_lexeme. intros H. destruct (has_dot a) eqn:Hdot.
  - pose proof (split_dot_spec a Hdot) as E. destruct (split_dot a) as [i f].
    apply andb_true_iff in H. destruct H as [H Hne].
    apply andb_true_iff in H. destruct H as [Hi Hf].
    exists i, ".", f. repeat split; auto using eqb_empty_false.
  - apply andb_true_iff in H. destruct H as [Hd Hne].
    destruct (last_digit a Hd (eqb_empty_false a Hne)) as (d & x & E & Hd' & Hx).
    exists d, "", (String x ""). repeat split; auto.
    + unfold is_digits. cbn. rewrite Hx. reflexivity.
    + discriminate.
Qed.

Lemma gk_lexeme_shape (a : string) :
  gk_lexeme a = true ->
  exists i dot f,
    a = i ++ dot ++ f /\ is_digits i = true /\ i <> "" /\ is_digits f = true /\
    (dot = "." \/ (dot = "" /\ f = "")).
Proof.
  unfold gk_lexeme. intros H. destruct (has_dot a) eqn:Hdot.
  - pose proof (split_dot_spec a Hdot) as E. destruct (split_dot a) as [i f].
    apply andb_true_iff in H. destruct H as [H Hf].
    apply andb_true_iff in H. destruct H as [Hi Hne].
    exists i, ".", f. repeat split; auto using eqb_empty_false.
  - apply andb_true_iff in H. destruct H as [Hd Hne].
    exists a, "", "". rewrite append_nil_r.
    repeat split; auto using eqb_empty_false.
Qed.

(** An operand with the white space after it, whole: the groups start
    with the operand, the text of the match with operand and space. *)
Lemma operand_rg_whole (p : regex) (a w s : string) segs rest :
  rg_lexeme a = true -> is_spaces w = true -> stops Space s = true ->
  (forall prev', match_items p prev' s = Some (segs, rest)) ->
  exists segs0,
    (forall prev,
       match_items (number_rg ++ spaces ++ p)%list prev (a ++ w ++ s) = Some (segs0, rest)) /\
    groups (number_rg ++ spaces ++ p)%list segs0 = a :: groups p segs /\
    matched_text segs0 = a ++ w ++ matched_text segs.
Proof.
  intros Ha Hw Hs Hp.
  destruct (rg_lexeme_shape a Ha) as (i & dot & f & -> & Hi & Hf & Hne & Hdot).
  exists ("" :: i :: dot :: f :: "" :: w :: segs). split; [|split].
  - intros prev. rewrite !append_assoc. apply operand_rg; assumption.
  - unfold groups. cbn. rewrite !append_assoc. reflexivity.
  - cbn. rewrite !append_assoc. reflexivity.
Qed.

Lemma operand_gk_whole (p : regex) (a w s : string) segs rest :
  gk_lexeme a = true -> is_spaces w = true -> stops Space s = true ->
  (forall prev', match_items p prev' s = Some (segs, rest)) ->
  exists segs0,
    (forall prev,
       match_items (number_gk ++ spaces ++ p)%list prev (a ++ w ++ s) = Some (segs0, rest)) /\
    groups (number_gk ++ spaces ++ p)%list segs0 = a :: groups p segs /\
    matched_text segs0 = a ++ w ++ matched_text segs.
Proof.
  intros Ha Hw Hs Hp.
  destruct (gk_lexeme_shape a Ha) as (i & dot & f & -> & Hi & Hne & Hf & Hdot).
  exists ("" :: i :: dot :: f :: "" :: w :: segs). split; [|split].
  - intros prev. rewrite !append_assoc. apply operand_gk; assumption.
  - unfold groups. cbn. rewrite !append_assoc. reflexivity.
  - cbn. rewrite !append_assoc. reflexivity.
Qed.

End Operands.

(** ** Where a pass finds nothing *)

Section FollowsSpace.

Local Open Scope string_scope.

Variable starts : string -> bool.

Lemma follows_space_append_r (a b : string) :
  follows_space starts b = true -> follows_space starts (a ++ b) = true.
Proof.
  intros Hb. induction a as [| c a IH]; cbn; [exact Hb|].
  rewrite IH. apply orb_true_r.
Qed.

Lemma follows_space_skip (t s : string) :
  no_space t = true -> follows_space starts (t ++ s) = follows_space starts s.
Proof.
  intros Ht. induction t as [| c t IH]; [reflexivity|].
  cbn in Ht. apply andb_true_iff in Ht. destruct Ht as [Hc Ht].
  cbn [append follows_space].
  apply negb_true_iff in Hc. rewrite Hc, (IH Ht). reflexivity.
Qed.

Lemma follows_space_spaces_true (w t : string) :
  string_forall is_space w = true -> (1 <= String.length w)%nat ->
  starts t = true -> follows_space starts (w ++ t) = true.
Proof.
  intros Hw Hlen Ht. induction w as [| c w IH]; [cbn in Hlen; lia|].
  cbn in Hw. apply andb_true_iff in Hw. destruct Hw as [Hc Hw].
  change (follows_space starts (String c w ++ t))
    with ((is_space c && starts (w ++ t)) || follows_space starts (w ++ t)).
  destruct w as [| c' w'].
  - cbn [append]. rewrite Hc, Ht. reflexivity.
  - rewrite IH; [apply orb_true_r | exact Hw | cbn; lia].
Qed.

Lemma match_ends_in (front tail : regex) :
  (forall segs' s, regex_match tail segs' -> starts (matched_text segs' ++ s) = true) ->
  ends_in starts (front ++ Atom Space Plus :: tail)%list.
Proof.
  intros Htail segs s Hm. apply Forall2_app_inv_l in Hm.
  destruct Hm as (l1 & l2 & _ & Hl2 & ->).
  inversion Hl2 as [| it w p' segs' Hw Hm']; subst.
  rewrite matched_text_app, append_assoc. apply follows_space_append_r.
  cbn [matched_text fold_right]. fold (matched_text segs'). rewrite append_assoc.
  destruct Hw as [Hall Hlen].
  apply follows_space_spaces_true; [exact Hall | exact Hlen | apply Htail; exact Hm'].
Qed.

Lemma rewrites_nothing_here (p : regex) (repl : list string -> string) (s t : string) :
  ends_in starts p -> rewrites p repl s t ->
  follows_space starts s = false -> t = s.
Proof.
  intros Hp Hr. induction Hr as [| c s t Hr IH | segs s t Hm Hr IH]; intros Hs.
  - reflexivity.
  - cbn in Hs. apply orb_false_iff in Hs. destruct Hs as [_ Hs].
    rewrite (IH Hs). reflexivity.
  - rewrite (Hp segs s Hm) in Hs. discriminate.
Qed.

Lemma sub_from_nothing (p : regex) (repl : list string -> string) prev (s : string) :
  takes_a_character p = true -> ends_in starts p ->
  follows_space starts s = false -> sub_from p repl prev 0 s = s.
Proof.
  intros Ht Hp Hs.
  apply (rewrites_nothing_here p repl s _ Hp); [|exact Hs].
  apply (sub_from_rewrites p repl Ht (String.length s)). lia.
Qed.

(** White space before a text that holds no operator for [starts]. *)
Lemma follows_space_spaces (w s : string) :
  starts_with_letter starts -> is_spaces w = true ->
  follows_space starts (w ++ s) = starts s || follows_space starts s.
Proof.
  intros [_ Hl] Hw. destruct (is_spaces_cons w Hw) as (y & w' & -> & Hy & Hw').
  clear Hw. revert y Hy. induction w' as [| y' w' IH]; intros y Hy.
  - cbn. rewrite Hy. reflexivity.
  - cbn in Hw'. apply andb_true_iff in Hw'. destruct Hw' as [Hy' Hw'].
    change (follows_space starts (String y (String y' w') ++ s))
      with ((is_space y && starts (String y' (w' ++ s)))
            || follows_space starts (String y' w' ++ s)).
    rewrite (Hl y' (w' ++ s)) by (rewrite Hy'; rewrite orb_true_r; reflexivity).
    rewrite andb_false_r. cbn [orb]. apply IH; assumption.
Qed.

End FollowsSpace.

Section SixPatterns.

Local Open Scope string_scope.

Lemma two_letters_text (c1 c2 : ascii) segs s :
  regex_match [Atom (Lit c1) One; Atom (Lit c2) One] segs ->
  matched_text segs ++ s = String c1 (String c2 s).
Proof.
  intros Hm.
  inversion Hm as [| ? seg1 ? ? H1 Hm1]; subst.
  inversion Hm1 as [| ? seg2 ? ? H2 Hm2]; subst.
  inversion Hm2; subst.
  apply literal_text in H1, H2. subst. reflexivity.
Qed.

Lemma one_letter_text (c : ascii) segs s :
  regex_match [Atom (Lit c) One; WordBoundary] segs ->
  matched_text segs ++ s = String c s.
Proof.
  intros Hm.
  inversion Hm as [| ? seg1 ? ? H1 Hm1]; subst.
  inversion Hm1 as [| ? seg2 ? ? H2 Hm2]; subst.
  inversion Hm2; subst.
  apply literal_text in H1. cbn in H2. subst. reflexivity.
Qed.

Lemma pattern_rg_ends_in : ends_in (starts_with "rg") pattern_rg.
Proof.
  apply (match_ends_in _ (number_rg ++ spaces ++ number_rg ++ spaces ++ number_rg)%list
           [Atom (Lit "r") One; Atom (Lit "g") One]).
  intros segs' s Hm. rewrite (two_letters_text _ _ _ _ Hm). reflexivity.
Qed.

Lemma pattern_RG_ends_in : ends_in (starts_with "RG") pattern_RG.
Proof.
  apply (match_ends_in _ (number_rg ++ spaces ++ number_rg ++ spaces ++ number_rg)%list
           [Atom (Lit "R") One; Atom (Lit "G") One]).
  intros segs' s Hm. rewrite (two_letters_text _ _ _ _ Hm). reflexivity.
Qed.

Lemma pattern_gray_ends_in (c : ascii) :
  ends_in (starts_with (String c "")) (pattern_gray c).
Proof.
  apply (match_ends_in _ number_gk [Atom (Lit c) One; WordBoundary]).
  intros segs' s Hm. rewrite (one_letter_text _ _ _ Hm).
  cbn. rewrite Ascii.eqb_refl. reflexivity.
Qed.

Lemma pattern_cmyk_ends_in (c : ascii) :
  ends_in (starts_with (String c "")) (pattern_cmyk c).
Proof.
  apply (match_ends_in _
           (number_gk ++ spaces ++ number_gk ++ spaces ++ number_gk ++ spaces ++ number_gk)%list
           [Atom (Lit c) One; WordBoundary]).
  intros segs' s Hm. rewrite (one_letter_text _ _ _ Hm).
  cbn. rewrite Ascii.eqb_refl. reflexivity.
Qed.

End SixPatterns.

Section Positions.

Local Open Scope string_scope.

Variable starts : string -> bool.

Lemma follows_space_split (x tail : string) :
  follows_space starts (x ++ tail)
  = space_before starts x tail || follows_space starts tail.
Proof.
  induction x as [| c x IH]; [reflexivity|].
  cbn [append follows_space space_before]. rewrite IH. apply orb_assoc.
Qed.

Lemma space_before_app (x1 x2 tail : string) :
  space_before starts (x1 ++ x2) tail
  = space_before starts x1 (x2 ++ tail) || space_before starts x2 tail.
Proof.
  induction x1 as [| c x1 IH]; [reflexivity|].
  cbn [append space_before]. rewrite IH, append_assoc. apply orb_assoc.
Qed.

(** The operator after white space is found at one place only. *)
Lemma op_position (x : string) : forall (y : string) (sp sp' : ascii) (t t' : string),
  x ++ String sp t = y ++ String sp' t' ->
  is_space sp' = true -> starts t' = true ->
  space_before starts x (String sp t) = false ->
  follows_space starts t = false ->
  x = y.
Proof.
  induction x as [| c x IH]; intros y sp sp' t t' Heq Hsp' Ht' Hx Ht.
  - destruct y as [| c' y]; [reflexivity|]. exfalso.
    cbn in Heq. injection Heq as _ Heq. subst t.
    rewrite follows_space_append_r in Ht; [discriminate|].
    cbn. rewrite Hsp', Ht'. reflexivity.
  - cbn in Hx. apply orb_false_iff in Hx. destruct Hx as [Hc Hx].
    destruct y as [| c' y].
    + exfalso. cbn in Heq. injection Heq as -> Heq. rewrite Heq in Hc.
      rewrite Hsp', Ht' in Hc. discriminate.
    + cbn in Heq. injection Heq as -> Heq. f_equal.
      apply (IH y sp sp' t t'); assumption.
Qed.

End Positions.

Section Runs.

Local Open Scope string_scope.

Variable f : ascii -> bool.

Lemma last_char_append (a b : string) : forall prev,
  last_char prev (a ++ b) = last_char (last_char prev a) b.
Proof. induction a as [| c a IH]; intros prev; [reflexivity | apply IH]. Qed.

Lemma last_char_forall (a : string) : forall c0,
  f c0 = true -> string_forall f a = true ->
  exists c, last_char (Some c0) a = Some c /\ f c = true.
Proof.
  induction a as [| c a IH]; intros c0 H0 Ha.
  - exists c0. split; [reflexivity | exact H0].
  - cbn in Ha. apply andb_true_iff in Ha. destruct Ha as [Hc Ha].
    apply (IH c Hc Ha).
Qed.

Lemma ends_in_class_forall (a : string) :
  string_forall f a = true -> a <> "" -> ends_in_class f a = true.
Proof.
  intros Ha Hne. destruct a as [| c a]; [congruence|].
  cbn in Ha. apply andb_true_iff in Ha. destruct Ha as [Hc Ha].
  unfold ends_in_class. cbn [last_char].
  destruct (last_char_forall a c Hc Ha) as (c' & -> & Hc'). exact Hc'.
Qed.

Lemma ends_in_class_append (a b : string) :
  b <> "" -> ends_in_class f (a ++ b) = ends_in_class f b.
Proof.
  intros Hb. unfold ends_in_class. rewrite last_char_append.
  destruct b as [| c b]; [congruence|]. reflexivity.
Qed.

(** A text that ends outside [f], then a run of [f]: the run is found from
    the right. *)
Lemma run_split_r (x : string) : forall (y w v : string),
  x ++ w = y ++ v ->
  string_forall f w = true -> string_forall f v = true ->
  ends_in_class f x = false -> ends_in_class f y = false ->
  x = y /\ w = v.
Proof.
  assert (Hside : forall (y w v : string),
             w = y ++ v -> string_forall f w = true ->
             ends_in_class f y = false -> y = "").
  { intros y w v -> Hw Hy. destruct y as [| c y]; [reflexivity|]. exfalso.
    rewrite string_forall_append in Hw. apply andb_true_iff in Hw.
    destruct Hw as [Hw _].
    rewrite ends_in_class_forall in Hy; [discriminate | exact Hw | discriminate]. }
  induction x as [| c x IH]; intros y w v Heq Hw Hv Hx Hy.
  - cbn in Heq. pose proof (Hside y w v Heq Hw Hy) as ->. split; [reflexivity | exact Heq].
  - destruct y as [| c' y].
    + cbn in Heq. symmetry in Heq.
      pose proof (Hside (String c x) v w Heq Hv Hx). discriminate.
    + cbn in Heq. injection Heq as -> Heq.
      assert (Hx' : ends_in_class f x = false).
      { destruct x as [| c0 x]; [reflexivity | exact Hx]. }
      assert (Hy' : ends_in_class f y = false).
      { destruct y as [| c0 y]; [reflexivity | exact Hy]. }
      destruct (IH y w v Heq Hw Hv Hx' Hy') as [-> ->]. split; reflexivity.
Qed.

End Runs.

(** ** The texts of the patterns, operand by operand *)

Section Language.

Local Open Scope string_scope.

Lemma digit_numeric (c : ascii) : is_digit c = true -> numeric c = true.
Proof. intros H. unfold numeric. rewrite H. reflexivity. Qed.

Lemma dot_numeric (c : ascii) : Ascii.eqb "." c = true -> numeric c = true.
Proof.
  intros H. apply Ascii.eqb_eq in H. subst. reflexivity.
Qed.

Lemma numeric_lexeme_spec (a : string) :
  numeric_lexeme a = true <-> string_forall numeric a = true /\ a <> "".
Proof.
  unfold numeric_lexeme. rewrite andb_true_iff. split; intros [H1 H2]; split.
  - exact H1.
  - apply eqb_empty_false. exact H2.
  - exact H1.
  - destruct a; [congruence | reflexivity].
Qed.

Lemma is_spaces_spec (w : string) :
  is_spaces w = true <-> string_forall is_space w = true /\ w <> "".
Proof.
  unfold is_spaces. rewrite andb_true_iff. split; intros [H1 H2]; split.
  - exact H1.
  - apply eqb_empty_false. exact H2.
  - exact H1.
  - destruct w; [congruence | reflexivity].
Qed.

Lemma length_nonempty (s : string) : (1 <= String.length s)%nat -> s <> "".
Proof. destruct s; cbn; [lia | discriminate]. Qed.

Lemma append_nonempty_r (a b : string) : b <> "" -> a ++ b <> "".
Proof. destruct a; cbn; [auto | discriminate]. Qed.

Lemma append_nonempty_l (a b : string) : a <> "" -> a ++ b <> "".
Proof. destruct a; cbn; [congruence | discriminate]. Qed.

Lemma number_rg_text (segs : list string) :
  regex_match number_rg segs -> numeric_lexeme (matched_text segs) = true.
Proof.
  intros Hm.
  inversion Hm as [| ? s0 ? ? H0 Hm0]; subst.
  inversion Hm0 as [| ? s1 ? ? H1 Hm1]; subst.
  inversion Hm1 as [| ? s2 ? ? H2 Hm2]; subst.
  inversion Hm2 as [| ? s3 ? ? H3 Hm3]; subst.
  inversion Hm3 as [| ? s4 ? ? H4 Hm4]; subst.
  inversion Hm4; subst.
  cbn in H0, H4. subst. destruct H1 as [H1 _], H2 as [H2 _], H3 as [H3 L3].
  cbn [matched_text fold_right]. cbn [append]. rewrite !append_nil_r.
  apply numeric_lexeme_spec. split.
  - rewrite !string_forall_append.
    rewrite (string_forall_impl _ numeric s1 digit_numeric H1).
    rewrite (string_forall_impl _ numeric s2 dot_numeric H2).
    rewrite (string_forall_impl _ numeric s3 digit_numeric H3). reflexivity.
  - apply append_nonempty_r, append_nonempty_r, length_nonempty, L3.
Qed.

Lemma number_gk_text (segs : list string) :
  regex_match number_gk segs -> numeric_lexeme (matched_text segs) = true.
Proof.
  intros Hm.
  inversion Hm as [| ? s0 ? ? H0 Hm0]; subst.
  inversion Hm0 as [| ? s1 ? ? H1 Hm1]; subst.
  inversion Hm1 as [| ? s2 ? ? H2 Hm2]; subst.
  inversion Hm2 as [| ? s3 ? ? H3 Hm3]; subst.
  inversion Hm3 as [| ? s4 ? ? H4 Hm4]; subst.
  inversion Hm4; subst.
  cbn in H0, H4. subst. destruct H1 as [H1 L1], H2 as [H2 _], H3 as [H3 _].
  cbn [matched_text fold_right]. cbn [append]. rewrite !append_nil_r.
  apply numeric_lexeme_spec. split.
  - rewrite !string_forall_append.
    rewrite (string_forall_impl _ numeric s1 digit_numeric H1).
    rewrite (string_forall_impl _ numeric s2 dot_numeric H2).
    rewrite (string_forall_impl _ numeric s3 digit_numeric H3). reflexivity.
  - apply append_nonempty_l, length_nonempty, L1.
Qed.

Lemma spaces_text (segs : list string) :
  regex_match spaces segs -> is_spaces (matched_text segs) = true.
Proof.
  intros Hm.
  inversion Hm as [| ? w ? ? H0 Hm0]; subst. inversion Hm0; subst.
  destruct H0 as [H0 L0]. cbn [matched_text fold_right]. rewrite append_nil_r.
  apply is_spaces_spec. split; [exact H0 | apply length_nonempty, L0].
Qed.

Lemma operands_run_tail (l : list (string * string)) (t : string) :
  operands_run l t = operands_run l "" ++ t.
Proof.
  induction l as [| [a w] l IH]; [reflexivity|].
  cbn [operands_run]. rewrite IH, !append_assoc. reflexivity.
Qed.

Lemma operands_run_app (l1 l2 : list (string * string)) (t : string) :
  operands_run (l1 ++ l2)%list t = operands_run l1 (operands_run l2 t).
Proof.
  induction l1 as [| [a w] l1 IH]; [reflexivity|].
  cbn [operands_run List.app]. rewrite IH. reflexivity.
Qed.

Variable number : regex.
Hypothesis number_text :
  forall segs, regex_match number segs -> numeric_lexeme (matched_text segs) = true.

(** A text of a pattern with [k] operands is [k] numbers, each with white
    space after it, then a text of the tail. *)
Lemma operands_text_of (tail : regex) (k : nat) : forall segs,
  regex_match (operands number k tail) segs ->
  exists l segs',
    length l = k /\ forallb operand_ok l = true /\ regex_match tail segs' /\
    matched_text segs = operands_run l (matched_text segs').
Proof.
  induction k as [| k IH]; intros segs Hm.
  - exists [], segs. auto.
  - cbn [operands] in Hm.
    apply Forall2_app_inv_l in Hm. destruct Hm as (sn & segs1 & Hn & Hm & ->).
    apply Forall2_app_inv_l in Hm. destruct Hm as (sv & segs2 & Hv & Hm & ->).
    destruct (IH segs2 Hm) as (l & segs' & Hlen & Hok & Htail & Htext).
    exists ((matched_text sn, matched_text sv) :: l), segs'.
    repeat split.
    + cbn. rewrite Hlen. reflexivity.
    + cbn [forallb]. unfold operand_ok at 1. cbn [fst snd].
      rewrite (number_text sn Hn), (spaces_text sv Hv), Hok. reflexivity.
    + exact Htail.
    + rewrite !matched_text_app, Htext. reflexivity.
Qed.

End Language.

Section Alignment.

Local Open Scope string_scope.

Lemma append_inv_head (x a b : string) : x ++ a = x ++ b -> a = b.
Proof.
  induction x as [| c x IH]; cbn; intros H; [exact H|].
  injection H as H. apply IH, H.
Qed.

Lemma numeric_not_space (c : ascii) : numeric c = true -> is_space c = false.
Proof.
  destruct c as [[] [] [] [] [] [] [] []]; cbn; intros H; try discriminate H; reflexivity.
Qed.

Lemma space_not_numeric (c : ascii) : is_space c = true -> numeric c = false.
Proof.
  destruct c as [[] [] [] [] [] [] [] []]; cbn; intros H; try discriminate H; reflexivity.
Qed.

Lemma numeric_no_op_letter (c : ascii) : numeric c = true -> no_op_letter c = true.
Proof.
  destruct c as [[] [] [] [] [] [] [] []]; cbn; intros H; try discriminate H; reflexivity.
Qed.

Lemma space_no_op_letter (c : ascii) : is_space c = true -> no_op_letter c = true.
Proof.
  destruct c as [[] [] [] [] [] [] [] []]; cbn; intros H; try discriminate H; reflexivity.
Qed.

Lemma ends_in_class_other (f g : ascii -> bool) (a : string) :
  (forall c, f c = true -> g c = false) ->
  string_forall f a = true -> a <> "" -> ends_in_class g a = false.
Proof.
  intros Hfg Ha Hne. destruct a as [| c a]; [congruence|].
  cbn in Ha. apply andb_true_iff in Ha. destruct Ha as [Hc Ha].
  unfold ends_in_class. cbn [last_char].
  destruct (last_char_forall f a c Hc Ha) as (c' & -> & Hc'). apply Hfg, Hc'.
Qed.

Lemma forall_snoc (f : ascii -> bool) (a : string) :
  string_forall f a = true -> a <> "" ->
  exists d x, a = d ++ String x "" /\ string_forall f d = true /\ f x = true.
Proof.
  induction a as [| c a IH]; intros Hd Hne; [contradiction Hne; reflexivity|].
  cbn in Hd. apply andb_true_iff in Hd. destruct Hd as [Hc Ha].
  destruct a as [| c' a'].
  - exists "", c. auto.
  - destruct (IH Ha) as (d & x & E & Hd & Hx); [discriminate|].
    exists (String c d), x. rewrite E. cbn. rewrite Hc, Hd. auto.
Qed.

Lemma operand_ok_spec (a w : string) :
  operand_ok (a, w) = true ->
  (string_forall numeric a = true /\ a <> "")
  /\ (string_forall is_space w = true /\ w <> "").
Proof.
  unfold operand_ok. cbn [fst snd]. intros H. apply andb_true_iff in H.
  destruct H as [Ha Hw]. apply numeric_lexeme_spec in Ha. apply is_spaces_spec in Hw.
  split; assumption.
Qed.

Lemma operands_run_ends (l : list (string * string)) (u : string) :
  forallb operand_ok l = true -> ends_in_class numeric u = false ->
  ends_in_class numeric (u ++ operands_run l "") = false.
Proof.
  intros Hl Hu. destruct l as [| x l0] using rev_ind.
  - cbn. rewrite append_nil_r. exact Hu.
  - destruct x as [a w]. rewrite forallb_app in Hl. apply andb_true_iff in Hl.
    destruct Hl as [_ Hx]. cbn in Hx. rewrite andb_true_r in Hx.
    apply operand_ok_spec in Hx. destruct Hx as [_ [Hw Hne]].
    rewrite operands_run_app. cbn [operands_run]. rewrite append_nil_r.
    rewrite operands_run_tail.
    rewrite ends_in_class_append by (apply append_nonempty_r, append_nonempty_r, Hne).
    rewrite ends_in_class_append by (apply append_nonempty_r, Hne).
    rewrite ends_in_class_append by exact Hne.
    apply (ends_in_class_other is_space numeric w space_not_numeric Hw Hne).
Qed.

(** Operands after a text that does not end in a number are found again
    from the right: the same number of operands leaves no room for the
    text before them. *)
Lemma operands_run_align (l : list (string * string)) : forall l' u,
  length l = length l' ->
  forallb operand_ok l = true -> forallb operand_ok l' = true ->
  ends_in_class numeric u = false ->
  u ++ operands_run l "" = operands_run l' "" ->
  u = "".
Proof.
  induction l as [| x l IH] using rev_ind; intros l' u Hlen Hl Hl' Hu Heq.
  - destruct l'; [|discriminate]. cbn in Heq. rewrite append_nil_r in Heq. exact Heq.
  - destruct (exists_last (l := l')) as (l0' & y & ->).
    { intros ->. rewrite length_app in Hlen. cbn in Hlen. lia. }
    rewrite !length_app in Hlen. cbn in Hlen.
    rewrite forallb_app in Hl, Hl'.
    apply andb_true_iff in Hl, Hl'. destruct Hl as [Hl Hx], Hl' as [Hl' Hy].
    destruct x as [a w], y as [a' w']. cbn in Hx, Hy. rewrite andb_true_r in Hx, Hy.
    apply operand_ok_spec in Hx, Hy.
    destruct Hx as [[Ha Hane] [Hw Hwne]], Hy as [[Ha' Hane'] [Hw' Hwne']].
    rewrite !operands_run_app in Heq. cbn [operands_run] in Heq.
    rewrite (operands_run_tail l), (operands_run_tail l0'), !append_nil_r in Heq.
    rewrite <- !append_assoc in Heq.
    apply (run_split_r is_space) in Heq; try assumption.
    2:{ rewrite ends_in_class_append by exact Hane.
        apply (ends_in_class_other numeric is_space a numeric_not_space Ha Hane). }
    2:{ rewrite ends_in_class_append by exact Hane'.
        apply (ends_in_class_other numeric is_space a' numeric_not_space Ha' Hane'). }
    destruct Heq as [Heq _].
    apply (run_split_r numeric) in Heq; try assumption.
    2:{ apply operands_run_ends; assumption. }
    2:{ apply (operands_run_ends l0' "" Hl'). reflexivity. }
    destruct Heq as [Heq _].
    apply (IH l0' u); try assumption. lia.
Qed.

End Alignment.

Section Locality.

Local Open Scope string_scope.

Lemma color_op_after_space_follows (s : string) :
  color_op_after_space s = follows_space starts_with_color_op s.
Proof. induction s as [| c s IH]; cbn; [reflexivity | rewrite IH; reflexivity]. Qed.

Lemma no_op_letter_starts (c : ascii) (s : string) :
  no_op_letter c = true -> starts_with_color_op (String c s) = false.
Proof.
  unfold no_op_letter. intros H. apply negb_true_iff in H.
  repeat (apply orb_false_iff in H; destruct H as [H ?]).
  cbn. repeat match goal with E : Ascii.eqb c _ = false |- _ => rewrite E; clear E end.
  reflexivity.
Qed.

(** The test for an operator looks at two characters at most. *)
Lemma starts_with_color_op_local (z : string) (c : ascii) (t : string) :
  no_op_letter c = true ->
  starts_with_color_op (z ++ String c t) = starts_with_color_op z.
Proof.
  intros Hc. destruct z as [| c1 [| c2 z]]; cbn [append].
  - apply no_op_letter_starts, Hc.
  - unfold no_op_letter in Hc. apply negb_true_iff in Hc.
    repeat (apply orb_false_iff in Hc; destruct Hc as [Hc ?]).
    cbn. repeat match goal with E : Ascii.eqb c _ = false |- _ => rewrite E; clear E end.
    reflexivity.
  - reflexivity.
Qed.

Lemma space_before_no_op_letter (x : string) (c : ascii) (t : string) :
  no_op_letter c = true ->
  space_before starts_with_color_op x (String c t) = color_op_after_space x.
Proof.
  intros Hc. induction x as [| c0 x IH]; [reflexivity|].
  cbn [space_before color_op_after_space].
  rewrite IH, (starts_with_color_op_local x c t Hc). reflexivity.
Qed.

Lemma no_op_letters_no_op (y : string) :
  string_forall no_op_letter y = true -> color_op_after_space y = false.
Proof.
  induction y as [| c y IH]; [reflexivity|].
  cbn. intros H. apply andb_true_iff in H. destruct H as [_ Hy].
  rewrite (IH Hy), orb_false_r. destruct y as [| c' y]; [apply andb_false_r|].
  cbn in Hy. apply andb_true_iff in Hy. destruct Hy as [Hc' _].
  rewrite (no_op_letter_starts c' y Hc'). apply andb_false_r.
Qed.

Lemma color_op_after_space_no_op_letters (u y : string) :
  string_forall no_op_letter y = true ->
  color_op_after_space (u ++ y) = color_op_after_space u.
Proof.
  intros Hy. destruct y as [| c y]; [rewrite append_nil_r; reflexivity|].
  rewrite color_op_after_space_follows, follows_space_split.
  rewrite <- color_op_after_space_follows, (no_op_letters_no_op _ Hy), orb_false_r.
  cbn in Hy. apply andb_true_iff in Hy. destruct Hy as [Hc _].
  apply space_before_no_op_letter, Hc.
Qed.

Lemma operands_run_no_op_letters (l : list (string * string)) :
  forallb operand_ok l = true ->
  string_forall no_op_letter (operands_run l "") = true.
Proof.
  induction l as [| [a w] l IH]; [reflexivity|].
  cbn [forallb operands_run]. intros H. apply andb_true_iff in H. destruct H as [Hx Hl].
  apply operand_ok_spec in Hx. destruct Hx as [[Ha _] [Hw _]].
  rewrite !string_forall_append, (IH Hl).
  rewrite (string_forall_impl _ _ a numeric_no_op_letter Ha).
  rewrite (string_forall_impl _ _ w space_no_op_letter Hw). reflexivity.
Qed.

(** The operands end in a white-space character. *)
Lemma operands_run_snoc (l : list (string * string)) :
  l <> [] -> forallb operand_ok l = true ->
  exists R0 sp,
    operands_run l "" = R0 ++ String sp "" /\ is_space sp = true /\
    string_forall no_op_letter R0 = true.
Proof.
  intros Hne Hl. destruct (exists_last Hne) as (l0 & [a w] & ->).
  rewrite forallb_app in Hl. apply andb_true_iff in Hl. destruct Hl as [Hl Hx].
  cbn in Hx. rewrite andb_true_r in Hx. apply operand_ok_spec in Hx.
  destruct Hx as [[Ha _] [Hw Hwne]].
  destruct (forall_snoc is_space w Hw Hwne) as (w' & sp & -> & Hw' & Hsp).
  exists (operands_run l0 "" ++ a ++ w'), sp. split; [|split].
  - rewrite operands_run_app. cbn [operands_run].
    rewrite operands_run_tail, !append_nil_r, !append_assoc. reflexivity.
  - exact Hsp.
  - rewrite !string_forall_append, (operands_run_no_op_letters l0 Hl).
    rewrite (string_forall_impl _ _ a numeric_no_op_letter Ha).
    rewrite (string_forall_impl _ _ w' space_no_op_letter Hw'). reflexivity.
Qed.

End Locality.

Section NoMatchBefore.

Local Open Scope string_scope.

Variable number : regex.
Hypothesis number_text :
  forall segs, regex_match number segs -> numeric_lexeme (matched_text segs) = true.

Variable tail : regex.
Variable op_text : string.
Hypothesis tail_text : forall segs, regex_match tail segs -> matched_text segs = op_text.
Hypothesis op_text_starts : forall r, starts_with_color_op (op_text ++ r) = true.

(** No match starts in a text before the operands when that text has no
    operator after white space and does not end in a number. *)
Lemma no_match_before (k : nat) (u : string) (l : list (string * string))
    (t : string) prev :
  u <> "" -> ends_in_class numeric u = false -> color_op_after_space u = false ->
  length l = S k -> forallb operand_ok l = true ->
  color_op_after_space t = false ->
  match_items (operands number (S k) tail) prev (u ++ operands_run l t) = None.
Proof.
  intros Hne Hend Hu Hlen Hl Ht.
  destruct (match_items _ prev _) as [[segs rest'] |] eqn:Hm; [exfalso | reflexivity].
  apply match_items_sound in Hm. destruct Hm as [Hm Hs].
  destruct (operands_text_of number number_text tail (S k) segs Hm)
    as (l' & segs' & Hlen' & Hl' & Htail & Htext).
  rewrite Htext, (tail_text segs' Htail) in Hs.
  rewrite (operands_run_tail l), (operands_run_tail l') in Hs.
  destruct (operands_run_snoc l) as (R0 & sp & E & Hsp & HR0);
    [intros ->; discriminate | exact Hl |].
  destruct (operands_run_snoc l') as (R0' & sp' & E' & Hsp' & HR0');
    [intros ->; discriminate | exact Hl' |].
  rewrite E, E', !append_assoc in Hs. cbn [append] in Hs.
  rewrite <- (append_assoc u R0) in Hs.
  assert (X : u ++ R0 = R0').
  { apply (op_position starts_with_color_op _ _ _ _ _ _ Hs Hsp' (op_text_starts rest')).
    - rewrite (space_before_no_op_letter _ sp t (space_no_op_letter sp Hsp)).
      rewrite color_op_after_space_no_op_letters; assumption.
    - rewrite <- color_op_after_space_follows. exact Ht. }
  rewrite X in Hs. apply append_inv_head in Hs. injection Hs as -> _.
  apply Hne, (operands_run_align l l' u); try assumption.
  - congruence.
  - rewrite E, E', <- append_assoc, X. reflexivity.
Qed.

End NoMatchBefore.

(** ** One pass over a stream with one operator *)

Section OnePass.

Local Open Scope string_scope.

Variable p : regex.
Variable repl : list string -> string.
Variable starts : string -> bool.
Hypothesis p_takes : takes_a_character p = true.
Hypothesis p_ends : ends_in starts p.

Lemma re_sub_none (s : string) : follows_space starts s = false -> re_sub p repl s = s.
Proof. intros H. unfold re_sub. apply (sub_from_nothing starts); assumption. Qed.

Lemma sub_from_before (pre s : string) :
  (forall u1 u2 prev, pre = u1 ++ u2 -> u2 <> "" -> match_items p prev (u2 ++ s) = None) ->
  forall prev, exists prev',
    sub_from p repl prev 0 (pre ++ s) = pre ++ sub_from p repl prev' 0 s.
Proof.
  induction pre as [| c pre IH]; intros Hnone prev.
  - exists prev. reflexivity.
  - cbn [append sub_from].
    assert (H0 : match_items p prev (String c (pre ++ s)) = None).
    { apply (Hnone "" (String c pre) prev); [reflexivity | discriminate]. }
    rewrite H0.
    destruct (IH (fun u1 u2 prev0 (E : pre = u1 ++ u2) =>
                    Hnone (String c u1) u2 prev0 (f_equal (String c) E)) (Some c))
      as [prev' E'].
    exists prev'. rewrite E'. reflexivity.
Qed.

Lemma sub_from_match (M rest : string) segs prev :
  match_items p prev (M ++ rest) = Some (segs, rest) -> matched_text segs = M ->
  exists prev',
    sub_from p repl prev 0 (M ++ rest)
    = repl (groups p segs) ++ sub_from p repl prev' 0 rest.
Proof.
  intros Hm Ht. destruct (match_items_sound p _ _ _ _ Hm) as [Hr _].
  pose proof (matched_text_nonempty p segs p_takes Hr) as Hlen. rewrite Ht in Hlen.
  destruct M as [| c m]; [cbn in Hlen; lia|].
  cbn [append] in *. cbn [sub_from]. rewrite Hm, Ht. cbn [String.length].
  destruct (sub_from_skip p repl m rest (Some c)) as [prev' E].
  exists prev'. rewrite E. reflexivity.
Qed.

Lemma re_sub_one (pre M rest : string) segs :
  (forall u1 u2 prev, pre = u1 ++ u2 -> u2 <> "" ->
                      match_items p prev (u2 ++ M ++ rest) = None) ->
  (forall prev, match_items p prev (M ++ rest) = Some (segs, rest)) ->
  matched_text segs = M ->
  follows_space starts rest = false ->
  re_sub p repl (pre ++ M ++ rest) = pre ++ repl (groups p segs) ++ rest.
Proof.
  intros Hnone Hm Ht Hrest. unfold re_sub.
  destruct (sub_from_before pre (M ++ rest) Hnone None) as [prev1 ->].
  destruct (sub_from_match M rest segs prev1 (Hm prev1) Ht) as [prev2 ->].
  rewrite (sub_from_nothing starts); auto.
Qed.

End OnePass.

Section Contexts.

Local Open Scope string_scope.

Variable starts : string -> bool.
Hypothesis starts_op : forall s, starts s = true -> starts_with_color_op s = true.

Lemma starts_false (s : string) : starts_with_color_op s = false -> starts s = false.
Proof.
  intros H. destruct (starts s) eqn:E; [|reflexivity].
  rewrite (starts_op s E) in H. discriminate.
Qed.

Lemma space_before_le (x t : string) :
  space_before starts_with_color_op x t = false -> space_before starts x t = false.
Proof.
  induction x as [| c x IH]; [reflexivity|]. cbn. intros H.
  apply orb_false_iff in H. destruct H as [H1 H2]. rewrite (IH H2), orb_false_r.
  destruct (is_space c); [|reflexivity]. cbn in *. apply starts_false, H1.
Qed.

Lemma follows_space_le (s : string) :
  color_op_after_space s = false -> follows_space starts s = false.
Proof.
  induction s as [| c s IH]; [reflexivity|]. cbn. intros H.
  apply orb_false_iff in H. destruct H as [H1 H2]. rewrite (IH H2), orb_false_r.
  destruct (is_space c); [|reflexivity]. cbn in *. apply starts_false, H1.
Qed.

Lemma space_before_no_op_letters (Z t : string) :
  string_forall no_op_letter Z = true -> starts t = false ->
  space_before starts Z t = false.
Proof.
  intros HZ Ht. induction Z as [| c Z IH]; [reflexivity|].
  cbn in HZ. apply andb_true_iff in HZ. destruct HZ as [_ HZ].
  cbn [space_before]. rewrite (IH HZ), orb_false_r.
  destruct Z as [| c' Z]; cbn [append].
  - rewrite Ht. apply andb_false_r.
  - cbn in HZ. apply andb_true_iff in HZ. destruct HZ as [Hc' _].
    rewrite (starts_false _ (no_op_letter_starts c' (Z ++ t) Hc')). apply andb_false_r.
Qed.

(** Numbers and white space between a text without operators and a text
    that does not start with the operator: the operator is not there. *)
Lemma follows_space_context (pre Z t : string) :
  color_op_after_space pre = false ->
  string_forall no_op_letter Z = true -> Z <> "" ->
  starts t = false -> follows_space starts t = false ->
  follows_space starts (pre ++ Z ++ t) = false.
Proof.
  intros Hpre HZ Hne Ht Hft.
  rewrite follows_space_split, (follows_space_split starts Z t), Hft.
  rewrite (space_before_no_op_letters Z t HZ Ht). cbn [orb]. rewrite orb_false_r.
  apply space_before_le. destruct Z as [| c Z]; [congruence|].
  cbn in HZ. apply andb_true_iff in HZ. destruct HZ as [Hc _].
  cbn [append]. rewrite (space_before_no_op_letter pre c _ Hc). exact Hpre.
Qed.

End Contexts.

Section OperandsMatch.

Local Open Scope string_scope.

Lemma numeric_lexeme_stops (a s : string) :
  numeric_lexeme a = true -> stops Space (a ++ s) = true.
Proof.
  intros Ha. apply numeric_lexeme_spec in Ha. destruct Ha as [Ha Hne].
  destruct a as [| c a]; [congruence|].
  cbn in Ha. apply andb_true_iff in Ha. destruct Ha as [Hc _].
  cbn. rewrite (numeric_not_space c Hc). reflexivity.
Qed.

Lemma rg_lexeme_numeric (a : string) : rg_lexeme a = true -> numeric_lexeme a = true.
Proof.
  intros Ha. destruct (rg_lexeme_shape a Ha) as (i & dot & f & -> & Hi & Hf & Hne & Hdot).
  apply numeric_lexeme_spec. split.
  - rewrite !string_forall_append.
    rewrite (string_forall_impl _ numeric i digit_numeric Hi).
    rewrite (string_forall_impl _ numeric f digit_numeric Hf).
    destruct Hdot as [-> | [-> _]]; reflexivity.
  - apply append_nonempty_r, append_nonempty_r, Hne.
Qed.

Lemma gk_lexeme_numeric (a : string) : gk_lexeme a = true -> numeric_lexeme a = true.
Proof.
  intros Ha. destruct (gk_lexeme_shape a Ha) as (i & dot & f & -> & Hi & Hne & Hf & Hdot).
  apply numeric_lexeme_spec. split.
  - rewrite !string_forall_append.
    rewrite (string_forall_impl _ numeric i digit_numeric Hi).
    rewrite (string_forall_impl _ numeric f digit_numeric Hf).
    destruct Hdot as [-> | [-> _]]; reflexivity.
  - apply append_nonempty_l, Hne.
Qed.

Variable number : regex.
Variable lexeme : string -> bool.
Hypothesis lexeme_numeric : forall a, lexeme a = true -> numeric_lexeme a = true.
Hypothesis operand_whole :
  forall (p : regex) (a w s : string) segs rest,
    lexeme a = true -> is_spaces w = true -> stops Space s = true ->
    (forall prev', match_items p prev' s = Some (segs, rest)) ->
    exists segs0,
      (forall prev,
         match_items (number ++ spaces ++ p)%list prev (a ++ w ++ s) = Some (segs0, rest)) /\
      groups (number ++ spaces ++ p)%list segs0 = a :: groups p segs /\
      matched_text segs0 = a ++ w ++ matched_text segs.

Variable tail : regex.

(** Well-formed operands, then a text of the tail: the pattern matches,
    its groups are the operands. *)
Lemma operands_match (t rest : string) (tsegs : list string) :
  (forall prev, match_items tail prev t = Some (tsegs, rest)) ->
  stops Space t = true ->
  forall l : list (string * string),
    forallb (fun aw => lexeme (fst aw) && is_spaces (snd aw)) l = true ->
    exists segs,
      (forall prev, match_items (operands number (length l) tail) prev (operands_run l t)
                    = Some (segs, rest)) /\
      groups (operands number (length l) tail) segs
      = (map fst l ++ groups tail tsegs)%list /\
      matched_text segs = operands_run l (matched_text tsegs).
Proof.
  intros Htail Hstop. induction l as [| [a w] l IH]; intros Hl.
  - exists tsegs. auto.
  - cbn [forallb fst snd] in Hl. apply andb_true_iff in Hl. destruct Hl as [Haw Hl].
    apply andb_true_iff in Haw. destruct Haw as [Ha Hw].
    destruct (IH Hl) as (segs & Hm & Hg & Ht).
    destruct (operand_whole (operands number (length l) tail) a w (operands_run l t)
                segs rest Ha Hw) as (segs0 & Hm0 & Hg0 & Ht0).
    { destruct l as [| [a' w'] l']; [exact Hstop|].
      cbn [forallb fst snd] in Hl. apply andb_true_iff in Hl. destruct Hl as [Haw' _].
      apply andb_true_iff in Haw'. destruct Haw' as [Ha' _].
      apply numeric_lexeme_stops, lexeme_numeric, Ha'. }
    { exact Hm. }
    exists segs0. split; [exact Hm0 | split].
    + cbn [length operands]. rewrite Hg0, Hg. reflexivity.
    + rewrite Ht0, Ht. reflexivity.
Qed.

Lemma operands_ok (l : list (string * string)) :
  forallb (fun aw => lexeme (fst aw) && is_spaces (snd aw)) l = true ->
  forallb operand_ok l = true.
Proof.
  induction l as [| [a w] l IH]; [reflexivity|]. cbn [forallb fst snd]. intros H.
  apply andb_true_iff in H. destruct H as [Haw Hl].
  apply andb_true_iff in Haw. destruct Haw as [Ha Hw].
  unfold operand_ok at 1. cbn [fst snd].
  rewrite (lexeme_numeric a Ha), Hw, (IH Hl). reflexivity.
Qed.

Hypothesis number_text :
  forall segs, regex_match number segs -> numeric_lexeme (matched_text segs) = true.

Variable op_text : string.
Hypothesis tail_text : forall segs, regex_match tail segs -> matched_text segs = op_text.
Hypothesis op_text_starts : forall r, starts_with_color_op (op_text ++ r) = true.
Hypothesis op_text_stops : forall r, stops Space (op_text ++ r) = true.
Hypothesis op_text_no_space : no_space op_text = true.

Variable repl : list string -> string.
Variable starts : string -> bool.
Hypothesis starts_op : forall s, starts s = true -> starts_with_color_op s = true.

Lemma operands_take (k : nat) : takes_a_character (operands number (S k) tail) = true.
Proof.
  cbn [operands]. unfold takes_a_character.
  rewrite existsb_app. cbn. apply orb_true_r.
Qed.

Lemma operands_run_append (l : list (string * string)) (x y : string) :
  operands_run l (x ++ y) = operands_run l x ++ y.
Proof.
  rewrite (operands_run_tail l (x ++ y)), (operands_run_tail l x), append_assoc.
  reflexivity.
Qed.

(** The pass of an operator over a stream that has the operator once,
    after well-formed operands: the operator and its operands are
    replaced, the texts before and after are kept. *)
Lemma pass_rewrites_operator (k : nat) (pre rest : string) (l : list (string * string))
    (tsegs : list string) :
  ends_in starts (operands number (S k) tail) ->
  (forall prev, match_items tail prev (op_text ++ rest) = Some (tsegs, rest)) ->
  groups tail tsegs = [] ->
  color_op_after_space pre = false -> ends_in_class numeric pre = false ->
  length l = S k ->
  forallb (fun aw => lexeme (fst aw) && is_spaces (snd aw)) l = true ->
  color_op_after_space rest = false ->
  re_sub (operands number (S k) tail) repl (pre ++ operands_run l (op_text ++ rest))
  = pre ++ repl (map fst l) ++ rest.
Proof.
  intros Hends Htail Hgroups Hpre Hend Hlen Hl Hrest.
  destruct (operands_match (op_text ++ rest) rest tsegs Htail (op_text_stops rest) l Hl)
    as (segs & Hm & Hg & Ht).
  rewrite Hlen in Hm, Hg. rewrite Hgroups, app_nil_r in Hg.
  assert (Htt : matched_text tsegs = op_text).
  { destruct (match_items_sound tail _ _ _ _ (Htail None)) as [Hr _].
    apply tail_text, Hr. }
  rewrite Htt in Ht.
  rewrite operands_run_append, <- Hg.
  apply (re_sub_one _ repl starts (operands_take k) Hends pre _ rest segs).
  - intros u1 u2 prev -> Hne. rewrite <- operands_run_append.
    apply (no_match_before number number_text tail op_text tail_text op_text_starts).
    + exact Hne.
    + rewrite ends_in_class_append in Hend by exact Hne. exact Hend.
    + apply (color_op_after_space_suffix u1 u2 Hpre).
    + exact Hlen.
    + apply operands_ok, Hl.
    + rewrite color_op_after_space_skip by exact op_text_no_space. exact Hrest.
  - intros prev. rewrite <- operands_run_append. apply Hm.
  - exact Ht.
  - apply follows_space_le; assumption.
Qed.

End OperandsMatch.

Section SixPasses.

Local Open Scope string_scope.

Lemma starts_with_rg_op (s : string) :
  starts_with "rg" s = true -> starts_with_color_op s = true.
Proof.
  destruct s as [| c1 [| c2 s]]; cbn; intros H; try discriminate.
  - rewrite andb_false_r in H. discriminate.
  - apply andb_true_iff in H. destruct H as [H1 H2].
    rewrite andb_true_r in H2. apply Ascii.eqb_eq in H1, H2. subst. reflexivity.
Qed.

Lemma starts_with_RG_op (s : string) :
  starts_with "RG" s = true -> starts_with_color_op s = true.
Proof.
  destruct s as [| c1 [| c2 s]]; cbn; intros H; try discriminate.
  - rewrite andb_false_r in H. discriminate.
  - apply andb_true_iff in H. destruct H as [H1 H2].
    rewrite andb_true_r in H2. apply Ascii.eqb_eq in H1, H2. subst. reflexivity.
Qed.

Lemma starts_with_letter_op (c : ascii) :
  (forall r, starts_with_color_op (String c r) = true) ->
  forall s, starts_with (String c "") s = true -> starts_with_color_op s = true.
Proof.
  intros Hc s. destruct s as [| c1 s]; cbn; intros H; [discriminate|].
  rewrite andb_true_r in H. apply Ascii.eqb_eq in H. subst. apply Hc.
Qed.

Lemma tail_two_match (c1 c2 : ascii) (rest : string) prev :
  match_items [Atom (Lit c1) One; Atom (Lit c2) One] prev (String c1 (String c2 rest))
  = Some ([String c1 ""; String c2 ""], rest).
Proof. apply step_one, step_one. reflexivity. Qed.

Lemma tail_two_text (c1 c2 : ascii) segs :
  regex_match [Atom (Lit c1) One; Atom (Lit c2) One] segs ->
  matched_text segs = String c1 (String c2 "").
Proof.
  intros Hm. rewrite <- (append_nil_r (matched_text segs)).
  apply two_letters_text, Hm.
Qed.

Lemma tail_one_match (c : ascii) (rest : string) prev :
  is_word c = true -> is_word_at (first_char rest) = false ->
  match_items [Atom (Lit c) One; WordBoundary] prev (String c rest)
  = Some ([String c ""; ""], rest).
Proof.
  intros Hc Hrest. apply step_one, step_boundary; [|reflexivity].
  cbn [is_word_at]. rewrite Hc, Hrest. reflexivity.
Qed.

Lemma tail_one_text (c : ascii) segs :
  regex_match [Atom (Lit c) One; WordBoundary] segs ->
  matched_text segs = String c "".
Proof.
  intros Hm. rewrite <- (append_nil_r (matched_text segs)).
  apply one_letter_text, Hm.
Qed.

Variable p : regex.
Variable starts : string -> bool.
Variable repl : list string -> string.
Hypothesis p_takes : takes_a_character p = true.
Hypothesis p_ends : ends_in starts p.
Hypothesis starts_op : forall s, starts s = true -> starts_with_color_op s = true.

(** A pass keeps a stream whose one operator is another one. *)
Lemma pass_keeps (pre F op rest : string) :
  color_op_after_space pre = false ->
  string_forall no_op_letter F = true -> F <> "" ->
  no_space op = true -> (forall r, starts (op ++ r) = false) ->
  color_op_after_space rest = false ->
  re_sub p repl (pre ++ F ++ op ++ rest) = pre ++ F ++ op ++ rest.
Proof.
  intros Hpre HF Hne Hop Hstarts Hrest.
  apply (re_sub_none p repl starts p_takes p_ends).
  apply (follows_space_context starts starts_op); try assumption.
  - apply Hstarts.
  - rewrite follows_space_skip by exact Hop.
    apply (follows_space_le starts starts_op), Hrest.
Qed.

Lemma pass_keeps_operands (pre op rest : string) (l : list (string * string)) :
  color_op_after_space pre = false ->
  forallb operand_ok l = true -> l <> [] ->
  no_space op = true -> (forall r, starts (op ++ r) = false) ->
  color_op_after_space rest = false ->
  re_sub p repl (pre ++ operands_run l (op ++ rest)) = pre ++ operands_run l (op ++ rest).
Proof.
  intros Hpre Hl Hne Hop Hstarts Hrest. rewrite operands_run_tail.
  apply pass_keeps; try assumption.
  - apply operands_run_no_op_letters, Hl.
  - destruct l as [| [a w] l]; [congruence|].
    cbn [forallb] in Hl. apply andb_true_iff in Hl. destruct Hl as [Hx _].
    apply operand_ok_spec in Hx. destruct Hx as [[_ Ha] _].
    cbn [operands_run]. apply append_nonempty_l, Ha.
Qed.

End SixPasses.

Section Replacements.

Local Open Scope string_scope.

Lemma format_4f_chars (g : ascii -> bool) (q : Q) :
  (forall c, is_digit c = true -> g c = true) -> g "."%char = true -> g "-"%char = true ->
  string_forall g (format_4f q) = true.
Proof.
  intros Hg Hdot Hminus. unfold format_4f.
  set (n := round_half_even (Qabs q * 10000)).
  assert (Hf : (0 <= n mod 10000 < 10000)%Z) by (apply Z.mod_pos_bound; lia).
  set (frac := (n mod 10000)%Z) in *.
  assert (Hd1 : (0 <= frac / 1000 <= 9)%Z)
    by (split; [apply Z.div_pos; lia | apply Z.lt_succ_r, Z.div_lt_upper_bound; lia]).
  assert (Hd2 : (0 <= frac / 100 mod 10 <= 9)%Z)
    by (pose proof (Z.mod_pos_bound (frac / 100) 10); lia).
  assert (Hd3 : (0 <= frac / 10 mod 10 <= 9)%Z)
    by (pose proof (Z.mod_pos_bound (frac / 10) 10); lia).
  assert (Hd4 : (0 <= frac mod 10 <= 9)%Z)
    by (pose proof (Z.mod_pos_bound frac 10); lia).
  rewrite !string_forall_append.
  destruct (string_of_nonneg_digits (n / 10000)) as [Hdig _].
  rewrite (string_forall_impl is_digit g _ Hg Hdig).
  cbn [string_forall].
  rewrite (Hg _ (proj1 (digit_char_digit _ Hd1))),
    (Hg _ (proj1 (digit_char_digit _ Hd2))),
    (Hg _ (proj1 (digit_char_digit _ Hd3))),
    (Hg _ (proj1 (digit_char_digit _ Hd4))), Hdot.
  destruct (Qltb q 0); cbn; rewrite ?Hminus; reflexivity.
Qed.

Lemma format_4f_no_op_letters (q : Q) : string_forall no_op_letter (format_4f q) = true.
Proof.
  apply format_4f_chars; [|reflexivity..].
  intros c Hc. apply numeric_no_op_letter, digit_numeric, Hc.
Qed.

Lemma replace_rgb_shape (bg : rgb8) (m : list string) (operator : string) :
  exists F, _replace_rgb bg m operator = F ++ operator
            /\ string_forall no_op_letter F = true /\ F <> "".
Proof.
  unfold _replace_rgb. destruct (_transform_rgb bg _ _ _) as [[new_r new_g] new_b].
  exists (format_4f new_r ++ " " ++ format_4f new_g ++ " " ++ format_4f new_b ++ " ").
  split; [|split].
  - rewrite !append_assoc. reflexivity.
  - rewrite !string_forall_append, !format_4f_no_op_letters. reflexivity.
  - do 5 apply append_nonempty_r. discriminate.
Qed.

Lemma replace_gray_shape (bg : rgb8) (m : list string) (operator : string) :
  exists F, _replace_gray bg m operator = F ++ operator ++ " "
            /\ string_forall no_op_letter F = true /\ F <> "".
Proof.
  unfold _replace_gray.
  exists (format_4f (_transform_grayscale bg (float (group m 1))) ++ " ").
  split; [|split].
  - rewrite !append_assoc. reflexivity.
  - rewrite !string_forall_append, !format_4f_no_op_letters. reflexivity.
  - apply append_nonempty_r. discriminate.
Qed.

Lemma replace_cmyk_shape (bg : rgb8) (m : list string) (operator : string) :
  exists F, _replace_cmyk bg m operator = F ++ operator ++ " "
            /\ string_forall no_op_letter F = true /\ F <> "".
Proof.
  unfold _replace_cmyk.
  destruct (_transform_cmyk bg _ _ _ _) as [[[new_c new_m] new_y] new_k].
  exists (format_4f new_c ++ " " ++ format_4f new_m ++ " " ++ format_4f new_y ++ " "
          ++ format_4f new_k ++ " ").
  split; [|split].
  - rewrite !append_assoc. reflexivity.
  - rewrite !string_forall_append, !format_4f_no_op_letters. reflexivity.
  - do 7 apply append_nonempty_r. discriminate.
Qed.

End Replacements.

(** ** A well-formed operator in a stream without other operators *)

(** One of the six passes, tried in turn, keeps the stream
    [pre ++ F ++ op ++ rest]. *)
Ltac keep_pass pre F op rest Hpre HF HFne Hrest :=
  first
    [ rewrite (pass_keeps pattern_rg (starts_with "rg") _ eq_refl
                 pattern_rg_ends_in starts_with_rg_op
                 pre F op rest Hpre HF HFne eq_refl (fun r => eq_refl) Hrest)
    | rewrite (pass_keeps pattern_RG (starts_with "RG") _ eq_refl
                 pattern_RG_ends_in starts_with_RG_op
                 pre F op rest Hpre HF HFne eq_refl (fun r => eq_refl) Hrest)
    | rewrite (pass_keeps (pattern_gray "g") (starts_with "g") _ eq_refl
                 (pattern_gray_ends_in "g") (starts_with_letter_op "g" (fun r => eq_refl))
                 pre F op rest Hpre HF HFne eq_refl (fun r => eq_refl) Hrest)
    | rewrite (pass_keeps (pattern_gray "G") (starts_with "G") _ eq_refl
                 (pattern_gray_ends_in "G") (starts_with_letter_op "G" (fun r => eq_refl))
                 pre F op rest Hpre HF HFne eq_refl (fun r => eq_refl) Hrest)
    | rewrite (pass_keeps (pattern_cmyk "k") (starts_with "k") _ eq_refl
                 (pattern_cmyk_ends_in "k") (starts_with_letter_op "k" (fun r => eq_refl))
                 pre F op rest Hpre HF HFne eq_refl (fun r => eq_refl) Hrest)
    | rewrite (pass_keeps (pattern_cmyk "K") (starts_with "K") _ eq_refl
                 (pattern_cmyk_ends_in "K") (starts_with_letter_op "K" (fun r => eq_refl))
                 pre F op rest Hpre HF HFne eq_refl (fun r => eq_refl) Hrest) ].

Lemma operands_run_nonempty (l : list (string * string)) :
  forallb operand_ok l = true -> l <> [] -> operands_run l "" <> ""%string.
Proof.
  intros Hl Hne. destruct l as [| [a w] l]; [congruence|].
  cbn [forallb] in Hl. apply andb_true_iff in Hl. destruct Hl as [Hx _].
  apply operand_ok_spec in Hx. destruct Hx as [[_ Ha] _].
  cbn [operands_run]. apply append_nonempty_l, Ha.
Qed.

Lemma no_word_no_op (rest : string) :
  is_word_at (first_char rest) = false -> starts_with_color_op rest = false.
Proof.
  destruct rest as [| c r]; [reflexivity|]. cbn [first_char is_word_at].
  destruct c as [[] [] [] [] [] [] [] []]; cbn; intros H; try discriminate H; reflexivity.
Qed.

Lemma blank_then_no_op (rest : string) :
  is_word_at (first_char rest) = false -> color_op_after_space rest = false ->
  color_op_after_space (" " ++ rest) = false.
Proof.
  intros Hw Hrest. cbn. rewrite (no_word_no_op rest Hw), Hrest. reflexivity.
Qed.

(** An RGB operator [rg] or [RG] after three well-formed operands, in a
    stream that has no other colour operator after white space and whose
    text before the operands does not end in a digit or a dot: the operator
    with its operands is replaced by [_replace_rgb] of the three operands,
    and the text before and after it is kept as it is. *)
Theorem rgb_operator_is_mapped (bg : rgb8) (stroking : bool)
    (pre a w1 b w2 c w3 rest : string) :
  color_op_after_space pre = false -> ends_in_class numeric pre = false ->
  rg_lexeme a = true -> rg_lexeme b = true -> rg_lexeme c = true ->
  is_spaces w1 = true -> is_spaces w2 = true -> is_spaces w3 = true ->
  color_op_after_space rest = false ->
  _transform_content_stream bg
    (pre ++ a ++ w1 ++ b ++ w2 ++ c ++ w3 ++ (if stroking then "RG" else "rg") ++ rest)
  = (pre ++ _replace_rgb bg [a; b; c] (if stroking then "RG" else "rg") ++ rest)%string.
Proof.
  intros Hpre Hend Ha Hb Hc Hw1 Hw2 Hw3 Hrest.
  set (l := [(a, w1); (b, w2); (c, w3)]).
  assert (Hl : forallb (fun aw => rg_lexeme (fst aw) && is_spaces (snd aw)) l = true)
    by (cbn; rewrite Ha, Hb, Hc, Hw1, Hw2, Hw3; reflexivity).
  pose proof (operands_ok rg_lexeme rg_lexeme_numeric l Hl) as Hok.
  pose proof (operands_run_no_op_letters l Hok) as HF0.
  assert (HF0ne : operands_run l "" <> ""%string)
    by (apply operands_run_nonempty; [exact Hok | discriminate]).
  unfold _transform_content_stream.
  destruct stroking.
  - change (pre ++ a ++ w1 ++ b ++ w2 ++ c ++ w3 ++ "RG" ++ rest)%string
      with (pre ++ operands_run l ("RG" ++ rest))%string.
    rewrite (operands_run_tail l).
    keep_pass pre (operands_run l "") "RG"%string rest Hpre HF0 HF0ne Hrest.
    rewrite <- (operands_run_tail l).
    change pattern_RG
      with (operands number_rg 3 [Atom (Lit "R") One; Atom (Lit "G") One]).
    rewrite (pass_rewrites_operator number_rg rg_lexeme rg_lexeme_numeric operand_rg_whole
               [Atom (Lit "R") One; Atom (Lit "G") One] number_rg_text "RG"
               (tail_two_text "R" "G") (fun r => eq_refl) (fun r => eq_refl) eq_refl
               _ (starts_with "RG") starts_with_RG_op 2 pre rest l
               ["R"; "G"]%string pattern_RG_ends_in (tail_two_match "R" "G" rest)
               eq_refl Hpre Hend eq_refl Hl Hrest).
    change (map fst l) with [a; b; c].
    destruct (replace_rgb_shape bg [a; b; c] "RG") as (F & EF & HF & HFne).
    rewrite EF, append_assoc.
    do 4 keep_pass pre F "RG"%string rest Hpre HF HFne Hrest.
    reflexivity.
  - change (pre ++ a ++ w1 ++ b ++ w2 ++ c ++ w3 ++ "rg" ++ rest)%string
      with (pre ++ operands_run l ("rg" ++ rest))%string.
    change pattern_rg
      with (operands number_rg 3 [Atom (Lit "r") One; Atom (Lit "g") One]).
    rewrite (pass_rewrites_operator number_rg rg_lexeme rg_lexeme_numeric operand_rg_whole
               [Atom (Lit "r") One; Atom (Lit "g") One] number_rg_text "rg"
               (tail_two_text "r" "g") (fun r => eq_refl) (fun r => eq_refl) eq_refl
               _ (starts_with "rg") starts_with_rg_op 2 pre rest l
               ["r"; "g"]%string pattern_rg_ends_in (tail_two_match "r" "g" rest)
               eq_refl Hpre Hend eq_refl Hl Hrest).
    change (map fst l) with [a; b; c].
    destruct (replace_rgb_shape bg [a; b; c] "rg") as (F & EF & HF & HFne).
    rewrite EF, append_assoc.
    do 5 keep_pass pre F "rg"%string rest Hpre HF HFne Hrest.
    reflexivity.
Qed.

Lemma rgb_operator_is_mapped_black_text :
  color_op_after_space "BT /F1 12 Tf " = false /\
  ends_in_class numeric "BT /F1 12 Tf " = false /\
  rg_lexeme "0" = true /\ rg_lexeme "0.0" = true /\ rg_lexeme ".1" = true /\
  is_spaces " " = true /\
  color_op_after_space " (Hello) Tj ET" = false /\
  _transform_content_stream (bg_color "claude") "BT /F1 12 Tf 0 0.0 .1 rg (Hello) Tj ET"
  = "BT /F1 12 Tf 0.0000 0.0000 0.7833 rg (Hello) Tj ET"%string.
Proof.
  repeat (split; [reflexivity|]).
  refine (eq_trans
            (rgb_operator_is_mapped (bg_color "claude") false "BT /F1 12 Tf "
               "0" " " "0.0" " " ".1" " " " (Hello) Tj ET"
               eq_refl eq_refl eq_refl eq_refl eq_refl eq_refl eq_refl eq_refl eq_refl) _).
  vm_compute. reflexivity.
Defined.

(** A gray operator [g] or [G] after one well-formed operand, followed by
    the end of the stream or by a character that is no letter, digit or
    underscore, in a stream that has no other colour operator after white
    space and whose text before the operand does not end in a digit or a
    dot: the operator with its operand is replaced by [_replace_gray] of the
    operand, and the text before and after it is kept as it is. *)
Theorem gray_operator_is_mapped (bg : rgb8) (stroking : bool) (pre a w rest : string) :
  color_op_after_space pre = false -> ends_in_class numeric pre = false ->
  gk_lexeme a = true -> is_spaces w = true ->
  is_word_at (first_char rest) = false -> color_op_after_space rest = false ->
  _transform_content_stream bg (pre ++ a ++ w ++ (if stroking then "G" else "g") ++ rest)
  = (pre ++ _replace_gray bg [a] (if stroking then "G" else "g") ++ rest)%string.
Proof.
  intros Hpre Hend Ha Hw Hword Hrest.
  set (l := [(a, w)]).
  assert (Hl : forallb (fun aw => gk_lexeme (fst aw) && is_spaces (snd aw)) l = true)
    by (cbn; rewrite Ha, Hw; reflexivity).
  pose proof (operands_ok gk_lexeme gk_lexeme_numeric l Hl) as Hok.
  pose proof (operands_run_no_op_letters l Hok) as HF0.
  assert (HF0ne : operands_run l "" <> ""%string)
    by (apply operands_run_nonempty; [exact Hok | discriminate]).
  pose proof (blank_then_no_op rest Hword Hrest) as Hrest'.
  unfold _transform_content_stream.
  destruct stroking.
  - change (pre ++ a ++ w ++ "G" ++ rest)%string
      with (pre ++ operands_run l ("G" ++ rest))%string.
    rewrite (operands_run_tail l).
    do 3 keep_pass pre (operands_run l "") "G"%string rest Hpre HF0 HF0ne Hrest.
    rewrite <- (operands_run_tail l).
    change (pattern_gray "G")
      with (operands number_gk 1 [Atom (Lit "G") One; WordBoundary]).
    rewrite (pass_rewrites_operator number_gk gk_lexeme gk_lexeme_numeric operand_gk_whole
               [Atom (Lit "G") One; WordBoundary] number_gk_text "G"
               (tail_one_text "G") (fun r => eq_refl) (fun r => eq_refl) eq_refl
               _ (starts_with "G") (starts_with_letter_op "G" (fun r => eq_refl)) 0 pre rest l
               ["G"; ""]%string (pattern_gray_ends_in "G")
               (fun prev => tail_one_match "G" rest prev eq_refl Hword)
               eq_refl Hpre Hend eq_refl Hl Hrest).
    change (map fst l) with [a].
    destruct (replace_gray_shape bg [a] "G") as (F & EF & HF & HFne).
    rewrite EF, !append_assoc.
    do 2 keep_pass pre F "G"%string (" " ++ rest)%string Hpre HF HFne Hrest'.
    reflexivity.
  - change (pre ++ a ++ w ++ "g" ++ rest)%string
      with (pre ++ operands_run l ("g" ++ rest))%string.
    rewrite (operands_run_tail l).
    do 2 keep_pass pre (operands_run l "") "g"%string rest Hpre HF0 HF0ne Hrest.
    rewrite <- (operands_run_tail l).
    change (pattern_gray "g")
      with (operands number_gk 1 [Atom (Lit "g") One; WordBoundary]).
    rewrite (pass_rewrites_operator number_gk gk_lexeme gk_lexeme_numeric operand_gk_whole
               [Atom (Lit "g") One; WordBoundary] number_gk_text "g"
               (tail_one_text "g") (fun r => eq_refl) (fun r => eq_refl) eq_refl
               _ (starts_with "g") (starts_with_letter_op "g" (fun r => eq_refl)) 0 pre rest l
               ["g"; ""]%string (pattern_gray_ends_in "g")
               (fun prev => tail_one_match "g" rest prev eq_refl Hword)
               eq_refl Hpre Hend eq_refl Hl Hrest).
    change (map fst l) with [a].
    destruct (replace_gray_shape bg [a] "g") as (F & EF & HF & HFne).
    rewrite EF, !append_assoc.
    do 3 keep_pass pre F "g"%string (" " ++ rest)%string Hpre HF HFne Hrest'.
    reflexivity.
Qed.

Lemma gray_operator_is_mapped_white_fill :
  color_op_after_space "q " = false /\
  ends_in_class numeric "q " = false /\
  gk_lexeme "1" = true /\ is_spaces " " = true /\
  is_word_at (first_char " 0 0 612 792 re f Q") = false /\
  color_op_after_space " 0 0 612 792 re f Q" = false /\
  _transform_content_stream (bg_color "classic") "q 1 g 0 0 612 792 re f Q"
  = "q 0.0000 g  0 0 612 792 re f Q"%string.
Proof.
  repeat (split; [reflexivity|]).
  refine (eq_trans
            (gray_operator_is_mapped (bg_color "classic") false "q " "1" " "
               " 0 0 612 792 re f Q" eq_refl eq_refl eq_refl eq_refl eq_refl eq_refl) _).
  vm_compute. reflexivity.
Defined.

(** A CMYK operator [k] or [K] after four well-formed operands, followed by
    the end of the stream or by a character that is no letter, digit or
    underscore, in a stream that has no other colour operator after white
    space and whose text before the operands does not end in a digit or a
    dot: the operator with its operands is replaced by [_replace_cmyk] of
    the four operands, and the text before and after it is kept as it is. *)
Theorem cmyk_operator_is_mapped (bg : rgb8) (stroking : bool)
    (pre a w1 b w2 c w3 d w4 rest : string) :
  color_op_after_space pre = false -> ends_in_class numeric pre = false ->
  gk_lexeme a = true -> gk_lexeme b = true -> gk_lexeme c = true -> gk_lexeme d = true ->
  is_spaces w1 = true -> is_spaces w2 = true -> is_spaces w3 = true ->
  is_spaces w4 = true ->
  is_word_at (first_char rest) = false -> color_op_after_space rest = false ->
  _transform_content_stream bg
    (pre ++ a ++ w1 ++ b ++ w2 ++ c ++ w3 ++ d ++ w4
     ++ (if stroking then "K" else "k") ++ rest)
  = (pre ++ _replace_cmyk bg [a; b; c; d] (if stroking then "K" else "k") ++ rest)%string.
Proof.
  intros Hpre Hend Ha Hb Hc Hd Hw1 Hw2 Hw3 Hw4 Hword Hrest.
  set (l := [(a, w1); (b, w2); (c, w3); (d, w4)]).
  assert (Hl : forallb (fun aw => gk_lexeme (fst aw) && is_spaces (snd aw)) l = true)
    by (cbn; rewrite Ha, Hb, Hc, Hd, Hw1, Hw2, Hw3, Hw4; reflexivity).
  pose proof (operands_ok gk_lexeme gk_lexeme_numeric l Hl) as Hok.
  pose proof (operands_run_no_op_letters l Hok) as HF0.
  assert (HF0ne : operands_run l "" <> ""%string)
    by (apply operands_run_nonempty; [exact Hok | discriminate]).
  pose proof (blank_then_no_op rest Hword Hrest) as Hrest'.
  unfold _transform_content_stream.
  destruct stroking.
  - change (pre ++ a ++ w1 ++ b ++ w2 ++ c ++ w3 ++ d ++ w4 ++ "K" ++ rest)%string
      with (pre ++ operands_run l ("K" ++ rest))%string.
    rewrite (operands_run_tail l).
    do 5 keep_pass pre (operands_run l "") "K"%string rest Hpre HF0 HF0ne Hrest.
    rewrite <- (operands_run_tail l).
    change (pattern_cmyk "K")
      with (operands number_gk 4 [Atom (Lit "K") One; WordBoundary]).
    rewrite (pass_rewrites_operator number_gk gk_lexeme gk_lexeme_numeric operand_gk_whole
               [Atom (Lit "K") One; WordBoundary] number_gk_text "K"
               (tail_one_text "K") (fun r => eq_refl) (fun r => eq_refl) eq_refl
               _ (starts_with "K") (starts_with_letter_op "K" (fun r => eq_refl)) 3 pre rest l
               ["K"; ""]%string (pattern_cmyk_ends_in "K")
               (fun prev => tail_one_match "K" rest prev eq_refl Hword)
               eq_refl Hpre Hend eq_refl Hl Hrest).
    reflexivity.
  - change (pre ++ a ++ w1 ++ b ++ w2 ++ c ++ w3 ++ d ++ w4 ++ "k" ++ rest)%string
      with (pre ++ operands_run l ("k" ++ rest))%string.
    rewrite (operands_run_tail l).
    do 4 keep_pass pre (operands_run l "") "k"%string rest Hpre HF0 HF0ne Hrest.
    rewrite <- (operands_run_tail l).
    change (pattern_cmyk "k")
      with (operands number_gk 4 [Atom (Lit "k") One; WordBoundary]).
    rewrite (pass_rewrites_operator number_gk gk_lexeme gk_lexeme_numeric operand_gk_whole
               [Atom (Lit "k") One; WordBoundary] number_gk_text "k"
               (tail_one_text "k") (fun r => eq_refl) (fun r => eq_refl) eq_refl
               _ (starts_with "k") (starts_with_letter_op "k" (fun r => eq_refl)) 3 pre rest l
               ["k"; ""]%string (pattern_cmyk_ends_in "k")
               (fun prev => tail_one_match "k" rest prev eq_refl Hword)
               eq_refl Hpre Hend eq_refl Hl Hrest).
    change (map fst l) with [a; b; c; d].
    destruct (replace_cmyk_shape bg [a; b; c; d] "k") as (F & EF & HF & HFne).
    rewrite EF, !append_assoc.
    keep_pass pre F "k"%string (" " ++ rest)%string Hpre HF HFne Hrest'.
    reflexivity.
Qed.

Lemma cmyk_operator_is_mapped_black_stroke :
  color_op_after_space "" = false /\
  ends_in_class numeric "" = false /\
  gk_lexeme "0" = true /\ gk_lexeme "1" = true /\ is_spaces " " = true /\
  is_word_at (first_char "") = false /\
  color_op_after_space "" = false /\
  _transform_content_stream (bg_color "classic") "0 0 0 1 K"
  = "0.0000 0.0000 0.0000 0.0200 K "%string.
Proof.
  repeat (split; [reflexivity|]).
  refine (eq_trans
            (cmyk_operator_is_mapped (bg_color "classic") true ""
               "0" " " "0" " " "0" " " "1" " " ""
               eq_refl eq_refl eq_refl eq_refl eq_refl eq_refl eq_refl eq_refl eq_refl
               eq_refl eq_refl eq_refl) _).
  vm_compute. reflexivity.
Defined.

(** * Further properties of the page loop *)

(** A page without a [/MediaBox] of its own, or with one of fewer than four
    numbers, is left exactly as it was: no background is added and its
    content is not rewritten.  One warning is printed and [_process_page]
    returns. *)
Theorem page_without_media_box {L : PdfLibrary} (bg : rgb8) (p : Page)
    (printed : list exn) :
  match MediaBox p with
  | None => True
  | Some box => (length box < 4)%nat
  end ->
  exists e, _process_page bg (mk_state p printed) = (mk_state p (printed ++ [e]), Return tt).
Proof.
  intros H. unfold _process_page, try_except, process_page_body, bind, get_MediaBox.
  cbn [page]. destruct (MediaBox p) as [box |].
  - destruct box as [| x0 [| y0 [| x1 [| y1 box]]]]; cbn in H; try lia;
      eexists; cbn; reflexivity.
  - eexists. cbn. reflexivity.
Qed.

Lemma page_without_media_box_boxless :
  match MediaBox (boxless_page "0 g") with
  | None => True
  | Some box => (length box < 4)%nat
  end /\
  exists e,
    @_process_page recording_library (bg_color "classic")
      (mk_state (boxless_page "0 g") [])
    = (mk_state (boxless_page "0 g") ([] ++ [e]), Return tt).
Proof.
  split; [exact I|].
  apply (@page_without_media_box recording_library (bg_color "classic")
           (boxless_page "0 g") []).
  exact I.
Defined.

(** ** The media box *)

Lemma process_page_body_MediaBox {L : PdfLibrary} (bg : rgb8) (st : state) :
  underlay_keeps_MediaBox L ->
  MediaBox (page (fst (process_page_body bg st))) = MediaBox (page st).
Proof.
  intros HL. unfold process_page_body, bind, get_MediaBox, index, lift, ret, raise,
    get_page, on_page, set_Contents.
  destruct (MediaBox (page st)) as [box |] eqn:Hbox; cbn -[_create_background_pdf];
    [|exact Hbox].
  destruct box as [| x0 [| y0 [| x1 [| y1 more]]]]; cbn -[_create_background_pdf];
    try exact Hbox.
  match goal with
  | |- context [_create_background_pdf bg ?w ?h] =>
      destruct (_create_background_pdf bg w h) as [doc | e];
        cbn -[_create_background_pdf]; [|exact Hbox]
  end.
  destruct (first_page doc) as [bgp | e]; cbn; [|exact Hbox].
  match goal with
  | |- context [add_underlay ?b ?r ?q] =>
      pose proof (HL b r q) as Hkeep; destruct (add_underlay b r q) as [p1 r1]
  end.
  cbn in Hkeep |- *. rewrite Hbox in Hkeep.
  destruct r1 as [u | e]; cbn; [|exact Hkeep].
  destruct (close doc) as [u' | e]; cbn; [|exact Hkeep].
  destruct (Contents p1) as [c |]; cbn; [|exact Hkeep].
  destruct (read_contents c) as [all_content | e]; cbn; [|exact Hkeep].
  match goal with
  | |- context [new_stream ?d] => destruct (new_stream d) as [stream | e]
  end; cbn; exact Hkeep.
Qed.

(** With a library whose [add_underlay] leaves the media box alone, a page
    has the same media box after [_process_page] as before, whatever its
    content and whether or not a step raises. *)
Theorem process_page_keeps_MediaBox {L : PdfLibrary} (bg : rgb8) (p : Page) :
  underlay_keeps_MediaBox L -> MediaBox (page_after bg p) = MediaBox p.
Proof.
  intros HL. unfold page_after, _process_page, try_except.
  pose proof (process_page_body_MediaBox bg (mk_state p []) HL) as H.
  destruct (process_page_body bg (mk_state p [])) as [st' [u | e]]; exact H.
Qed.

Lemma recording_library_keeps_MediaBox : underlay_keeps_MediaBox recording_library.
Proof. intros b r p. reflexivity. Defined.

Lemma process_page_keeps_MediaBox_text :
  underlay_keeps_MediaBox recording_library /\
  MediaBox (@page_after recording_library (bg_color "forest") (text_page "1 1 1 rg"))
  = MediaBox (text_page "1 1 1 rg").
Proof.
  split; [exact recording_library_keeps_MediaBox|].
  apply (@process_page_keeps_MediaBox recording_library (bg_color "forest")
           (text_page "1 1 1 rg") recording_library_keeps_MediaBox).
Defined.

(** ** The loop and the document *)

Lemma process_page_warnings {L : PdfLibrary} (bg : rgb8) (p : Page) (printed : list exn) :
  exists new,
    warnings (fst (_process_page bg (mk_state p printed))) = (printed ++ new)%list /\
    (length new <= 1)%nat.
Proof.
  unfold _process_page, try_except.
  pose proof (ignores_process_page_body bg p printed) as H.
  destruct (process_page_body bg (mk_state p [])) as [st0 r0]. cbn in H. rewrite H.
  destruct r0 as [u | e]; cbn.
  - exists []. rewrite app_nil_r. split; [reflexivity | cbn; lia].
  - exists [e]. split; [reflexivity | cbn; lia].
Qed.

(** The loop over the pages never raises: it returns as many pages as it
    was given, each processed as it is on its own; the warnings printed
    before are kept, and at most one is added for every page. *)
Theorem process_pages_counts {L : PdfLibrary} (bg : rgb8) (pages : list Page)
    (printed : list exn) :
  exists new,
    process_pages bg pages printed
    = Return (map (page_after bg) pages, (printed ++ new)%list) /\
    length (map (page_after bg) pages) = length pages /\
    (length new <= length pages)%nat.
Proof.
  revert printed. induction pages as [| p pages IH]; intros printed.
  - exists []. cbn. rewrite app_nil_r. auto.
  - cbn [process_pages].
    pose proof (process_page_returns bg (mk_state p printed)) as Hret.
    pose proof (process_page_page bg p printed) as Hpage.
    destruct (process_page_warnings bg p printed) as (new1 & Hw & Hlen1).
    destruct (_process_page bg (mk_state p printed)) as [st r]. cbn in Hret, Hpage, Hw.
    subst r. rewrite Hw.
    destruct (IH (printed ++ new1)%list) as (new2 & -> & Hmap & Hlen2).
    exists (new1 ++ new2)%list. rewrite Hpage, app_assoc. split; [reflexivity|].
    split.
    + cbn. rewrite Hmap. reflexivity.
    + rewrite length_app. cbn. lia.
Qed.

(** When the document opens, [process_pdf] returns what saving the
    processed pages returns, each page processed as it is on its own;
    nothing that happens while a page is processed makes it raise.  It
    raises only when opening, saving or closing the document does. *)
Theorem process_pdf_saves_every_page {L : PdfLibrary} (bg : rgb8)
    (input_bytes output : string) (pages : list Page) :
  pdf_open input_bytes = Return pages ->
  pdf_save (map (page_after bg) pages) = Return output ->
  pdf_close (map (page_after bg) pages) = Return tt ->
  process_pdf bg input_bytes = Return output.
Proof.
  intros Hopen Hsave Hclose. unfold process_pdf. rewrite Hopen.
  destruct (process_pages_all bg pages []) as [printed' ->].
  rewrite Hsave, Hclose. reflexivity.
Qed.

Lemma process_pdf_saves_every_page_two :
  @process_pdf (document_library [text_page "0 g"; text_page "1 g"])
    (bg_color "classic") "%PDF"
  = Return ("0.9800 g " ++ String "010" "0.0000 g ")%string.
Proof.
  apply (@process_pdf_saves_every_page
           (document_library [text_page "0 g"; text_page "1 g"])
           (bg_color "classic") "%PDF" _ [text_page "0 g"; text_page "1 g"]).
  - reflexivity.
  - vm_compute. reflexivity.
  - reflexivity.
Defined.

(** * The API and the processor *)

(** Every theme [convert_pdf] accepts is listed by [get_themes], is a key of
    the table of the processor, and selects the background [get_themes]
    shows for it: the fall-back to the classic background is not reached
    through the API. *)
Theorem valid_theme_has_its_background (theme : string) :
  theme_is_valid theme = true ->
  In theme theme_names /\
  exists entry, In entry get_themes /\ theme_id entry = theme /\
                bg_color theme = theme_background entry.
Proof.
  unfold theme_is_valid. intros H. apply existsb_exists in H.
  destruct H as (t & Hin & Heq). apply String.eqb_eq in Heq. subst t.
  cbn in Hin.
  repeat (destruct Hin as [<- | Hin];
          [split; [cbn; auto 10 |];
           first [ exists (nth 0 get_themes (mk_theme_entry "" "" (mk_rgb8 0 0 0)));
                   split; [cbn; auto 10 | split; reflexivity]
                 | exists (nth 1 get_themes (mk_theme_entry "" "" (mk_rgb8 0 0 0)));
                   split; [cbn; auto 10 | split; reflexivity]
                 | exists (nth 2 get_themes (mk_theme_entry "" "" (mk_rgb8 0 0 0)));
                   split; [cbn; auto 10 | split; reflexivity]
                 | exists (nth 3 get_themes (mk_theme_entry "" "" (mk_rgb8 0 0 0)));
                   split; [cbn; auto 10 | split; reflexivity]
                 | exists (nth 4 get_themes (mk_theme_entry "" "" (mk_rgb8 0 0 0)));
                   split; [cbn; auto 10 | split; reflexivity]
                 | exists (nth 5 get_themes (mk_theme_entry "" "" (mk_rgb8 0 0 0)));
                   split; [cbn; auto 10 | split; reflexivity] ]|]).
  destruct Hin.
Qed.

Lemma valid_theme_has_its_background_midnight :
  theme_is_valid "midnight" = true /\
  In "midnight"%string theme_names /\
  exists entry, In entry get_themes /\ theme_id entry = "midnight"%string /\
                bg_color "midnight" = theme_background entry.
Proof.
  split; [reflexivity|].
  apply (valid_theme_has_its_background "midnight"). reflexivity.
Defined.

(** * The RGB mapper away from the thresholds of its bands *)

(** For every colour without negative component, so for every operand the
    patterns can capture, no component of the mapped colour is negative; and
    for components of at most 1, when the brightness is below 0.15 or at
    least 0.6 by the margin, outside the two bands that return an HSV remap
    as it is, every component of the mapped colour lies in [0,1]. *)
Theorem transform_rgb_range (theme : string) (r g b : Q) :
  0 <= r -> 0 <= g -> 0 <= b ->
  nonneg3 (_transform_rgb (bg_color theme) r g b) /\
  (r <= 1 -> g <= 1 -> b <= 1 ->
   brightness r g b <= 0.15 - band_margin \/ 0.6 + band_margin <= brightness r g b ->
   in_unit3 (_transform_rgb (bg_color theme) r g b)).
Proof.
  intros Hr Hg Hb.
  destruct (transform_rgb_range_exact theme r g b Hr Hg Hb) as [Hn Hu].
  split; [exact Hn|]. intros Hr1 Hg1 Hb1 HY. apply Hu; try assumption.
  unfold band_margin in HY. destruct HY as [HY | HY]; [left | right]; lra.
Qed.

Lemma transform_rgb_range_blue :
  0 <= 0 /\ 0 <= 1 /\
  nonneg3 (_transform_rgb (bg_color "forest") 0 0 1) /\
  (0 <= 1 -> 0 <= 1 -> 1 <= 1 ->
   brightness 0 0 1 <= 0.15 - band_margin \/ 0.6 + band_margin <= brightness 0 0 1 ->
   in_unit3 (_transform_rgb (bg_color "forest") 0 0 1)).
Proof.
  split; [discriminate|]. split; [discriminate|].
  apply (transform_rgb_range "forest" 0 0 1); discriminate.
Defined.

(** Every colour that is not near-white is brightened: for every colour
    without negative component whose brightness is below 0.93 by the margin,
    the largest component of the mapped colour is 0.65 or more. *)
Theorem transform_rgb_brightens (bg : rgb8) (r g b : Q) :
  0 <= r -> 0 <= g -> 0 <= b -> brightness r g b <= 0.93 - band_margin ->
  0.65 <= largest (_transform_rgb bg r g b).
Proof.
  intros Hr Hg Hb HY. apply transform_rgb_brightens_exact; try assumption.
  unfold band_margin in HY. lra.
Qed.

Lemma transform_rgb_brightens_navy :
  0 <= 0 /\ 0 <= 0.5019 /\ brightness 0 0 0.5019 <= 0.93 - band_margin /\
  0.65 <= largest (_transform_rgb (bg_color "classic") 0 0 0.5019).
Proof.
  split; [discriminate|]. split; [discriminate|]. split; [discriminate|].
  apply (transform_rgb_brightens (bg_color "classic") 0 0 0.5019); discriminate.
Defined.

(** Between the near-black and the near-white band the mapper keeps the hue:
    for every colour without negative component whose brightness is from
    0.15 to 0.93, inside by the margin at both ends, the differences between
    the components of the mapped colour are those of the input times one
    positive factor, so the components keep their order and their
    proportions. *)
Theorem transform_rgb_keeps_hue (bg : rgb8) (r g b : Q) :
  0 <= r -> 0 <= g -> 0 <= b ->
  0.15 + band_margin <= brightness r g b -> brightness r g b <= 0.93 - band_margin ->
  exists kappa : Q,
    0 < kappa /\ scaled_differences kappa (_transform_rgb bg r g b) (r, g, b).
Proof.
  intros Hr Hg Hb Hlo Hhi. unfold band_margin in Hlo, Hhi.
  apply transform_rgb_keeps_hue_exact; try assumption; lra.
Qed.

Lemma transform_rgb_keeps_hue_teal :
  0.15 + band_margin <= brightness 0.1 0.5 0.4 /\
  brightness 0.1 0.5 0.4 <= 0.93 - band_margin /\
  exists kappa : Q,
    0 < kappa /\
    scaled_differences kappa (_transform_rgb (bg_color "claude") 0.1 0.5 0.4) (0.1, 0.5, 0.4).
Proof.
  split; [discriminate|]. split; [discriminate|].
  apply (transform_rgb_keeps_hue (bg_color "claude") 0.1 0.5 0.4); discriminate.
Defined.

(** * What the rewriter never takes out *)

Section KeptBytes.

Local Open Scope string_scope.

Lemma subsequence_refl (a : string) : subsequence a a.
Proof. induction a; constructor; assumption. Qed.

Lemma subsequence_app_l (x a b : string) : subsequence a b -> subsequence a (x ++ b).
Proof. intros H. induction x; cbn; [exact H | constructor; assumption]. Qed.

Lemma subsequence_trans (a b c : string) :
  subsequence a b -> subsequence b c -> subsequence a c.
Proof.
  intros Hab Hbc. revert a Hab.
  induction Hbc as [| x b c Hbc IH | x b c Hbc IH]; intros a Hab.
  - exact Hab.
  - constructor. apply IH, Hab.
  - inversion Hab as [| y a' b' Hab' | y a' b' Hab']; subst.
    + constructor. apply IH, Hab'.
    + apply subsequence_take. apply IH, Hab'.
Qed.

Lemma fixed_text_subsequence (a : string) : subsequence (fixed_text a) a.
Proof.
  unfold fixed_text. induction a as [| c a IH]; cbn; [constructor|].
  destruct (rewritable c); cbn; constructor; exact IH.
Qed.

Lemma fixed_text_mono (a b : string) :
  subsequence a b -> subsequence (fixed_text a) (fixed_text b).
Proof.
  unfold fixed_text. intros H. induction H as [| c a b H IH | c a b H IH]; cbn.
  - constructor.
  - destruct (rewritable c); cbn; [exact IH | constructor; exact IH].
  - destruct (rewritable c); cbn; [exact IH | apply subsequence_take; exact IH].
Qed.

Lemma fixed_text_idem (a : string) : fixed_text (fixed_text a) = fixed_text a.
Proof.
  unfold fixed_text. induction a as [| c a IH]; cbn; [reflexivity|].
  destruct (rewritable c) eqn:Hc; cbn; [exact IH|]. rewrite Hc. cbn. rewrite IH.
  reflexivity.
Qed.

(** A pass, whatever it puts in, takes out only characters of its pattern. *)
Lemma rewrites_keeps (p : regex) (repl : list string -> string) (s t : string) :
  pattern_rewritable p = true ->
  rewrites p repl s t -> subsequence (fixed_text s) (fixed_text t).
Proof.
  intros Hp Hr. induction Hr as [| c s t Hr IH | segs s t Hm Hr IH].
  - constructor.
  - unfold fixed_text in *. cbn [string_filter].
    destruct (rewritable c); cbn; [exact IH | apply subsequence_take; exact IH].
  - rewrite (fixed_text_skip _ _ (matched_text_rewritable p segs Hp Hm)).
    apply (subsequence_trans _ _ _ IH).
    apply fixed_text_mono, subsequence_app_l, subsequence_refl.
Qed.

Lemma re_sub_keeps (p : regex) (repl : list string -> string) (s : string) :
  takes_a_character p = true -> pattern_rewritable p = true ->
  subsequence (fixed_text s) (fixed_text (re_sub p repl s)).
Proof.
  intros Ht Hp. apply (rewrites_keeps p repl); [exact Hp|].
  apply re_sub_rewrites. exact Ht.
Qed.

End KeptBytes.

(** The rewriter takes out nothing but digits, white space, dots, minus
    signs and the letters r, g, R, G, k, K: every other byte of a content
    stream (names, parentheses, the letters of the other operators, [q] and
    [Q]) is in the output, in the same order, whatever the replacements put
    in. *)
Theorem transform_content_stream_keeps_bytes (bg : rgb8) (content : string) :
  subsequence (fixed_text content) (_transform_content_stream bg content).
Proof.
  apply (subsequence_trans _ (fixed_text (_transform_content_stream bg content)));
    [|apply fixed_text_subsequence].
  unfold _transform_content_stream.
  repeat match goal with
  | |- subsequence _ (fixed_text (re_sub ?p ?repl ?s)) =>
      apply (subsequence_trans _ (fixed_text s));
        [|apply (re_sub_keeps p repl s); reflexivity]
  end.
  apply subsequence_refl.
Qed.

(** * The claims about pages *)

(** ** Claim C10: a page without content *)



(** With a library that leaves [/Contents] alone, the same page comes out
    without [/Contents]. *)
Lemma empty_page_without_underlay_stream :
  @_process_page recording_library (bg_color "claude") (mk_state empty_page [])
  = (mk_state (with_underlay empty_page) [], Return tt).
Proof. vm_compute. reflexivity. Qed.

(** ** Claim C7: a page whose rewriting raises *)

Lemma process_pages_app {L : PdfLibrary} (bg : rgb8) (l1 l2 d1 d2 : list Page)
    (printed w1 w2 : list exn) :
  process_pages bg l1 printed = Return (d1, w1) ->
  process_pages bg l2 w1 = Return (d2, w2) ->
  process_pages bg (l1 ++ l2) printed = Return ((d1 ++ d2)%list, w2).
Proof.
  revert d1 printed. induction l1 as [| p l1 IH]; intros d1 printed H1 H2; cbn in H1 |- *.
  - injection H1 as <- <-. exact H2.
  - destruct (_process_page bg (mk_state p printed)) as [st [u | e]]; [|discriminate].
    destruct (process_pages bg l1 (warnings st)) as [[d w] | e] eqn:E; [|discriminate].
    injection H1 as <- <-. rewrite (IH d (warnings st) E H2). reflexivity.
Qed.

Lemma process_pages_extends {L : PdfLibrary} (bg : rgb8) (pages done : list Page)
    (printed printed' : list exn) :
  process_pages bg pages printed = Return (done, printed') ->
  exists new, printed' = (printed ++ new)%list.
Proof.
  revert done printed. induction pages as [| a pages IH]; intros done printed H; cbn in H.
  - injection H as _ <-. exists []. rewrite app_nil_r. reflexivity.
  - destruct (process_page_warnings bg a printed) as (n1 & Hn1 & _).
    destruct (_process_page bg (mk_state a printed)) as [st [u | e']]; [|discriminate].
    cbn in Hn1.
    destruct (process_pages bg pages (warnings st)) as [[d w'] | e'] eqn:E; [|discriminate].
    injection H as _ <-. rewrite Hn1 in E.
    destruct (IH _ _ E) as [n2 ->]. exists (n1 ++ n2)%list. rewrite app_assoc.
    reflexivity.
Qed.

(** Claim C7 fails: a document of three pages whose second page has a
    content stream that cannot be read, in a library whose [save] cannot
    read it either.  The background steps succeed on the second page and
    rewriting its content raises; the loop goes on, [save] raises, and
    [process_pdf] raises: no page is emitted. *)
Lemma failing_page_is_not_emitted :
  @underlaid (strict_library [text_page "1 1 1 rg"; unreadable_page; empty_page])
    (bg_color "classic") unreadable_page (with_underlay unreadable_page) /\
  @rewriting_raises (strict_library [text_page "1 1 1 rg"; unreadable_page; empty_page])
    (bg_color "classic") (ContentsObject (Stream (Raise (Exception "PdfError"))))
    (Exception "PdfError") /\
  @process_pdf (strict_library [text_page "1 1 1 rg"; unreadable_page; empty_page])
    (bg_color "classic") "%PDF"
  = Raise (Exception "PdfError").
Proof.
  split; [|split].
  - exists 0, 0, 612, 792, []. eexists. eexists. repeat split; reflexivity.
  - left. reflexivity.
  - vm_compute. reflexivity.
Qed.

(** Claim C7, amended: in a document of any number of pages, when the
    background steps succeed on a page and rewriting its content raises,
    the exception is caught and printed and the loop goes on: every page
    before and after is processed as it is on its own, and the failing page
    is left as [add_underlay] left it.  [process_pdf] then returns what
    saving these pages returns; saving and closing are outside the [try],
    and when one of them raises, [process_pdf] raises. *)
Theorem failing_page_does_not_stop_the_loop {L : PdfLibrary} (bg : rgb8)
    (input_bytes : string) (before after : list Page) (p p' : Page) (c : contents)
    (e : exn) :
  pdf_open input_bytes = Return (before ++ p :: after)%list ->
  underlaid bg p p' -> Contents p' = Some c -> rewriting_raises bg c e ->
  (exists printed,
     process_pages bg (before ++ p :: after) []
     = Return ((map (page_after bg) before ++ p' :: map (page_after bg) after)%list,
               printed)
     /\ In e printed)
  /\ process_pdf bg input_bytes
     = save_and_close (map (page_after bg) before ++ p' :: map (page_after bg) after)%list.
Proof.
  intros Hopen Hu Hc Hr.
  destruct (process_pages_all bg before []) as [w1 H1].
  pose proof (process_page_rewriting_raises bg p p' c e w1 Hu Hc Hr) as Hp.
  destruct (process_pages_all bg after (w1 ++ [e])) as [w2 H2].
  destruct (process_pages_extends bg after _ _ _ H2) as [new Hw].
  assert (Hall : process_pages bg (before ++ p :: after) []
                 = Return ((map (page_after bg) before ++ p' :: map (page_after bg) after)%list,
                           w2)).
  { apply (process_pages_app bg before (p :: after) _ _ [] w1 w2 H1).
    cbn [process_pages]. rewrite Hp. cbn [warnings page]. rewrite H2. reflexivity. }
  split.
  - exists w2. split; [exact Hall|]. rewrite Hw.
    apply in_or_app. left. apply in_or_app. right. left. reflexivity.
  - unfold process_pdf, save_and_close. rewrite Hopen, Hall. reflexivity.
Qed.

Lemma unreadable_page_underlaid (bg : rgb8) (pages : list Page) :
  @underlaid (document_library pages) bg unreadable_page (with_underlay unreadable_page).
Proof.
  exists 0, 0, 612, 792, [].
  eexists. eexists. repeat split; reflexivity.
Defined.

Lemma failing_page_between_two :
  (exists printed,
     @process_pages (document_library [text_page "1 1 1 rg"; unreadable_page; empty_page])
       (bg_color "classic") ([text_page "1 1 1 rg"] ++ unreadable_page :: [empty_page]) []
     = Return
         ((map (@page_after
                  (document_library [text_page "1 1 1 rg"; unreadable_page; empty_page])
                  (bg_color "classic")) [text_page "1 1 1 rg"]
           ++ with_underlay unreadable_page
           :: map (@page_after
                     (document_library [text_page "1 1 1 rg"; unreadable_page; empty_page])
                     (bg_color "classic")) [empty_page])%list,
          printed)
     /\ In (Exception "PdfError") printed)
  /\ @process_pdf (document_library [text_page "1 1 1 rg"; unreadable_page; empty_page])
       (bg_color "classic") "%PDF"
     = @save_and_close (document_library [text_page "1 1 1 rg"; unreadable_page; empty_page])
         (map (@page_after
                 (document_library [text_page "1 1 1 rg"; unreadable_page; empty_page])
                 (bg_color "classic")) [text_page "1 1 1 rg"]
          ++ with_underlay unreadable_page
          :: map (@page_after
                    (document_library [text_page "1 1 1 rg"; unreadable_page; empty_page])
                    (bg_color "classic")) [empty_page])%list.
Proof.
  apply (@failing_page_does_not_stop_the_loop
           (document_library [text_page "1 1 1 rg"; unreadable_page; empty_page])
           (bg_color "classic") "%PDF"
           [text_page "1 1 1 rg"] [empty_page] unreadable_page
           (with_underlay unreadable_page)
           (ContentsObject (Stream (Raise (Exception "PdfError"))))
           (Exception "PdfError")).
  - reflexivity.
  - apply unreadable_page_underlaid.
  - reflexivity.
  - left. reflexivity.
Defined.

(** The pages of that document after the loop: the first rewritten, the
    second with its unreadable content kept, the third without content; and
    what [process_pdf] returns when [save] returns the content of the
    pages, one per line. *)
Lemma failing_page_between_two_pages :
  @process_pages (document_library [text_page "1 1 1 rg"; unreadable_page; empty_page])
    (bg_color "classic") [text_page "1 1 1 rg"; unreadable_page; empty_page] []
  = Return ([ with_underlay (text_page "0.0000 0.0000 0.0000 rg");
              with_underlay unreadable_page;
              with_underlay empty_page ],
            [Exception "PdfError"]) /\
  @process_pdf (document_library [text_page "1 1 1 rg"; unreadable_page; empty_page])
    (bg_color "classic") "%PDF"
  = Return ("0.0000 0.0000 0.0000 rg" ++ String "010" (String "010" ""))%string.
Proof.
  split; vm_compute; reflexivity.
Qed.

(** * The passes, exactly *)

(** ** The matcher returns a text of the pattern at its place *)

Section SoundAt.

Local Open Scope string_scope.

Lemma matches_at_regex_match (p : regex) : forall prev segs rest,
  matches_at p prev segs rest -> regex_match p segs.
Proof.
  induction p as [| it p IH]; intros prev [| seg segs] rest H; cbn in H;
    try contradiction.
  - constructor.
  - destruct H as (Hit & _ & H). constructor; [exact Hit | exact (IH _ _ _ H)].
Qed.

Variable cl : cclass.
Variable p : regex.
Variable k : option ascii -> string -> option outcome.
Hypothesis k_sound : sound_at p k.

Lemma repeat_greedy_sound_at (s acc : string) prev segs rest :
  repeat_greedy cl k acc prev s = Some (segs, rest) ->
  exists more segs',
    segs = (acc ++ more) :: segs' /\
    string_forall (in_class cl) more = true /\
    matches_at p (last_char prev more) segs' rest /\
    s = more ++ matched_text segs' ++ rest.
Proof.
  revert acc prev. induction s as [| c s IH]; intros acc prev H; cbn in H.
  - apply consumed_some in H. destruct H as (segs' & -> & Hk).
    apply k_sound in Hk. destruct Hk as [Hm Hs].
    exists "", segs'. rewrite append_nil_r. auto.
  - assert (Hstop : consumed acc (k prev (String c s)) = Some (segs, rest) ->
                    exists more segs',
                      segs = (acc ++ more) :: segs' /\
                      string_forall (in_class cl) more = true /\
                      matches_at p (last_char prev more) segs' rest /\
                      String c s = more ++ matched_text segs' ++ rest).
    { intros Hc. apply consumed_some in Hc. destruct Hc as (segs' & -> & Hk).
      apply k_sound in Hk. destruct Hk as [Hm Hs].
      exists "", segs'. rewrite append_nil_r. auto. }
    destruct (in_class cl c) eqn:Hcl; [|auto].
    apply or_else_some in H. destruct H as [H | H]; [|auto].
    apply IH in H. destruct H as (more & segs' & -> & Hall & Hm & ->).
    exists (String c more), segs'. rewrite snoc_append. cbn. rewrite Hcl, Hall. auto.
Qed.

Lemma match_atom_sound_at (q : quant) : sound_at (Atom cl q :: p) (match_atom cl k q).
Proof.
  intros prev s segs rest H.
  assert (Hone : forall c s',
    in_class cl c = true ->
    consumed (String c "") (k (Some c) s') = Some (segs, rest) ->
    quant_ok q 1 ->
    matches_at (Atom cl q :: p) prev segs rest /\ String c s' = matched_text segs ++ rest).
  { intros c s' Hcl Hc Hq. apply consumed_some in Hc. destruct Hc as (segs' & -> & Hk).
    apply k_sound in Hk. destruct Hk as [Hm ->].
    split; [|reflexivity]. cbn. rewrite Hcl. auto. }
  assert (Hnone : consumed "" (k prev s) = Some (segs, rest) ->
    quant_ok q 0 ->
    matches_at (Atom cl q :: p) prev segs rest /\ s = matched_text segs ++ rest).
  { intros Hc Hq. apply consumed_some in Hc. destruct Hc as (segs' & -> & Hk).
    apply k_sound in Hk. destruct Hk as [Hm ->].
    split; [|reflexivity]. cbn. auto. }
  destruct q; cbn in H.
  - destruct s as [| c s']; [discriminate|].
    destruct (in_class cl c) eqn:Hcl; [|discriminate].
    apply (Hone c s'); cbn; auto.
  - destruct s as [| c s']; [apply Hnone; cbn; auto|].
    destruct (in_class cl c) eqn:Hcl; [|apply Hnone; cbn; auto].
    apply or_else_some in H. destruct H as [H | H];
      [apply (Hone c s') | apply Hnone]; cbn; auto.
  - apply repeat_greedy_sound_at in H.
    destruct H as (more & segs' & -> & Hall & Hm & ->).
    split; [|cbn; rewrite append_assoc; reflexivity].
    cbn. auto.
  - destruct s as [| c s']; [discriminate|].
    destruct (in_class cl c) eqn:Hcl; [|discriminate].
    apply repeat_greedy_sound_at in H.
    destruct H as (more & segs' & -> & Hall & Hm & ->).
    split; [|cbn; rewrite append_assoc; reflexivity].
    cbn. rewrite Hcl, Hall. repeat split; [lia | exact Hm].
Qed.

(** ** The matcher finds a text wherever there is one *)

Hypothesis k_complete : complete_at p k.

Lemma consumed_not_none (seg : string) (r : option outcome) :
  r <> None -> consumed seg r <> None.
Proof. destruct r as [[segs rest] |]; cbn; [discriminate | auto]. Qed.

Lemma or_else_not_none_l (r alt : option outcome) : r <> None -> or_else r alt <> None.
Proof. destruct r; cbn; [discriminate | auto]. Qed.

Lemma or_else_not_none_r (r alt : option outcome) : alt <> None -> or_else r alt <> None.
Proof. destruct r; cbn; [discriminate | auto]. Qed.

Lemma repeat_greedy_complete (more : string) : forall acc prev segs rest,
  string_forall (in_class cl) more = true ->
  matches_at p (last_char prev more) segs rest ->
  repeat_greedy cl k acc prev (more ++ matched_text segs ++ rest) <> None.
Proof.
  induction more as [| c more IH]; intros acc prev segs rest Hall Hm.
  - cbn [append last_char] in *. apply (k_complete prev) in Hm.
    destruct (matched_text segs ++ rest) as [| c s]; cbn.
    + apply consumed_not_none, Hm.
    + destruct (in_class cl c);
        [apply or_else_not_none_r|]; apply consumed_not_none, Hm.
  - cbn in Hall. apply andb_true_iff in Hall. destruct Hall as [Hc Hall].
    cbn [append repeat_greedy]. rewrite Hc.
    apply or_else_not_none_l, IH; assumption.
Qed.

Lemma match_atom_complete (q : quant) :
  complete_at (Atom cl q :: p) (match_atom cl k q).
Proof.
  intros prev [| seg segs] rest H; cbn in H; [contradiction|].
  destruct H as ((Hall & Hq) & _ & Hm).
  cbn [matched_text fold_right]. fold (matched_text segs). rewrite append_assoc.
  destruct q; cbn in Hq.
  - destruct seg as [| c [| c' seg]]; try discriminate Hq.
    cbn in Hall. rewrite andb_true_r in Hall. cbn. rewrite Hall.
    apply consumed_not_none, (k_complete _ _ _ Hm).
  - destruct seg as [| c [| c' seg]]; [| |cbn in Hq; lia].
    + cbn [append last_char] in *. apply (k_complete prev) in Hm.
      destruct (matched_text segs ++ rest) as [| c s]; cbn.
      * apply consumed_not_none, Hm.
      * destruct (in_class cl c);
          [apply or_else_not_none_r|]; apply consumed_not_none, Hm.
    + cbn in Hall. rewrite andb_true_r in Hall. cbn. rewrite Hall.
      apply or_else_not_none_l, consumed_not_none, (k_complete _ _ _ Hm).
  - cbn [match_atom]. apply repeat_greedy_complete; assumption.
  - destruct seg as [| c seg]; [cbn in Hq; lia|].
    cbn in Hall. apply andb_true_iff in Hall. destruct Hall as [Hc Hall].
    cbn. rewrite Hc. apply repeat_greedy_complete; assumption.
Qed.

End SoundAt.

Lemma match_items_sound_at (p : regex) : sound_at p (match_items p).
Proof.
  induction p as [| it p IH]; intros prev s segs rest H; cbn in H.
  - injection H as <- <-. split; [exact I | reflexivity].
  - destruct it as [cl q | | |].
    + exact (match_atom_sound_at cl p (match_items p) IH q prev s segs rest H).
    + apply consumed_some in H. destruct H as (segs' & -> & Hk).
      apply IH in Hk. destruct Hk as [Hm ->].
      split; [cbn; auto | reflexivity].
    + apply consumed_some in H. destruct H as (segs' & -> & Hk).
      apply IH in Hk. destruct Hk as [Hm ->].
      split; [cbn; auto | reflexivity].
    + destruct (xorb (is_word_at prev) (is_word_at (first_char s))) eqn:Hb; [|discriminate].
      apply consumed_some in H. destruct H as (segs' & -> & Hk).
      apply IH in Hk. destruct Hk as [Hm ->].
      split; [cbn; auto | reflexivity].
Qed.

Lemma match_items_complete (p : regex) : complete_at p (match_items p).
Proof.
  induction p as [| it p IH]; intros prev [| seg segs] rest H; cbn in H;
    try contradiction.
  - cbn. discriminate.
  - destruct it as [cl q | | |].
    + apply (match_atom_complete cl p (match_items p) IH q prev (seg :: segs) rest).
      cbn. exact H.
    + destruct H as (-> & _ & Hm). cbn in Hm |- *.
      apply consumed_not_none, (IH _ _ _ Hm).
    + destruct H as (-> & _ & Hm). cbn in Hm |- *.
      apply consumed_not_none, (IH _ _ _ Hm).
    + destruct H as (-> & Hb & Hm). cbn [last_char] in Hm.
      change (matched_text (""%string :: segs) ++ rest)%string
        with (matched_text segs ++ rest)%string.
      cbn [match_items]. rewrite Hb.
      apply consumed_not_none, (IH _ _ _ Hm).
Qed.

(** ** Matches do not depend on the character before them *)

Section PrevFree.

Local Open Scope string_scope.

Lemma repeat_greedy_prev (cl : cclass) (k : option ascii -> string -> option outcome)
    (prev1 prev2 : option ascii) (acc s : string) :
  (forall s', k prev1 s' = k prev2 s') ->
  repeat_greedy cl k acc prev1 s = repeat_greedy cl k acc prev2 s.
Proof.
  intros Hk. destruct s as [| c s]; cbn; rewrite Hk; reflexivity.
Qed.

Lemma match_items_prev_free (p : regex) :
  prev_free p = true ->
  forall prev1 prev2 s, match_items p prev1 s = match_items p prev2 s.
Proof.
  induction p as [| it p IH]; intros Hp prev1 prev2 s; [reflexivity|].
  destruct it as [cl q | | |]; cbn in Hp; try discriminate Hp.
  - destruct q; cbn [match_items match_atom].
    + reflexivity.
    + destruct s as [| c s]; rewrite (IH Hp prev1 prev2); reflexivity.
    + apply repeat_greedy_prev. intros s'. apply (IH Hp).
    + reflexivity.
  - cbn. rewrite (IH Hp prev1 prev2). reflexivity.
  - cbn. rewrite (IH Hp prev1 prev2). reflexivity.
Qed.

Lemma sub_from_prev_free (p : regex) (repl : list string -> string) :
  prev_free p = true ->
  forall prev1 prev2 s, sub_from p repl prev1 0 s = sub_from p repl prev2 0 s.
Proof.
  intros Hp prev1 prev2 s.
  destruct s as [| c s]; cbn; rewrite (match_items_prev_free p Hp prev1 prev2);
    reflexivity.
Qed.

Lemma quiet_spec (p : regex) (s : string) :
  prev_free p = true -> quiet p s = true ->
  forall u1 u2 prev, s = u1 ++ u2 -> match_items p prev u2 = None.
Proof.
  intros Hp. induction s as [| c s IH]; intros Hq u1 u2 prev E; cbn in Hq.
  - destruct u1; [|discriminate]. cbn in E. subst u2.
    rewrite (match_items_prev_free p Hp prev None).
    destruct (match_items p None ""); [discriminate | reflexivity].
  - destruct (match_items p None (String c s)) eqn:Hm; [discriminate|].
    destruct u1 as [| c' u1]; cbn in E.
    + subst u2. rewrite (match_items_prev_free p Hp prev None). exact Hm.
    + injection E as _ E. apply (IH Hq u1 u2 prev E).
Qed.

End PrevFree.

(** ** A pass replaces the texts of its pattern and copies the rest *)

Section ExactPass.

Local Open Scope string_scope.

Variable p : regex.
Variable repl : list string -> string.
Hypothesis p_takes : takes_a_character p = true.

Lemma sub_from_skip_last (m rest : string) : forall prev,
  sub_from p repl prev (String.length m) (m ++ rest)
  = sub_from p repl (last_char prev m) 0 rest.
Proof.
  induction m as [| c m IH]; intros prev; cbn; [reflexivity | apply IH].
Qed.

Lemma no_text_at_the_end (prev : option ascii) : match_items p prev "" = None.
Proof.
  destruct (match_items p prev "") as [[segs rest] |] eqn:Hm; [|reflexivity].
  apply match_items_sound in Hm. destruct Hm as [Hm Hs].
  apply (matched_text_nonempty p segs p_takes) in Hm.
  apply (f_equal String.length) in Hs. rewrite length_append in Hs. cbn in Hs. lia.
Qed.

Lemma sub_from_replaces (n : nat) :
  forall (s : string) (prev : option ascii),
    (String.length s <= n)%nat -> replaces p repl prev s (sub_from p repl prev 0 s).
Proof.
  induction n as [| n IH]; intros s prev Hn.
  - destruct s; [|cbn in Hn; lia]. cbn. rewrite no_text_at_the_end. constructor.
  - destruct s as [| c s].
    { cbn. rewrite no_text_at_the_end. constructor. }
    cbn [sub_from].
    destruct (match_items p prev (String c s)) as [[segs rest] |] eqn:Hm.
    + apply match_items_sound_at in Hm. destruct Hm as [Hm Hs].
      pose proof (matched_text_nonempty p segs p_takes
                    (matches_at_regex_match p prev segs rest Hm)) as Hlen.
      destruct (matched_text segs) as [| c' m] eqn:Htext; [cbn in Hlen; lia|].
      cbn [String.length]. cbn in Hs. injection Hs as -> ->.
      rewrite sub_from_skip_last.
      change (String c' (m ++ rest)) with (String c' m ++ rest).
      change (last_char (Some c') m) with (last_char prev (String c' m)).
      rewrite <- Htext. apply replaces_match; [exact Hm | |].
      * rewrite Htext. discriminate.
      * apply IH. cbn in Hn. rewrite length_append in Hn. lia.
    + apply replaces_copy.
      * intros (segs & rest & Hm' & Hs). apply match_items_complete in Hm'.
        rewrite <- Hs in Hm'. contradiction.
      * apply IH. cbn in Hn. lia.
Qed.

Lemma re_sub_replaces (s : string) : replaces p repl None s (re_sub p repl s).
Proof. apply (sub_from_replaces (String.length s)). lia. Qed.

(** Where the pattern has no text, a pass leaves the stream as it is. *)
Lemma replaces_nothing (s t : string) (prev : option ascii) :
  (forall u1 u2 prev', s = u1 ++ u2 -> match_items p prev' u2 = None) ->
  replaces p repl prev s t -> t = s.
Proof.
  intros Hnone Hr. induction Hr as [prev | prev c s t Hno Hr IH | prev segs rest t Hm Hne Hr IH].
  - reflexivity.
  - rewrite IH; [reflexivity|]. intros u1 u2 prev' ->.
    apply (Hnone (String c u1) u2 prev'). reflexivity.
  - exfalso. apply match_items_complete in Hm.
    apply Hm, (Hnone "" (matched_text segs ++ rest) prev). reflexivity.
Qed.

End ExactPass.

(** ** Claim C3, amended: what the rewriter changes and what it leaves alone

    [_transform_content_stream] is six passes in turn, and each pass goes
    through the stream from the left: where its pattern has a text (numeric
    operands, the white space after each of them and the operator, which for
    [g], [G], [k] and [K] must not be followed by a letter, a digit or an
    underscore), inside a string literal or a comment as well as among the
    operators, the text is replaced as a whole by [_replace_rgb],
    [_replace_gray] or [_replace_cmyk] of its operands; where the pattern
    has no text, the character is copied unchanged. *)
Theorem transform_content_stream_frame (bg : rgb8) (content : string) :
  replaces_in_turn (passes bg) content (_transform_content_stream bg content).
Proof.
  unfold passes, _transform_content_stream.
  repeat (eapply replaces_in_turn_cons; [apply re_sub_replaces; reflexivity|]).
  apply replaces_in_turn_nil.
Qed.

(** What a text of the gray and CMYK patterns is: the operands, each with
    white space after it, the operator letter, and after it no letter, digit
    or underscore. *)
Lemma matches_at_app (p1 p2 : regex) : forall prev segs rest,
  matches_at (p1 ++ p2)%list prev segs rest ->
  exists s1 s2,
    segs = (s1 ++ s2)%list /\ regex_match p1 s1 /\
    matches_at p2 (last_char prev (matched_text s1)) s2 rest.
Proof.
  induction p1 as [| it p1 IH]; intros prev segs rest H.
  - exists [], segs. repeat split; [constructor | exact H].
  - destruct segs as [| seg segs]; cbn in H; [contradiction|].
    destruct H as (Hit & _ & H). destruct (IH _ _ _ H) as (s1 & s2 & -> & Hm & H2).
    exists (seg :: s1), s2. repeat split.
    + constructor; assumption.
    + cbn [matched_text fold_right]. fold (matched_text s1).
      rewrite last_char_append. exact H2.
Qed.

Lemma boundary_after_operator (number : regex) (c : ascii) (k : nat) :
  is_word c = true ->
  (forall segs, regex_match number segs -> numeric_lexeme (matched_text segs) = true) ->
  forall prev segs rest,
    matches_at (operands number k [Atom (Lit c) One; WordBoundary]) prev segs rest ->
    exists l,
      length l = k /\ forallb operand_ok l = true /\
      matched_text segs = operands_run l (String c "") /\
      is_word_at (first_char rest) = false.
Proof.
  intros Hc Hnumber. induction k as [| k IH]; intros prev segs rest H.
  - cbn [operands] in H. destruct segs as [| s1 [| s2 [| s3 segs]]]; cbn in H; try tauto.
    destruct H as (H1 & _ & (-> & Hb & _)).
    apply literal_text in H1. subst s1.
    cbn in Hb. rewrite Hc in Hb. exists []. repeat split.
    destruct (is_word_at (first_char rest)); [discriminate Hb | reflexivity].
  - cbn [operands] in H.
    apply matches_at_app in H. destruct H as (sn & segs1 & -> & Hn & H).
    apply matches_at_app in H. destruct H as (sv & segs2 & -> & Hv & H).
    destruct (IH _ _ _ H) as (l & Hlen & Hok & Htext & Hrest).
    exists ((matched_text sn, matched_text sv) :: l). repeat split.
    + cbn. rewrite Hlen. reflexivity.
    + cbn [forallb]. unfold operand_ok at 1. cbn [fst snd].
      rewrite (Hnumber sn Hn), (spaces_text sv Hv), Hok. reflexivity.
    + rewrite !matched_text_app, Htext. reflexivity.
    + exact Hrest.
Qed.

Lemma replaces_in_turn_quiet (ps : list (regex * (list string -> string))) (s t : string) :
  forallb (fun pr => prev_free (fst pr) && quiet (fst pr) s) ps = true ->
  replaces_in_turn ps s t -> t = s.
Proof.
  intros Hq Hr. induction Hr as [s | p repl ps s s1 t Hp Hr IH]; [reflexivity|].
  cbn [forallb fst] in Hq. apply andb_true_iff in Hq. destruct Hq as [Hq Hps].
  apply andb_true_iff in Hq. destruct Hq as [Hfree Hquiet].
  apply replaces_nothing in Hp; [|apply quiet_spec; assumption].
  subst s1. apply IH, Hps.
Qed.

(** The operator [gs] is not the operator [g]: no pass that meets the frame
    above can change [/GS1 gs]. *)
Lemma gs_is_left_alone (bg : rgb8) (t : string) :
  replaces_in_turn (passes bg) "/GS1 gs" t -> t = "/GS1 gs"%string.
Proof. apply replaces_in_turn_quiet. reflexivity. Qed.

(** * A text the passes go around *)

(** ** Before a character that is in no class of the pattern *)

Section Barrier.

Local Open Scope string_scope.

Lemma with_rest_consumed (X seg : string) (o : option outcome) :
  consumed seg (with_rest X o) = with_rest X (consumed seg o).
Proof. destruct o as [[segs rest] |]; reflexivity. Qed.

Lemma with_rest_or_else (X : string) (o alt : option outcome) :
  or_else (with_rest X o) (with_rest X alt) = with_rest X (or_else o alt).
Proof. destruct o as [[segs rest] |]; reflexivity. Qed.

Variable b : ascii.
Variable X' : string.
Hypothesis b_no_word : is_word b = false.

Variable cl : cclass.
Hypothesis b_out : in_class cl b = false.
Variable k : option ascii -> string -> option outcome.
Hypothesis k_barrier :
  forall prev u, k prev (u ++ String b X') = with_rest (String b X') (k prev u).

Lemma repeat_greedy_barrier (u : string) : forall acc prev,
  repeat_greedy cl k acc prev (u ++ String b X')
  = with_rest (String b X') (repeat_greedy cl k acc prev u).
Proof.
  induction u as [| c u IH]; intros acc prev.
  - cbn [append repeat_greedy]. rewrite b_out.
    rewrite <- with_rest_consumed, <- (k_barrier prev ""). reflexivity.
  - cbn [append repeat_greedy].
    change (String c (u ++ String b X')) with (String c u ++ String b X').
    rewrite IH, k_barrier, with_rest_consumed.
    destruct (in_class cl c); [apply with_rest_or_else | reflexivity].
Qed.

Lemma match_atom_barrier (q : quant) (prev : option ascii) (u : string) :
  match_atom cl k q prev (u ++ String b X')
  = with_rest (String b X') (match_atom cl k q prev u).
Proof.
  destruct q.
  - destruct u as [| c u]; cbn [append match_atom].
    + rewrite b_out. reflexivity.
    + rewrite k_barrier, with_rest_consumed. destruct (in_class cl c); reflexivity.
  - destruct u as [| c u]; cbn [append match_atom].
    + rewrite b_out, <- with_rest_consumed, <- (k_barrier prev ""). reflexivity.
    + change (String c (u ++ String b X')) with (String c u ++ String b X').
      rewrite !k_barrier, !with_rest_consumed.
      destruct (in_class cl c); [apply with_rest_or_else | reflexivity].
  - apply repeat_greedy_barrier.
  - destruct u as [| c u]; cbn [append match_atom].
    + rewrite b_out. reflexivity.
    + rewrite repeat_greedy_barrier. destruct (in_class cl c); reflexivity.
Qed.

End Barrier.

Lemma match_items_barrier (p : regex) (b : ascii) (X' : string) :
  barrier p b = true ->
  forall prev u,
    match_items p prev (u ++ String b X') = with_rest (String b X') (match_items p prev u).
Proof.
  unfold barrier. intros H. apply andb_true_iff in H. destruct H as [Hw Hp].
  apply negb_true_iff in Hw.
  induction p as [| it p IH]; intros prev u; [reflexivity|].
  cbn [forallb] in Hp. apply andb_true_iff in Hp. destruct Hp as [Hit Hp].
  specialize (IH Hp).
  destruct it as [cl q | | |]; cbn [match_items].
  - apply negb_true_iff in Hit. apply match_atom_barrier; assumption.
  - rewrite IH. apply with_rest_consumed.
  - rewrite IH. apply with_rest_consumed.
  - assert (Hfirst : is_word_at (first_char (u ++ String b X'))
                     = is_word_at (first_char u)).
    { destruct u; cbn; [exact Hw | reflexivity]. }
    rewrite Hfirst, IH, with_rest_consumed.
    destruct (xorb _ _); reflexivity.
Qed.

Section AroundAText.

Local Open Scope string_scope.

Variable p : regex.
Variable repl : list string -> string.
Hypothesis p_takes : takes_a_character p = true.

(** A pass over a text before a barrier is the pass over the text, and
    then the pass goes on from the barrier. *)
Lemma sub_from_barrier (b : ascii) (X' : string) :
  barrier p b = true ->
  forall (before : string) (prev : option ascii) (skip : nat),
    (skip <= String.length before)%nat ->
    sub_from p repl prev skip (before ++ String b X')
    = sub_from p repl prev skip before
      ++ sub_from p repl (last_char prev before) 0 (String b X').
Proof.
  intros Hb. induction before as [| c before IH]; intros prev skip Hskip.
  - cbn in Hskip. assert (skip = 0%nat) as -> by lia.
    cbn [append last_char]. cbn [sub_from].
    rewrite (no_text_at_the_end p p_takes prev). reflexivity.
  - cbn [append last_char]. destruct skip as [| n].
    + cbn [sub_from].
      change (String c (before ++ String b X')) with (String c before ++ String b X').
      rewrite (match_items_barrier p b X' Hb prev (String c before)).
      destruct (match_items p prev (String c before)) as [[segs rest] |] eqn:Hm;
        cbn [with_rest].
      * apply match_items_sound in Hm. destruct Hm as [Hm Hs].
        pose proof (matched_text_nonempty p segs p_takes Hm) as Hlen.
        destruct (String.length (matched_text segs)) as [| n] eqn:Hn; [lia|].
        rewrite append_assoc. f_equal. apply IH.
        apply (f_equal String.length) in Hs. rewrite length_append, Hn in Hs.
        cbn in Hs. lia.
      * cbn [append]. f_equal. apply IH. lia.
    + cbn [sub_from]. apply IH. cbn in Hskip. lia.
Qed.

Hypothesis p_rewritable : pattern_rewritable p = true.
Hypothesis p_ends : ends_in_color_op p.

Lemma prefix_of_text (T : string) : forall (rest u after : string),
  T ++ rest = u ++ after ->
  string_forall rewritable T = true -> string_forall rewritable u = false ->
  exists u', u = T ++ u'.
Proof.
  induction T as [| c T IH]; intros rest u after E HT Hu.
  - exists u. reflexivity.
  - destruct u as [| c' u]; [discriminate Hu|].
    cbn in E. injection E as <- E.
    cbn in HT. apply andb_true_iff in HT. destruct HT as [Hc HT].
    cbn in Hu. rewrite Hc in Hu. cbn in Hu.
    destruct (IH rest u after E HT Hu) as [u' ->]. exists u'. reflexivity.
Qed.

Lemma suffix_ends (x : ascii) (u1 : string) : forall (M0 u2 : string),
  u1 ++ u2 = M0 ++ String x "" -> u2 <> "" ->
  exists u2', u2 = u2' ++ String x "".
Proof.
  induction u1 as [| c u1 IH]; intros M0 u2 E Hne.
  - exists M0. exact E.
  - destruct M0 as [| c' M0]; cbn in E; injection E as <- E.
    + destruct u1; cbn in E; [subst u2; contradiction Hne; reflexivity | discriminate E].
    + apply (IH M0 u2 E Hne).
Qed.

(** No match starts inside a text that has no colour operator after white
    space and ends in a character no pattern takes. *)
Lemma no_match_inside (M0 : string) (x : ascii) (after : string) :
  rewritable x = false ->
  color_op_after_space (M0 ++ String x "") = false ->
  forall u1 u2 prev,
    M0 ++ String x "" = u1 ++ u2 -> u2 <> "" ->
    match_items p prev (u2 ++ after) = None.
Proof.
  intros Hx HM u1 u2 prev E Hne.
  destruct (match_items p prev (u2 ++ after)) as [[segs rest] |] eqn:Hm; [exfalso | reflexivity].
  apply match_items_sound in Hm. destruct Hm as [Hm Hs].
  destruct (suffix_ends x u1 M0 u2 (eq_sym E) Hne) as [u2' Hu2].
  assert (Hu : string_forall rewritable u2 = false).
  { rewrite Hu2, string_forall_append. cbn. rewrite Hx. apply andb_false_r. }
  destruct (prefix_of_text (matched_text segs) rest u2 after (eq_sym Hs)
              (matched_text_rewritable p segs p_rewritable Hm) Hu) as [u' Hu'].
  pose proof (p_ends segs u' Hm) as Hop. rewrite <- Hu' in Hop.
  rewrite E in HM. rewrite (color_op_after_space_append_r u1 u2 Hop) in HM.
  discriminate.
Qed.

Hypothesis p_prev_free : prev_free p = true.

(** A pass over a stream that holds such a text goes around it. *)
Lemma re_sub_around (before M' after : string) (M0 : string) (x : ascii) :
  barrier p "/" = true ->
  String "/" M' = M0 ++ String x "" ->
  rewritable x = false ->
  color_op_after_space (String "/" M') = false ->
  re_sub p repl (before ++ String "/" M' ++ after)
  = re_sub p repl before ++ String "/" M' ++ re_sub p repl after.
Proof.
  intros Hb HM Hx Hop. unfold re_sub.
  change (String "/" M' ++ after) with (String "/" (M' ++ after)).
  rewrite (sub_from_barrier "/" (M' ++ after) Hb before None 0) by lia.
  f_equal.
  change (String "/" (M' ++ after)) with (String "/" M' ++ after).
  destruct (sub_from_before p repl (String "/" M') after) with (prev := last_char None before)
    as [prev' ->].
  - intros u1 u2 prev E Hne. rewrite HM in E, Hop.
    apply (no_match_inside M0 x after Hx Hop u1 u2 prev E Hne).
  - rewrite (sub_from_prev_free p repl p_prev_free prev' None). reflexivity.
Qed.

End AroundAText.

Lemma operands_text_tail (operands : list string) (rest : string) :
  operands_text operands rest = (operands_text operands "" ++ rest)%string.
Proof.
  induction operands as [| o operands IH]; [reflexivity|].
  cbn [operands_text]. rewrite IH, !append_assoc. reflexivity.
Qed.

Lemma set_color_stream_shape (stroking : bool) (space : string) (operands : list string) :
  exists M' M0 x,
    set_color_stream stroking space operands = String "/" M' /\
    String "/" M' = (M0 ++ String x "")%string /\
    rewritable x = false.
Proof.
  unfold set_color_stream. rewrite operands_text_tail.
  destruct stroking.
  - exists (space ++ " CS" ++ operands_text operands "" ++ " SC")%string,
      ("/" ++ space ++ " CS" ++ operands_text operands "" ++ " S")%string, "C"%char.
    split; [reflexivity|]. split; [|reflexivity].
    change (String "/" (space ++ " CS" ++ operands_text operands "" ++ " SC"))%string
      with ("/" ++ space ++ " CS" ++ operands_text operands "" ++ " S" ++ "C")%string.
    rewrite !append_assoc. reflexivity.
  - exists (space ++ " cs" ++ operands_text operands "" ++ " sc")%string,
      ("/" ++ space ++ " cs" ++ operands_text operands "" ++ " s")%string, "c"%char.
    split; [reflexivity|]. split; [|reflexivity].
    change (String "/" (space ++ " cs" ++ operands_text operands "" ++ " sc"))%string
      with ("/" ++ space ++ " cs" ++ operands_text operands "" ++ " s" ++ "c")%string.
    rewrite !append_assoc. reflexivity.
Qed.


